(* ===== verification/_CoqProject ===== *)
-Q . S2P
Prelude.v
JsString.v
JsNumber.v
JsValue.v
Json.v
Effects.v
Weather.v
Types.v
JsonRead.v
JsonParse.v
Agent.v
Concurrency.v
Frontend.v
Console.v
