(* ===== verification/Prelude.v ===== *)
(** * A verification development of the weather agent (src/src/index.tsx)

    The program is a single TypeScript file.  It answers weather
    questions in three dependent steps, wrapped in an error boundary and
    driven by one of two front ends:

    - [ExtractLocation] (lines 36-56) asks a chat model for the location
      named in the question;
    - [FetchWeather] (lines 58-93) calls https://wttr.in and maps the
      JSON answer into a [WeatherData] object, or returns a degraded
      object when anything in the [try] block throws;
    - [GenerateResponse] (lines 95-120) asks the chat model to answer the
      question from the serialised weather object;
    - [WeatherAgent] (lines 122-146) chains the three, short-circuiting
      when the extracted location is falsy;
    - [WeatherAgentComponent] (lines 148-156) puts the chain under an
      [OpenAIProvider] whose context gives the API key to every nested
      chat call; [processWeatherQuery] (lines 160-169) runs the workflow
      inside a try/catch that turns any failure into an apology;
    - the front ends: start-up validation and mode choice (lines 8-23,
      246-257), the console loop (lines 212-244) and the Telegram bot
      handlers (lines 171-210).

    ** Files, in dependency order

    - [Prelude]: this header; JavaScript exceptions [exn] and the result
      type [res] with its notation [x <-? c ;; k] (scope [js_scope]); the
      hint database [js]; shared tactics and lemmas on strings.
    - [JsString]: the string built-ins the code calls, on ASCII strings:
      [toLowerCase], [startsWith], the [/\/start/] regular-expression
      test, [includes], white space, decimal digits and
      [encodeURIComponent].
    - [JsNumber]: JavaScript numbers as exact decimals ([NaN], the two
      infinities, [Fin m e] = m * 10^e kept normalised), [parseFloat]
      (ECMA-262 StrDecimalLiteral, longest prefix) and [Number::toString].
    - [JsValue]: JavaScript values ([undefined], [null], booleans,
      numbers, strings, arrays, objects as ordered property lists),
      property reads with the [TypeError] of a read on [undefined] or
      [null], truthiness ([!x]) and [String(x)].
    - [Json]: [JSON.stringify(v, null, 2)]: string quoting, the two-space
      layout, the omission of [undefined] properties.
    - [Effects]: the effects of the program as a free monad [prog]: chat
      completion calls, HTTP GET, console output, exceptions and
      [try/catch]; a relational semantics [exec] against a world and an
      executable one [run]; equivalence [peq] of programs with its
      setoid instances and the monad laws; [bounded n p], the program
      ends within [n] external calls and log lines whatever the answers,
      with its rules for [bind] and [catch].
    - [Weather]: the [WeatherData] record, [FetchWeather] with its URL
      construction, its property reads, [parseFloat]s and its degraded
      result; the interface [WeatherSource] the pipeline relies on.
    - [Types]: the TypeScript interfaces the code declares (lines 26-40,
      59-62, 96-100) as a small structural type language [ty] and the
      check [has_type] of a value against one; TypeScript erases them,
      so they are properties to prove, not facts.
    - [JsonRead]: a reader for the JSON objects [JSON.stringify] writes
      (members whose values are strings, numbers or [null], any white
      space), with fuel the length of the text, and [view_members], the
      members [JSON.parse] gives back.  The reader is not code of the
      program: it is the reference the weather message is measured
      against.
    - [JsonParse]: a reader for the whole grammar [JSON.stringify]
      writes (nested arrays and objects, booleans, [null], numbers,
      strings), [read_json], on fuel, and [view], the value
      [JSON.parse] returns for the text; a reference as well.
    - [Agent]: the chat steps, [WeatherAgent], the provider context,
      [processWeatherQuery]; the abstract contract of the pipeline and
      the refinement theorem.
    - [Concurrency]: a small-step semantics [pstep] of [prog] (one
      external call and its answer per step), proved equivalent to
      [exec]; the run table of a process ([pool_step], [reach]): runs
      are started, advanced one step at a time in any order, and
      retired, with its invariant [pool_inv]; an executable scheduler
      step [sched_step] that is sound for [pool_step].
    - [Frontend]: the environment and [startup] (key check, [MODE ||
      'console'], mode choice); the console session [startConsoleMode]
      / [console_loop] over the lines answered at the prompts; the
      Telegram bot [bot_reach]: [on_message] for the [onText] and
      ['message'] handlers, handler runs kept in the run table of
      [Concurrency], [on_settled] for the reply; an executable bot
      [bot_sched].
    - [Console]: the console on readline's real input stream: lines and
      the end of the input arrive at any time, also while a run is in
      flight; the state [cstate] (a question pending, [processQuery]
      awaiting its run with readline open or closed, the process
      exited), the two halves of [processQuery] around its [await]
      ([processQuery_start], [processQuery_resume]), readline's
      [question] ([rl_question], which throws [ERR_USE_AFTER_CLOSE] on
      a closed interface) and the step relation [console_step].

    ** What the theorems show (by group)

    The pipeline ([Agent], [Weather]): the runner always returns one of
    three kinds of string and never raises (C1); every run refines the
    abstract contract [pipeline_spec] of spec 4.4: extraction, then one
    GET of the URL of the extracted location and one generation call on
    the object [FetchWeather] builds, the answer fixed in each case
    (C2); the generation call carries the weather object as JSON text
    that reads back, with the reference reader of [JsonRead], as the
    object's members (C3); [FetchWeather] makes one GET and returns the
    read object, or the degraded object with one log line (C6); an
    empty extraction short-circuits (C7); model failures become the
    apology (C8); only a failed chat call escapes the workflow (C9);
    weather failures are absorbed (C10); every chat call carries the
    provider's key (C11).  A run ends within seven small steps whatever
    the world answers (C26).

    The front ends ([Frontend], [Console]): everything the bot sends is
    the greeting or the answer of a complete run on a received message,
    in that message's chat, however the runs interleave (C4); the
    console answers the lines typed before the first ["exit"] one at a
    time and in order, then exits with code 0 (C5); when the input ends
    while a run is in flight, the console prints the answer and dies of
    an unhandled [ERR_USE_AFTER_CLOSE] with exit code 1 (C12, a
    finding), and that is its only unhandled rejection (C13);
    [console_loop] is the readline model when every line is typed at a
    prompt (C14); in a world that answers every call, every message in
    flight can be brought to its reply (C15); one send per greeted text
    and per settled run (C16); every answer follows a "typing" action
    in its chat (C17); the replies of one chat can be sent in the
    opposite order to the questions (C20, a finding); start-up goes on
    exactly with a non-empty key and picks the bot exactly for [MODE =
    "telegram"] with a token (C25); the exit test and the [/start]
    test are characterised exactly (C27, C28).

    Findings about data ([Types], [Weather], [Agent], [Frontend]): the
    fetch's result has its declared type [WeatherData] exactly when the
    GET failed, a read threw, or the answer holds strings at the area
    name and the description and a string or nothing at the observation
    time (C18); an answer whose entries lack the [value] fields is not
    degraded and gives an [undefined] location and description (C19);
    the extracted location is not trimmed (C21); ["/start"] anywhere
    in a text greets and runs the pipeline (C22); a message without text
    runs the pipeline on the empty query (C23); an empty generation
    gives an empty answer (C24).

    The runtime files ([JsString], [JsNumber], [JsValue], [Json],
    [JsonRead], [JsonParse]) also prove their models against the
    definitions they follow: [decodeURIComponent] inverts
    [encodeURIComponent], [parseFloat] reads back [Number::toString],
    JSON string quoting reads back, [JSON.parse] of [stringify2] is
    [view], and the keys read as array indices are ECMA-262's.  These
    are facts of the runtime model, not of the program, and are used as
    lemmas.

    ** Choices and limits

    Strings are Rocq [string]s of 8-bit characters, holding UTF-8 bytes
    (the emoji of the messages are written as their bytes); JavaScript
    strings are UTF-16, so the model is exact on ASCII text and the case
    mapping of [toLowerCase] is the ASCII one, which decides the
    ["exit"] test exactly.  Numbers are exact decimals:
    binary64 rounding, overflow to [Infinity] and the sign of zero are
    not modelled; the model agrees with binary64 on decimal strings of
    at most 15 significant digits in the normal range, which covers the
    small integers wttr.in sends.  Programs terminate (each run makes at
    most three external calls and four log lines, hence the bound of
    seven steps), so [prog] is an inductive free monad and needs no
    fuel; the only fuel is that of the JSON readers [read_members] and
    [read_json], one more than the length of the text, which is enough
    because every value and every member takes at least one of its
    characters; a hung external call is a world with no answer and is
    outside the model.  The chat-completion component, the provider
    context and the workflow runner belong to the gensx library and are
    modelled from the spec (marked spec_modelled in the manifest); the
    HTTP client, dotenv, readline and the Telegram library are modelled
    at the interface the code uses: the environment is taken after
    [dotenv.config()]; readline delivers lines and the end of the input
    ([Console]), drops a line when no question is pending and closes at
    the end of the input; a Telegram update is a chat id and an
    optional text.  In the program every run uses the one
    [OPENAI_API_KEY].  Witnesses evaluate the definitions with
    [vm_compute] on fixed worlds ([scenario] in [Agent]) and fixed
    schedules.

    ** Not modelled

    - The import lines (1-6) and [dotenv.config()] (line 9): the
      environment is taken as it is after [.env] has been read.
    - Binary64 arithmetic: rounding, overflow to [Infinity], the sign of
      zero; numbers are exact decimals (see above).
    - UTF-16 strings: text is modelled as bytes, exact on ASCII.
    - Rejections of [sendMessage] and [sendChatAction] (lines 187, 201,
      207): the bot's traces are those in which Telegram accepts every
      call.  The code neither awaits nor catches these promises, so a
      rejected call (a chat that blocked the bot, a message over
      Telegram's length limit, a network error) is an unhandled
      rejection that ends the process; this is recorded as a finding,
      and no theorem of the development says the bot survives it.
    - The internals of the libraries the code only calls: the HTTP
      client beyond one GET and its answer, the Telegram polling loop
      beyond the messages it delivers, and the model behind the chat
      completions (any answer the world gives).
    - Time: a hung call or a timeout is outside the model, as the spec
      allows. *)

From Stdlib Require Import String Ascii List ZArith Lia Bool.
Import ListNotations.
Open Scope string_scope.

(** ** JavaScript exceptions and results *)

(** The exceptions the program can see: the [TypeError] of a property
    read on [undefined] or [null], an [Error] built by [new Error(msg)],
    and the rejection of an external call (chat model, HTTP). *)
Inductive exn : Type :=
| TypeError (msg : string)
| Error (msg : string)
| ExternalError (source : string) (msg : string).

(** A computation of the runtime that returns a value or throws. *)
Inductive res (A : Type) : Type :=
| Ok (a : A)
| Err (e : exn).
Arguments Ok {A} a.
Arguments Err {A} e.

Definition res_bind {A B : Type} (r : res A) (f : A -> res B) : res B :=
  match r with
  | Ok a => f a
  | Err e => Err e
  end.

Definition res_map {A B : Type} (f : A -> B) (r : res A) : res B :=
  res_bind r (fun a => Ok (f a)).

Definition is_ok {A : Type} (r : res A) : bool :=
  match r with Ok _ => true | Err _ => false end.

Declare Scope js_scope.
Delimit Scope js_scope with js.
Notation "x <-? c ;; k" := (res_bind c (fun x => k))
  (at level 61, c at next level, right associativity) : js_scope.
Open Scope js_scope.

Create HintDb js.
Create Rewrite HintDb js_rw.

Lemma res_bind_ok {A B : Type} (a : A) (f : A -> res B) :
  res_bind (Ok a) f = f a.
Proof. reflexivity. Qed.

Lemma res_bind_err {A B : Type} (e : exn) (f : A -> res B) :
  res_bind (Err e) f = Err e.
Proof. reflexivity. Qed.

Lemma res_bind_inv {A B : Type} (r : res A) (f : A -> res B) (b : B) :
  res_bind r f = Ok b -> exists a, r = Ok a /\ f a = Ok b.
Proof. destruct r; simpl; [eauto | discriminate]. Qed.

#[export] Hint Rewrite @res_bind_ok @res_bind_err : js_rw.

(** ** Strings *)

Lemma str_app_assoc (a b c : string) : (a ++ b) ++ c = a ++ (b ++ c).
Proof. induction a as [|x a IH]; simpl; [reflexivity | now rewrite IH]. Qed.

Lemma str_app_nil_r (a : string) : a ++ "" = a.
Proof. induction a as [|x a IH]; simpl; [reflexivity | now rewrite IH]. Qed.

Lemma str_length_app (a b : string) :
  String.length (a ++ b) = String.length a + String.length b.
Proof. induction a as [|x a IH]; simpl; [reflexivity | now rewrite IH]. Qed.

Lemma str_app_cons (c : ascii) (a b : string) :
  String c a ++ b = String c (a ++ b).
Proof. reflexivity. Qed.

#[export] Hint Rewrite str_app_assoc str_app_nil_r str_app_cons : js_rw.

Lemma str_app_inv_l (a b c : string) : a ++ b = a ++ c -> b = c.
Proof. induction a as [|x a IH]; simpl; [auto | intros H; injection H; auto]. Qed.

Lemma str_app_inv_r (a b s : string) : a ++ s = b ++ s -> a = b.
Proof.
  revert b; induction a as [|x a IH]; intros [|y b] H; simpl in H; auto.
  - apply (f_equal String.length) in H; simpl in H; rewrite str_length_app in H; lia.
  - apply (f_equal String.length) in H; simpl in H; rewrite str_length_app in H; lia.
  - injection H as -> H; f_equal; auto.
Qed.

(** Concatenation of a list of strings with a separator. *)
Fixpoint str_join (sep : string) (l : list string) : string :=
  match l with
  | [] => ""
  | [x] => x
  | x :: l' => x ++ sep ++ str_join sep l'
  end.

(** [inv H] inverts [H] and cleans up. *)
Ltac inv H := inversion H; subst; clear H.

(** Case analysis on string equality tests left in the goal. *)
Ltac case_streq :=
  match goal with
  | |- context [String.eqb ?a ?b] =>
      destruct (String.eqb_spec a b); subst
  end.

(** The first [n] characters of a string and the rest. *)
Fixpoint str_take (n : nat) (s : string) : string :=
  match n, s with
  | O, _ => EmptyString
  | S _, EmptyString => EmptyString
  | S n', String c s' => String c (str_take n' s')
  end.

Fixpoint str_drop (n : nat) (s : string) : string :=
  match n, s with
  | O, _ => s
  | S _, EmptyString => EmptyString
  | S n', String _ s' => str_drop n' s'
  end.

Lemma str_take_drop (n : nat) (s : string) : str_take n s ++ str_drop n s = s.
Proof.
  revert s; induction n as [|n IH]; intros [|c s]; simpl; try reflexivity.
  now rewrite IH.
Qed.

(** [n] copies of a character. *)
Fixpoint str_repeat (n : nat) (c : ascii) : string :=
  match n with
  | O => EmptyString
  | S n' => String c (str_repeat n' c)
  end.

Lemma str_length_repeat (n : nat) (c : ascii) : String.length (str_repeat n c) = n.
Proof. induction n; simpl; congruence. Qed.

(** How an exception shows in a log line ([String(err)]). *)
Definition show_exn (e : exn) : string :=
  match e with
  | TypeError m => "TypeError: " ++ m
  | Error m => "Error: " ++ m
  | ExternalError src m => src ++ ": " ++ m
  end.

Lemma str_length_take (n : nat) (s : string) :
  String.length (str_take n s) = Nat.min n (String.length s).
Proof. revert s; induction n as [|n IH]; intros [|c s]; simpl; auto. Qed.

Lemma str_length_drop (n : nat) (s : string) :
  String.length (str_drop n s) = String.length s - n.
Proof. revert s; induction n as [|n IH]; intros [|c s]; simpl; auto. Qed.

(** ** Lists *)

Lemma flat_map_ext_in {A B : Type} (f g : A -> list B) (l : list A) :
  (forall a, In a l -> f a = g a) -> flat_map f l = flat_map g l.
Proof.
  induction l as [|a l IH]; intros H; simpl; [reflexivity |].
  rewrite H by (left; reflexivity); f_equal; apply IH; intros b Hb; apply H; right; exact Hb.
Qed.

Lemma str_join_length (sep : string) (l : list string) :
  Forall (fun x => x <> EmptyString) l -> List.length l <= String.length (str_join sep l).
Proof.
  induction 1 as [|x l Hx _ IH]; [simpl; lia |].
  destruct x as [|c x]; [congruence |].
  destruct l as [|y l]; simpl; [lia |].
  rewrite !str_length_app in *; simpl in IH |- *; lia.
Qed.

Lemma NoDup_snoc {A : Type} (l : list A) (x : A) : NoDup l -> ~ In x l -> NoDup (l ++ [x]).
Proof.
  induction 1 as [|y l Hy Hd IH]; intros Hx; simpl; [repeat constructor; intros [] |].
  constructor; [| apply IH; intros H; apply Hx; right; exact H].
  intros [H|[H|[]]]%in_app_or; [contradiction | apply Hx; left; symmetry; exact H].
Qed.

Lemma str_join_in_length (sep x : string) (l : list string) :
  In x l -> String.length x <= String.length (str_join sep l).
Proof.
  induction l as [|y l IH]; intros Hin; [destruct Hin |].
  destruct Hin as [<-|Hin]; destruct l as [|z l]; simpl; rewrite ?str_length_app.
  - lia.
  - lia.
  - destruct Hin.
  - specialize (IH Hin); simpl in IH; rewrite ?str_length_app in IH; lia.
Qed.
