(* ===== verification/JsString.v ===== *)
(** * JsString: the string built-ins the program calls

    Strings are byte strings holding the UTF-8 encoding of the JavaScript
    string.  This file models [String.prototype.toLowerCase] (ASCII case
    mapping), [startsWith], the test of the regular expression
    [/\/start/] (a substring search), the white space of ECMA-262's
    StrWhiteSpaceChar that is ASCII, decimal digits, and
    [encodeURIComponent] with its inverse [decodeURIComponent]. *)

From Stdlib Require Import String Ascii List ZArith Lia Bool.
From S2P Require Import Prelude.
Import ListNotations.
Open Scope string_scope.
Open Scope js_scope.

(** ** Characters *)

Definition code (c : ascii) : nat := nat_of_ascii c.

(** StrWhiteSpaceChar restricted to ASCII: TAB, LF, VT, FF, CR, SP. *)
Definition is_ws (c : ascii) : bool :=
  let n := code c in
  (Nat.eqb n 9 || Nat.eqb n 10 || Nat.eqb n 11 || Nat.eqb n 12
   || Nat.eqb n 13 || Nat.eqb n 32)%bool.

Definition is_digit (c : ascii) : bool :=
  (Nat.leb 48 (code c) && Nat.leb (code c) 57)%bool.

Definition digit_val (c : ascii) : nat := code c - 48.

Definition digit_char (d : nat) : ascii := ascii_of_nat (48 + d).

Definition is_upper (c : ascii) : bool :=
  (Nat.leb 65 (code c) && Nat.leb (code c) 90)%bool.

Definition is_lower (c : ascii) : bool :=
  (Nat.leb 97 (code c) && Nat.leb (code c) 122)%bool.

Definition lower_char (c : ascii) : ascii :=
  if is_upper c then ascii_of_nat (code c + 32) else c.

(** ** [s.toLowerCase()] on ASCII text *)

Fixpoint to_lower (s : string) : string :=
  match s with
  | EmptyString => EmptyString
  | String c s' => String (lower_char c) (to_lower s')
  end.

(** ** [s.startsWith(p)] and the test of a regular expression that is a
    literal [/lit/] (true when [lit] occurs somewhere in [s]) *)

Definition starts_with (s p : string) : bool := String.prefix p s.

Fixpoint includes (s lit : string) : bool :=
  match s with
  | EmptyString => String.prefix lit s
  | String _ s' => (String.prefix lit s || includes s' lit)%bool
  end.

(** ** Leading white space, as removed by [parseFloat] *)

Fixpoint trim_start (s : string) : string :=
  match s with
  | String c s' => if is_ws c then trim_start s' else s
  | EmptyString => EmptyString
  end.

(** ** [encodeURIComponent]

    The characters left alone are the URI unreserved marks of ECMA-262
    (letters, digits and [- _ . ! ~ * ' ( )]); every other byte of the
    UTF-8 encoding is written [%XY] with upper-case hexadecimal digits. *)

Definition is_uri_mark (c : ascii) : bool :=
  match c with
  | "-"%char | "_"%char | "."%char | "!"%char | "~"%char | "*"%char
  | "'"%char | "("%char | ")"%char => true
  | _ => false
  end.

Definition uri_unreserved (c : ascii) : bool :=
  (is_upper c || is_lower c || is_digit c || is_uri_mark c)%bool.

Definition hex_char (d : nat) : ascii :=
  if Nat.ltb d 10 then ascii_of_nat (48 + d) else ascii_of_nat (55 + d).

Definition percent_encode (c : ascii) : string :=
  String "%" (String (hex_char (code c / 16)) (String (hex_char (code c mod 16)) "")).

Fixpoint encodeURIComponent (s : string) : string :=
  match s with
  | EmptyString => EmptyString
  | String c s' =>
      (if uri_unreserved c then String c "" else percent_encode c)
        ++ encodeURIComponent s'
  end.

(** [decodeURIComponent]: the inverse, [None] for a malformed escape
    (where JavaScript throws a [URIError]). *)
Definition hex_val (c : ascii) : option nat :=
  let n := code c in
  if (Nat.leb 48 n && Nat.leb n 57)%bool then Some (n - 48)
  else if (Nat.leb 65 n && Nat.leb n 70)%bool then Some (n - 55)
  else if (Nat.leb 97 n && Nat.leb n 102)%bool then Some (n - 87)
  else None.

Fixpoint decodeURIComponent (s : string) : option string :=
  match s with
  | EmptyString => Some EmptyString
  | String c s' =>
      if Ascii.eqb c "%" then
        match s' with
        | String h (String l s'') =>
            match hex_val h, hex_val l, decodeURIComponent s'' with
            | Some a, Some b, Some r => Some (String (ascii_of_nat (16 * a + b)) r)
            | _, _, _ => None
            end
        | _ => None
        end
      else
        match decodeURIComponent s' with
        | Some r => Some (String c r)
        | None => None
        end
  end.

(** The characters that may appear in the output of [encodeURIComponent]. *)
Definition uri_safe (c : ascii) : bool :=
  (uri_unreserved c || Ascii.eqb c "%")%bool.

Fixpoint all_chars (p : ascii -> bool) (s : string) : bool :=
  match s with
  | EmptyString => true
  | String c s' => (p c && all_chars p s')%bool
  end.

(** ** [encodeURIComponent] loses nothing and escapes every reserved
    character *)

Lemma code_lt_256 (c : ascii) : code c < 256.
Proof. apply Ascii.nat_ascii_bounded. Qed.

Lemma hex_val_hex_char (d : nat) : d < 16 -> hex_val (hex_char d) = Some d.
Proof. intros H; do 16 (destruct d as [|d]; [reflexivity|]); lia. Qed.

Lemma decode_percent (c : ascii) (s : string) :
  decodeURIComponent (percent_encode c ++ s) =
  option_map (String c) (decodeURIComponent s).
Proof.
  pose proof (code_lt_256 c) as Hc; unfold percent_encode, code in *.
  cbn [append decodeURIComponent Ascii.eqb Bool.eqb andb].
  rewrite !hex_val_hex_char by (try apply Nat.mod_upper_bound; try apply Nat.Div0.div_lt_upper_bound; lia).
  destruct (decodeURIComponent s); cbn [option_map]; [|reflexivity].
  rewrite <- Nat.div_mod_eq, ascii_nat_embedding; reflexivity.
Qed.

Lemma unreserved_not_percent (c : ascii) : uri_unreserved c = true -> Ascii.eqb c "%" = false.
Proof. destruct (Ascii.eqb_spec c "%"); [subst; discriminate | reflexivity]. Qed.

(** Decoding reads back the code of one character. *)
Lemma decode_encode_cons (c : ascii) (s : string) :
  decodeURIComponent (encodeURIComponent (String c s)) =
  option_map (String c) (decodeURIComponent (encodeURIComponent s)).
Proof.
  simpl; destruct (uri_unreserved c) eqn:Hu.
  - simpl; rewrite (unreserved_not_percent c Hu); reflexivity.
  - rewrite decode_percent; reflexivity.
Qed.

(** [decodeURIComponent] inverts [encodeURIComponent]. *)
Theorem decode_encodeURIComponent (s : string) :
  decodeURIComponent (encodeURIComponent s) = Some s.
Proof.
  induction s as [|c s IH]; [reflexivity |]; rewrite decode_encode_cons, IH; reflexivity.
Qed.

Lemma encodeURIComponent_inj (s1 s2 : string) :
  encodeURIComponent s1 = encodeURIComponent s2 -> s1 = s2.
Proof.
  assert (R : forall s, decodeURIComponent (encodeURIComponent s) = Some s)
    by (induction s as [|c s IH]; [reflexivity |]; rewrite decode_encode_cons, IH; reflexivity).
  intros H; apply (f_equal decodeURIComponent) in H; rewrite !R in H; congruence.
Qed.

Lemma all_chars_app (p : ascii -> bool) (a b : string) :
  all_chars p (a ++ b) = (all_chars p a && all_chars p b)%bool.
Proof. induction a as [|c a IH]; simpl; [reflexivity | rewrite IH, andb_assoc; reflexivity]. Qed.

Lemma hex_char_safe (d : nat) : d < 16 -> uri_safe (hex_char d) = true.
Proof. intros H; do 16 (destruct d as [|d]; [reflexivity|]); lia. Qed.

(** Every character [encodeURIComponent] writes is unreserved or ['%']. *)
Lemma encodeURIComponent_safe (s : string) : all_chars uri_safe (encodeURIComponent s) = true.
Proof.
  induction s as [|c s IH]; [reflexivity |]; cbn [encodeURIComponent].
  rewrite all_chars_app, IH, andb_true_r.
  destruct (uri_unreserved c) eqn:Hu.
  - cbn [all_chars]; unfold uri_safe; rewrite Hu; reflexivity.
  - pose proof (code_lt_256 c); unfold percent_encode, code in *; cbn [all_chars].
    rewrite !hex_char_safe by (try apply Nat.mod_upper_bound; try apply Nat.Div0.div_lt_upper_bound; lia).
    reflexivity.
Qed.

(** ** The literal tests against their definitions *)

Lemma prefix_spec (p s : string) : String.prefix p s = true <-> exists b, s = (p ++ b)%string.
Proof.
  revert s; induction p as [|c p IH]; intros [|c' s]; cbn [String.prefix append].
  - split; eauto.
  - split; eauto.
  - split; [discriminate | intros [b Hb]; discriminate].
  - destruct (ascii_dec c c') as [<-|Hne]; [rewrite IH |].
    + split; intros [b Hb]; exists b; [rewrite Hb | injection Hb]; auto.
    + split; [discriminate | intros [b [= Hc _]]; congruence].
Qed.

(** [includes s lit] (a literal regular expression [/lit/] tested on
    [s]) holds exactly when [lit] occurs in [s]. *)
Lemma includes_spec (s lit : string) :
  includes s lit = true <-> exists a b, s = (a ++ lit ++ b)%string.
Proof.
  induction s as [|c s IH]; cbn [includes].
  - rewrite prefix_spec; split; [intros [b Hb]; exists EmptyString, b; exact Hb |].
    intros [[|c a] [b H]]; [exists b; exact H | discriminate].
  - rewrite orb_true_iff, prefix_spec, IH; split.
    + intros [[b Hb]|[a [b Hb]]]; [exists EmptyString, b; exact Hb |].
      exists (String c a), b; rewrite Hb; reflexivity.
    + intros [[|c' a] [b H]]; [left; exists b; exact H |].
      right; injection H as <- ->; eauto.
Qed.

(** The upper-case letter of a lower-case one. *)
Definition upper_char (c : ascii) : ascii := ascii_of_nat (code c - 32).

(** The spellings of a word of lower-case letters in any letter case. *)
Fixpoint case_variants (t : string) : list string :=
  match t with
  | EmptyString => [EmptyString]
  | String l t' => flat_map (fun c => map (String c) (case_variants t')) [l; upper_char l]
  end.

Lemma lower_char_spec (c l : ascii) :
  is_lower l = true -> lower_char c = l <-> c = l \/ c = upper_char l.
Proof.
  unfold lower_char, upper_char, is_lower, is_upper, code; intros Hl.
  apply andb_true_iff in Hl as [Hl1 Hl2]; apply Nat.leb_le in Hl1, Hl2.
  pose proof (nat_ascii_bounded c) as Hc.
  split.
  - destruct (Nat.leb 65 (nat_of_ascii c) && Nat.leb (nat_of_ascii c) 90)%bool eqn:Hu;
      intros Heq; [right | left; exact Heq].
    apply andb_true_iff in Hu as [Hu1 Hu2]; apply Nat.leb_le in Hu1, Hu2.
    apply (f_equal nat_of_ascii) in Heq; rewrite nat_ascii_embedding in Heq by lia.
    rewrite <- Heq, Nat.add_sub, ascii_nat_embedding; reflexivity.
  - intros [->| ->].
    + destruct (Nat.leb_spec 65 (nat_of_ascii l)); [|reflexivity].
      destruct (Nat.leb_spec (nat_of_ascii l) 90); [lia | reflexivity].
    + rewrite nat_ascii_embedding by lia.
      destruct (Nat.leb_spec 65 (nat_of_ascii l - 32)); [|lia].
      destruct (Nat.leb_spec (nat_of_ascii l - 32) 90); [|lia]; cbn [andb].
      rewrite Nat.sub_add, ascii_nat_embedding by lia; reflexivity.
Qed.

(** [toLowerCase] gives a word of lower-case letters exactly on its
    spellings in any letter case. *)
Lemma to_lower_variants (t q : string) :
  all_chars is_lower t = true -> to_lower q = t <-> In q (case_variants t).
Proof.
  revert q; induction t as [|l t IH]; intros q Ht.
  - destruct q as [|c q]; simpl; split; intros H; auto; [discriminate | destruct H as [[=]|[]]].
  - simpl in Ht; apply andb_true_iff in Ht as [Hl Ht].
    cbn [case_variants]; rewrite in_flat_map.
    destruct q as [|c q]; cbn [to_lower].
    + split; [discriminate |].
      intros (c' & _ & (x & [=] & _)%in_map_iff).
    + split.
      * intros [= Hc Hq]; apply (lower_char_spec c l Hl) in Hc.
        exists c; split; [simpl; intuition | apply in_map, IH; auto].
      * intros (c' & Hc' & (x & [= <- <-] & Hx)%in_map_iff).
        f_equal; [apply lower_char_spec; [exact Hl |]; simpl in Hc'; intuition |].
        apply IH; auto.
Qed.

(** Each character is written as itself or as three characters. *)
Lemma encodeURIComponent_length (s : string) :
  String.length s <= String.length (encodeURIComponent s) <= 3 * String.length s.
Proof.
  induction s as [|c s IH]; cbn [encodeURIComponent String.length]; [lia |].
  rewrite str_length_app; destruct (uri_unreserved c); cbn; lia.
Qed.
