(* ===== verification/JsNumber.v ===== *)
(** * JsNumber: JavaScript numbers, [parseFloat] and [Number::toString]

    A number is [NaN], one of the two infinities, or a finite value
    [Fin m e] standing for m * 10^e.  Finite values are kept normal: the
    mantissa has no trailing zero, and zero is [Fin 0 0].  [parseFloat]
    follows ECMA-262 (section "parseFloat (string)"): leading white space
    is skipped, and the longest prefix that is a StrDecimalLiteral is
    read; [NaN] when there is none.  [to_string] follows Number::toString
    with radix 10.  The value is the exact decimal read (see the header of
    Prelude for what this leaves out). *)

From Stdlib Require Import String Ascii List ZArith Lia Bool.
From S2P Require Import Prelude JsString.
Import ListNotations.
Open Scope string_scope.
Open Scope js_scope.
Local Open Scope Z_scope.

Inductive number : Type :=
| NaN
| PosInf
| NegInf
| Fin (m : Z) (e : Z).

(** ** Normal finite values *)

Definition normal_fin (m e : Z) : Prop :=
  (m = 0 /\ e = 0) \/ (m mod 10 <> 0).

Definition normal (x : number) : Prop :=
  match x with
  | Fin m e => normal_fin m e
  | _ => True
  end.

(** Removing trailing zeros of a non-zero mantissa. *)
Fixpoint strip_zeros (fuel : nat) (m e : Z) : Z * Z :=
  match fuel with
  | O => (m, e)
  | S f =>
      if Z.eqb (m mod 10) 0 then strip_zeros f (m / 10) (e + 1) else (m, e)
  end.

(** The value m * 10^e as a normal number; the fuel is the bit size of
    |m|, which bounds the number of decimal digits. *)
Definition mk_fin (m e : Z) : number :=
  if Z.eqb m 0 then Fin 0 0
  else let '(m', e') := strip_zeros (Pos.size_nat (Z.to_pos (Z.abs m))) m e in
       Fin m' e'.

(** ** Decimal digits *)

(** The value of a string of digits, read from the left onto [acc]. *)
Fixpoint digits_value (acc : Z) (d : string) : Z :=
  match d with
  | EmptyString => acc
  | String c d' => digits_value (acc * 10 + Z.of_nat (digit_val c)) d'
  end.

(** The longest prefix of digits and the rest. *)
Fixpoint scan_digits (s : string) : string * string :=
  match s with
  | String c s' =>
      if is_digit c then let '(d, r) := scan_digits s' in (String c d, r)
      else (EmptyString, s)
  | EmptyString => (EmptyString, EmptyString)
  end.

(** The decimal digits of a non-negative integer, most significant first. *)
Fixpoint digits_aux (fuel : nat) (n : Z) (acc : string) : string :=
  match fuel with
  | O => acc
  | S f =>
      let acc' := String (digit_char (Z.to_nat (n mod 10))) acc in
      if Z.ltb n 10 then acc' else digits_aux f (n / 10) acc'
  end.

Definition Z_digits (n : Z) : string :=
  digits_aux (S (Pos.size_nat (Z.to_pos n))) n "".

(** ** parseFloat *)

(** An optional sign. *)
Definition scan_sign (s : string) : Z * string :=
  match s with
  | String c s' =>
      if Ascii.eqb c "+" then (1, s')
      else if Ascii.eqb c "-" then (-1, s')
      else (1, s)
  | EmptyString => (1, s)
  end.

(** An ExponentPart if one starts here ([e] or [E], a sign, at least one
    digit); 0 when none does, and the prefix then stops before the [e]. *)
Definition scan_exponent (s : string) : Z :=
  match s with
  | String c s' =>
      if (Ascii.eqb c "e" || Ascii.eqb c "E")%bool then
        let '(sg, r) := scan_sign s' in
        let '(d, _) := scan_digits r in
        match d with
        | EmptyString => 0
        | _ => sg * digits_value 0 d
        end
      else 0
  | EmptyString => 0
  end.

(** StrUnsignedDecimalLiteral: [Infinity], or digits with an optional
    fraction (at least one digit in all) and an optional exponent. *)
Definition scan_unsigned (sg : Z) (s : string) : number :=
  if String.prefix "Infinity" s then (if Z.ltb sg 0 then NegInf else PosInf)
  else
    let '(ip, r1) := scan_digits s in
    let '(fp, r2) :=
      match r1 with
      | String c r => if Ascii.eqb c "." then scan_digits r else (EmptyString, r1)
      | EmptyString => (EmptyString, r1)
      end in
    match ip, fp with
    | EmptyString, EmptyString => NaN
    | _, _ =>
        mk_fin (sg * digits_value 0 (ip ++ fp))
               (scan_exponent r2 - Z.of_nat (String.length fp))
    end.

Definition parseFloat_str (s : string) : number :=
  let '(sg, r) := scan_sign (trim_start s) in
  scan_unsigned sg r.

(** ** Number::toString (radix 10) *)

(** The digits [s] of a positive normal value s * 10^(n-k), k digits. *)
Definition fin_to_string (s : Z) (e : Z) : string :=
  let ds := Z_digits s in
  let k := Z.of_nat (String.length ds) in
  let n := e + k in
  if (Z.leb k n && Z.leb n 21)%bool then
    ds ++ str_repeat (Z.to_nat (n - k)) "0"
  else if (Z.ltb 0 n && Z.leb n 21)%bool then
    str_take (Z.to_nat n) ds ++ "." ++ str_drop (Z.to_nat n) ds
  else if (Z.ltb (-6) n && Z.leb n 0)%bool then
    "0." ++ str_repeat (Z.to_nat (- n)) "0" ++ ds
  else
    let ex := n - 1 in
    let mant := if Z.eqb k 1 then ds else str_take 1 ds ++ "." ++ str_drop 1 ds in
    mant ++ "e" ++ (if Z.leb 0 ex then "+" else "-") ++ Z_digits (Z.abs ex).

Definition to_string (x : number) : string :=
  match x with
  | NaN => "NaN"
  | PosInf => "Infinity"
  | NegInf => "-Infinity"
  | Fin m e =>
      match mk_fin m e with
      | Fin m' e' =>
          if Z.eqb m' 0 then "0"
          else if Z.ltb m' 0 then "-" ++ fin_to_string (- m') e'
          else fin_to_string m' e'
      | _ => "NaN"
      end
  end.

(** Truthiness of a number: [NaN] and zero are falsy. *)
Definition num_truthy (x : number) : bool :=
  match x with
  | NaN => false
  | Fin m _ => negb (Z.eqb m 0)
  | _ => true
  end.

Definition is_finite (x : number) : bool :=
  match x with Fin _ _ => true | _ => false end.

(** ** Digit strings *)

Lemma digits_value_app (acc : Z) (a b : string) :
  digits_value acc (a ++ b) = digits_value (digits_value acc a) b.
Proof. revert acc; induction a as [|c a IH]; intros acc; simpl; auto. Qed.

Lemma digits_value_zeros (acc : Z) (n : nat) :
  digits_value acc (str_repeat n "0") = acc * 10 ^ Z.of_nat n.
Proof.
  revert acc; induction n as [|n IH]; intros acc; simpl str_repeat; cbn [digits_value].
  - lia.
  - rewrite IH; change (Z.of_nat (digit_val "0")) with 0%Z.
    rewrite Nat2Z.inj_succ, Z.pow_succ_r by lia; lia.
Qed.

Lemma all_digits_zeros (n : nat) : all_chars is_digit (str_repeat n "0") = true.
Proof. induction n; simpl; auto. Qed.

Lemma digit_not_ws (c : ascii) : is_digit c = true -> is_ws c = false.
Proof.
  unfold is_digit, is_ws; intros H; apply andb_true_iff in H as [H1 H2].
  apply Nat.leb_le in H1; apply Nat.leb_le in H2.
  repeat rewrite (proj2 (Nat.eqb_neq _ _)) by lia; reflexivity.
Qed.

Lemma digit_neq (c c' : ascii) : is_digit c = true -> is_digit c' = false -> Ascii.eqb c c' = false.
Proof. intros H H'; destruct (Ascii.eqb_spec c c'); [subst; congruence | reflexivity]. Qed.

Lemma scan_digits_app (d r : string) :
  all_chars is_digit d = true ->
  scan_digits (d ++ r) = (d ++ fst (scan_digits r), snd (scan_digits r)).
Proof.
  induction d as [|c d IH]; [intros _; simpl; destruct (scan_digits r); reflexivity |].
  simpl; intros H; apply andb_true_iff in H as [Hc Hd]; rewrite Hc, IH by assumption.
  reflexivity.
Qed.

Lemma scan_digits_stop (c : ascii) (r : string) :
  is_digit c = false -> scan_digits (String c r) = (EmptyString, String c r).
Proof. simpl; intros ->; reflexivity. Qed.

Lemma digit_char_spec (d : nat) :
  (d < 10)%nat -> is_digit (digit_char d) = true /\ digit_val (digit_char d) = d.
Proof. intros H; do 10 (destruct d as [|d]; [split; reflexivity |]); lia. Qed.

Lemma one_digit (n : Z) (acc : string) :
  0 <= n < 10 ->
  exists d, String (digit_char (Z.to_nat (n mod 10))) acc = d ++ acc /\ d <> EmptyString /\
            all_chars is_digit d = true /\ digits_value 0 d = n.
Proof.
  intros Hn; pose proof (Z.mod_pos_bound n 10).
  assert (Hd : (Z.to_nat (n mod 10) < 10)%nat) by (pose proof (Z.mod_pos_bound n 10); lia).
  destruct (digit_char_spec _ Hd) as [Hdig Hval].
  exists (String (digit_char (Z.to_nat (n mod 10))) EmptyString).
  split; [reflexivity |]; split; [discriminate |].
  cbn [all_chars digits_value]; rewrite Hdig, Hval, Z2Nat.id, Z.mod_small by lia.
  split; reflexivity.
Qed.

Lemma digits_aux_S (f : nat) (n : Z) (acc : string) :
  digits_aux (S f) n acc =
  if Z.ltb n 10 then String (digit_char (Z.to_nat (n mod 10))) acc
  else digits_aux f (n / 10) (String (digit_char (Z.to_nat (n mod 10))) acc).
Proof. reflexivity. Qed.

Lemma digits_aux_spec (f : nat) (n : Z) (acc : string) :
  0 <= n < 10 ^ Z.of_nat (S f) ->
  exists d, digits_aux (S f) n acc = d ++ acc /\ d <> EmptyString /\
            all_chars is_digit d = true /\ digits_value 0 d = n.
Proof.
  revert n acc; induction f as [|f IH]; intros n acc Hn;
    rewrite digits_aux_S; destruct (Z.ltb_spec n 10); try (apply one_digit; lia).
  - pose proof (Z.mod_pos_bound n 10).
    assert (Hm : (Z.to_nat (n mod 10) < 10)%nat) by lia.
    destruct (digit_char_spec _ Hm) as [Hdig Hval].
    destruct (IH (n / 10) (String (digit_char (Z.to_nat (n mod 10))) acc))
      as (d & E & Hne & Hd & Hv).
    + split; [apply Z.div_pos; lia |].
      apply Z.div_lt_upper_bound; [lia |].
      rewrite Nat2Z.inj_succ, Z.pow_succ_r in Hn by lia; exact (proj2 Hn).
    + exists (d ++ String (digit_char (Z.to_nat (n mod 10))) EmptyString).
      rewrite E, str_app_assoc; split; [reflexivity |]; split.
      * destruct d; [contradiction | discriminate].
      * rewrite all_chars_app, digits_value_app, Hd, Hv.
        cbn [all_chars digits_value]; rewrite Hdig, Hval, Z2Nat.id by lia.
        split; [reflexivity | pose proof (Z.div_mod n 10); lia].
Qed.

Lemma size_nat_bound (p : positive) : Z.pos p < 2 ^ Z.of_nat (Pos.size_nat p).
Proof.
  induction p as [p IH|p IH|]; cbn [Pos.size_nat]; rewrite ?Nat2Z.inj_succ, ?Z.pow_succ_r by lia;
    [rewrite Pos2Z.inj_xI | rewrite Pos2Z.inj_xO | reflexivity]; lia.
Qed.

Lemma pow2_le_pow10 (j : Z) : 0 <= j -> 2 ^ j <= 10 ^ j.
Proof. intros Hj; apply Z.pow_le_mono_l; lia. Qed.

(** The fuel of [Z_digits] covers every digit of [n]. *)
Lemma Z_digits_fuel (n : Z) : 0 <= n -> n < 10 ^ Z.of_nat (S (Pos.size_nat (Z.to_pos n))).
Proof.
  intros Hn; pose proof (size_nat_bound (Z.to_pos n)) as Hb.
  pose proof (pow2_le_pow10 (Z.of_nat (Pos.size_nat (Z.to_pos n))) ltac:(lia)).
  rewrite Nat2Z.inj_succ, Z.pow_succ_r by lia.
  destruct (Z.eq_dec n 0) as [->|Hnz]; [pose proof (Z.pow_pos_nonneg 10 (Z.of_nat (Pos.size_nat 1))); lia |].
  rewrite Z2Pos.id in Hb by lia; lia.
Qed.

(** [Z_digits n] is a non-empty string of digits whose value is [n]. *)
Lemma Z_digits_spec (n : Z) :
  0 <= n ->
  Z_digits n <> EmptyString /\ all_chars is_digit (Z_digits n) = true /\
  digits_value 0 (Z_digits n) = n.
Proof.
  intros Hn; unfold Z_digits.
  destruct (digits_aux_spec (Pos.size_nat (Z.to_pos n)) n EmptyString) as (d & E & H1 & H2 & H3);
    [split; [exact Hn | apply Z_digits_fuel, Hn] |].
  rewrite E, str_app_nil_r; auto.
Qed.

(** [digits_aux] writes no leading zero: a positive [n] is at least ten
    to the number of digits written, less one. *)
Lemma digits_aux_lead (f : nat) (n : Z) (acc : string) :
  0 < n < 10 ^ Z.of_nat (S f) ->
  10 ^ Z.of_nat (String.length (digits_aux (S f) n acc) - String.length acc - 1) <= n.
Proof.
  revert n acc; induction f as [|f IH]; intros n acc Hn; rewrite digits_aux_S;
    destruct (Z.ltb_spec n 10) as [Hl|Hl]; cbn [String.length].
  - replace (S (String.length acc) - String.length acc - 1)%nat with 0%nat by lia; cbn; lia.
  - cbn in Hn; lia.
  - replace (S (String.length acc) - String.length acc - 1)%nat with 0%nat by lia; cbn; lia.
  - set (acc' := String (digit_char (Z.to_nat (n mod 10))) acc).
    assert (Hq : 0 < n / 10 < 10 ^ Z.of_nat (S f)).
    { split; [apply Z.div_str_pos; lia | apply Z.div_lt_upper_bound; [lia |]].
      rewrite Nat2Z.inj_succ, Z.pow_succ_r in Hn by lia; lia. }
    specialize (IH (n / 10) acc' Hq).
    destruct (digits_aux_spec f (n / 10) acc' ltac:(lia)) as (d & E & Hne & _).
    rewrite E in *; unfold acc' in *; rewrite str_length_app in *; cbn [String.length] in *.
    destruct d as [|c d]; [contradiction |]; cbn [String.length] in *.
    replace (S (String.length d) + S (String.length acc) - S (String.length acc) - 1)%nat
      with (String.length d) in IH by lia.
    replace (S (String.length d) + S (String.length acc) - String.length acc - 1)%nat
      with (S (String.length d)) by lia.
    rewrite Nat2Z.inj_succ, Z.pow_succ_r by lia; pose proof (Z.mul_div_le n 10); lia.
Qed.

(** ** Normalisation *)

Lemma strip_zeros_shift (j f : nat) (m e : Z) :
  m mod 10 <> 0 -> (j < f)%nat ->
  strip_zeros f (m * 10 ^ Z.of_nat j) e = (m, e + Z.of_nat j).
Proof.
  revert f e; induction j as [|j IH]; intros f e Hm Hf; (destruct f as [|f]; [lia |]).
  - cbn [strip_zeros]; rewrite Z.pow_0_r, Z.mul_1_r, Z.add_0_r.
    destruct (Z.eqb_spec (m mod 10) 0); [contradiction | reflexivity].
  - cbn [strip_zeros]; rewrite Nat2Z.inj_succ, Z.pow_succ_r by lia.
    replace (m * (10 * 10 ^ Z.of_nat j)) with ((m * 10 ^ Z.of_nat j) * 10) by ring.
    rewrite Z.mod_mul, Z.eqb_refl, Z.div_mul by lia.
    rewrite IH by lia; f_equal; lia.
Qed.

(** [mk_fin] strips exactly the trailing zeros that were added. *)
Lemma mk_fin_shift (m e : Z) (j : nat) :
  m mod 10 <> 0 -> mk_fin (m * 10 ^ Z.of_nat j) e = Fin m (e + Z.of_nat j).
Proof.
  intros Hm; unfold mk_fin.
  assert (Hm0 : m <> 0) by (intros ->; apply Hm; reflexivity).
  assert (Hp : 0 < 10 ^ Z.of_nat j) by (apply Z.pow_pos_nonneg; lia).
  destruct (Z.eqb_spec (m * 10 ^ Z.of_nat j) 0) as [H0|_]; [nia |].
  rewrite strip_zeros_shift by (try assumption;
    pose proof (size_nat_bound (Z.to_pos (Z.abs (m * 10 ^ Z.of_nat j)))) as Hb;
    rewrite Z2Pos.id in Hb by lia;
    pose proof (pow2_le_pow10 (Z.of_nat j) ltac:(lia));
    assert (Habs : 10 ^ Z.of_nat j <= Z.abs (m * 10 ^ Z.of_nat j))
      by (rewrite Z.abs_mul, (Z.abs_eq (10 ^ _)) by lia; nia);
    apply Nat2Z.inj_lt; apply (Z.pow_lt_mono_r_iff 2); lia).
  reflexivity.
Qed.

Lemma mk_fin_normal (m e : Z) : m mod 10 <> 0 -> mk_fin m e = Fin m e.
Proof.
  intros Hm; pose proof (mk_fin_shift m e 0 Hm) as H.
  rewrite Z.pow_0_r, Z.mul_1_r, Z.add_0_r in H; exact H.
Qed.


(** Every non-zero integer is a non-multiple of ten times a power of ten. *)
Lemma trailing_zeros (m : Z) :
  m <> 0 -> exists m0 j, m0 mod 10 <> 0 /\ m = m0 * 10 ^ Z.of_nat j.
Proof.
  remember (Z.to_nat (Z.abs m)) as n eqn:En; revert m En.
  induction n as [n IH] using lt_wf_ind; intros m -> Hm.
  destruct (Z.eqb_spec (m mod 10) 0) as [H0|H0].
  - pose proof (Z_div_mod_eq_full m 10) as Hq; rewrite H0, Z.add_0_r in Hq.
    destruct (IH (Z.to_nat (Z.abs (m / 10))) ltac:(lia) (m / 10) eq_refl ltac:(lia))
      as (m0 & j & Hm0 & E).
    exists m0, (S j); split; [assumption |].
    rewrite Nat2Z.inj_succ, Z.pow_succ_r by lia; rewrite Hq, E; ring.
  - exists m, 0%nat; split; [assumption | cbn; ring].
Qed.

(** [mk_fin] always returns a number in normal form: its fuel, the bit
    size of |m|, is enough to strip every trailing zero. *)
Lemma mk_fin_normal_form (m e : Z) : normal (mk_fin m e).
Proof.
  destruct (Z.eqb_spec m 0) as [->|Hm]; [left; split; reflexivity |].
  destruct (trailing_zeros m Hm) as (m0 & j & H0 & ->).
  rewrite mk_fin_shift by assumption; right; exact H0.
Qed.


(** ** Reading back the shapes [Number::toString] writes *)

(** Where a run of digits stops: the end, or a non-digit. *)
Definition stops (t : string) : bool :=
  match t with EmptyString => true | String c _ => negb (is_digit c) end.

Lemma scan_digits_stops (d t : string) :
  all_chars is_digit d = true -> stops t = true -> scan_digits (d ++ t) = (d, t).
Proof.
  intros Hd Ht; rewrite scan_digits_app by assumption.
  destruct t as [|c t]; [simpl; rewrite str_app_nil_r; reflexivity |]; simpl in Ht; apply negb_true_iff in Ht.
  rewrite scan_digits_stop by assumption; simpl; rewrite str_app_nil_r; reflexivity.
Qed.

Lemma not_infinity (c : ascii) (r : string) :
  is_digit c = true -> String.prefix "Infinity" (String c r) = false.
Proof.
  intros H; cbn [String.prefix]; destruct (ascii_dec "I" c) as [<-|]; [discriminate | reflexivity].
Qed.

Lemma scan_unsigned_int (sg : Z) (a t : string) :
  a <> EmptyString -> all_chars is_digit a = true -> stops t = true ->
  (forall r, t <> String "." r) ->
  scan_unsigned sg (a ++ t) = mk_fin (sg * digits_value 0 a) (scan_exponent t).
Proof.
  intros Ha Hd Ht Hdot; destruct a as [|c a']; [contradiction |].
  pose proof Hd as Hc; simpl in Hc; apply andb_true_iff in Hc as [Hc _].
  unfold scan_unsigned; rewrite str_app_cons, not_infinity by assumption.
  rewrite <- str_app_cons, scan_digits_stops by assumption.
  destruct t as [|c0 r]; [| destruct (Ascii.eqb_spec c0 ".") as [->|]; [exfalso; eapply Hdot; reflexivity |]];
    cbn [String.length]; rewrite str_app_nil_r, Z.sub_0_r; reflexivity.
Qed.

Lemma scan_unsigned_frac (sg : Z) (a b t : string) :
  a <> EmptyString -> all_chars is_digit a = true -> all_chars is_digit b = true -> stops t = true ->
  scan_unsigned sg (a ++ String "." (b ++ t)) =
  mk_fin (sg * digits_value 0 (a ++ b)) (scan_exponent t - Z.of_nat (String.length b)).
Proof.
  intros Ha Hd Hb Ht; destruct a as [|c a']; [contradiction |].
  pose proof Hd as Hc; simpl in Hc; apply andb_true_iff in Hc as [Hc _].
  unfold scan_unsigned; rewrite str_app_cons, not_infinity by assumption.
  rewrite <- str_app_cons, scan_digits_stops by (try assumption; reflexivity).
  cbn [Ascii.eqb Bool.eqb andb]; rewrite scan_digits_stops by assumption.
  reflexivity.
Qed.


Lemma scan_digits_all (d : string) : all_chars is_digit d = true -> scan_digits d = (d, EmptyString).
Proof. intros H; rewrite <- (str_app_nil_r d) at 1; apply scan_digits_stops; auto. Qed.

Lemma scan_exponent_digits (x : Z) :
  scan_exponent (String "e" ((if Z.leb 0 x then "+" else "-") ++ Z_digits (Z.abs x))) = x.
Proof.
  destruct (Z_digits_spec (Z.abs x)) as (Hne & Hd & Hv); [lia |].
  cbn [scan_exponent Ascii.eqb Bool.eqb orb].
  destruct (Z.leb_spec 0 x); cbn [append scan_sign Ascii.eqb Bool.eqb andb];
    rewrite scan_digits_all by assumption;
    destruct (Z_digits (Z.abs x)) as [|c d]; try contradiction; rewrite Hv; lia.
Qed.

Lemma all_digits_take_drop (i : nat) (d : string) :
  all_chars is_digit d = true ->
  all_chars is_digit (str_take i d) = true /\ all_chars is_digit (str_drop i d) = true.
Proof.
  intros H; rewrite <- (str_take_drop i d), all_chars_app in H.
  apply andb_true_iff in H; exact H.
Qed.

Lemma read_int_zeros (sg : Z) (d : string) (j : nat) :
  d <> EmptyString -> all_chars is_digit d = true ->
  scan_unsigned sg (d ++ str_repeat j "0") = mk_fin (sg * (digits_value 0 d * 10 ^ Z.of_nat j)) 0.
Proof.
  intros Hne Hd.
  rewrite <- (str_app_nil_r (d ++ _)), scan_unsigned_int.
  - rewrite digits_value_app, digits_value_zeros; reflexivity.
  - destruct d; [contradiction | discriminate].
  - rewrite all_chars_app, Hd, all_digits_zeros; reflexivity.
  - reflexivity.
  - discriminate.
Qed.

Lemma read_point (sg : Z) (d : string) (i : nat) :
  (0 < i)%nat -> d <> EmptyString -> all_chars is_digit d = true ->
  scan_unsigned sg (str_take i d ++ String "." (str_drop i d)) =
  mk_fin (sg * digits_value 0 d) (- Z.of_nat (String.length d - i)).
Proof.
  intros Hi Hne Hd; destruct (all_digits_take_drop i d Hd) as [H1 H2].
  rewrite <- (str_app_nil_r (str_drop i d)), scan_unsigned_frac; try assumption.
  - rewrite str_take_drop, str_length_drop; reflexivity.
  - destruct i as [|i]; [lia |]; destruct d; [contradiction | discriminate].
  - reflexivity.
Qed.

Lemma read_small (sg : Z) (d : string) (j : nat) :
  all_chars is_digit d = true ->
  scan_unsigned sg ("0." ++ str_repeat j "0" ++ d) =
  mk_fin (sg * digits_value 0 d) (- Z.of_nat (j + String.length d)).
Proof.
  intros Hd.
  replace ("0." ++ str_repeat j "0" ++ d) with ("0" ++ String "." ((str_repeat j "0" ++ d) ++ ""))
    by (rewrite str_app_nil_r; reflexivity).
  rewrite scan_unsigned_frac by (try discriminate; try reflexivity;
    rewrite all_chars_app, all_digits_zeros, Hd; reflexivity).
  rewrite !digits_value_app, digits_value_zeros, str_length_app, str_length_repeat.
  reflexivity.
Qed.

Lemma read_exp (sg : Z) (d : string) (x : Z) :
  d <> EmptyString -> all_chars is_digit d = true ->
  scan_unsigned sg
    ((if Z.eqb (Z.of_nat (String.length d)) 1 then d else str_take 1 d ++ "." ++ str_drop 1 d)
       ++ "e" ++ (if Z.leb 0 x then "+" else "-") ++ Z_digits (Z.abs x)) =
  mk_fin (sg * digits_value 0 d) (x - Z.of_nat (String.length d - 1)).
Proof.
  intros Hne Hd.
  destruct (Z.eqb_spec (Z.of_nat (String.length d)) 1) as [E|E].
  - cbn [append]; rewrite scan_unsigned_int, scan_exponent_digits;
      try assumption; try reflexivity; [f_equal; lia | discriminate].
  - destruct (all_digits_take_drop 1 d Hd) as [H1 H2].
    rewrite str_app_assoc; cbn [append].
    rewrite scan_unsigned_frac, str_take_drop, scan_exponent_digits, str_length_drop;
      try assumption; try reflexivity.
    destruct d; [contradiction | discriminate].
Qed.

(** Reading back what [fin_to_string] writes for s * 10^e. *)
Lemma scan_fin_to_string (sg s e : Z) :
  0 < s -> (sg * s) mod 10 <> 0 -> scan_unsigned sg (fin_to_string s e) = Fin (sg * s) e.
Proof.
  intros Hs Hm; destruct (Z_digits_spec s) as (Hne & Hd & Hv); [lia |].
  assert (Hk : (1 <= String.length (Z_digits s))%nat) by (destruct (Z_digits s); [contradiction | simpl; lia]).
  unfold fin_to_string; cbv zeta.
  destruct (Z.leb_spec (Z.of_nat (String.length (Z_digits s))) (e + Z.of_nat (String.length (Z_digits s))));
  destruct (Z.leb_spec (e + Z.of_nat (String.length (Z_digits s))) 21); cbn [andb].
  - rewrite read_int_zeros, Hv by assumption.
    rewrite Z.mul_assoc, mk_fin_shift by assumption; f_equal; lia.
  - destruct (Z.ltb_spec 0 (e + Z.of_nat (String.length (Z_digits s)))); [| lia]; cbn [andb].
    destruct (Z.ltb_spec (-6) (e + Z.of_nat (String.length (Z_digits s))));
      destruct (Z.leb_spec (e + Z.of_nat (String.length (Z_digits s))) 0); cbn [andb]; try lia.
    rewrite read_exp, Hv, mk_fin_normal by assumption; f_equal; lia.
  - destruct (Z.ltb_spec 0 (e + Z.of_nat (String.length (Z_digits s)))); cbn [andb].
    + cbn [append]; rewrite read_point, Hv, mk_fin_normal by (try assumption; lia); f_equal; lia.
    + destruct (Z.ltb_spec (-6) (e + Z.of_nat (String.length (Z_digits s))));
        destruct (Z.leb_spec (e + Z.of_nat (String.length (Z_digits s))) 0); cbn [andb]; try lia.
      * rewrite read_small, Hv, mk_fin_normal by assumption; f_equal; lia.
      * rewrite read_exp, Hv, mk_fin_normal by assumption; f_equal; lia.
  - destruct (Z.ltb_spec 0 (e + Z.of_nat (String.length (Z_digits s)))); [| lia]; cbn [andb].
    destruct (Z.ltb_spec (-6) (e + Z.of_nat (String.length (Z_digits s))));
      destruct (Z.leb_spec (e + Z.of_nat (String.length (Z_digits s))) 0); cbn [andb]; try lia.
    rewrite read_exp, Hv, mk_fin_normal by assumption; f_equal; lia.
Qed.

Lemma scan_unsigned_nan (sg : Z) (c : ascii) (r : string) :
  is_digit c = false -> Ascii.eqb c "." = false -> Ascii.eqb c "I" = false ->
  scan_unsigned sg (String c r) = NaN.
Proof.
  intros Hd Hdot HI; unfold scan_unsigned; cbn [String.prefix].
  destruct (ascii_dec "I" c) as [<-|_]; [discriminate |].
  rewrite scan_digits_stop by assumption; rewrite Hdot; reflexivity.
Qed.

(** A string [scan_unsigned] reads as a finite number starts with no
    blank and no sign, so [parseFloat] reads it the same way. *)
Lemma parseFloat_direct (t : string) (m e : Z) :
  scan_unsigned 1 t = Fin m e -> parseFloat_str t = Fin m e.
Proof.
  intros H; destruct t as [|c r]; [discriminate |].
  unfold parseFloat_str; cbn [trim_start].
  destruct (is_ws c) eqn:W.
  - exfalso; rewrite scan_unsigned_nan in H; [discriminate | ..].
    + destruct (is_digit c) eqn:D; [rewrite digit_not_ws in W by assumption; discriminate | reflexivity].
    + destruct (Ascii.eqb_spec c "."); [subst; discriminate | reflexivity].
    + destruct (Ascii.eqb_spec c "I"); [subst; discriminate | reflexivity].
  - cbn [scan_sign].
    destruct (Ascii.eqb_spec c "+") as [->|]; [rewrite scan_unsigned_nan in H by reflexivity; discriminate |].
    destruct (Ascii.eqb_spec c "-") as [->|]; [rewrite scan_unsigned_nan in H by reflexivity; discriminate |].
    exact H.
Qed.

(** The finite non-zero case of the round trip. *)
Lemma parseFloat_to_string_fin (m e : Z) :
  m mod 10 <> 0 -> parseFloat_str (to_string (Fin m e)) = Fin m e.
Proof.
  intros Hm; unfold to_string; rewrite mk_fin_normal by assumption.
  destruct (Z.eqb_spec m 0) as [->|Hm0]; [contradiction |].
  destruct (Z.ltb_spec m 0).
  - unfold parseFloat_str; simpl (trim_start _); simpl (scan_sign _); cbv iota beta.
    rewrite scan_fin_to_string by (try lia; replace (-1 * - m) with m by lia; assumption).
    f_equal; lia.
  - apply parseFloat_direct; rewrite scan_fin_to_string by (try lia; rewrite Z.mul_1_l; assumption).
    f_equal; lia.
Qed.

(** [parseFloat] reads back what [Number::toString] writes, for
    every number in normal form: [NaN], the infinities, zero, and every
    finite decimal, in each of the four layouts (integer, fixed point,
    [0.000ddd], exponent). *)
Theorem parseFloat_to_string (x : number) : normal x -> parseFloat_str (to_string x) = x.
Proof.
  destruct x as [| | |m e]; intros Hn; try reflexivity.
  destruct Hn as [[-> ->]|Hm]; [reflexivity | apply parseFloat_to_string_fin, Hm].
Qed.

Lemma parseFloat_str_normal (s : string) : normal (parseFloat_str s).
Proof.
  unfold parseFloat_str; destruct (scan_sign (trim_start s)) as [sg r].
  unfold scan_unsigned; destruct (String.prefix "Infinity" r); [destruct (Z.ltb sg 0); exact I |].
  repeat match goal with |- context [match ?x with pair _ _ => _ end] => destruct x end.
  repeat match goal with
         | |- context [match ?x with EmptyString => _ | String _ _ => _ end] => destruct x
         end; first [exact I | apply mk_fin_normal_form].
Qed.

(** ** The characters [Number::toString] writes *)

(** The characters of a JSON number. *)
Definition is_num_char (c : ascii) : bool :=
  (is_digit c || Ascii.eqb c "-" || Ascii.eqb c "+" || Ascii.eqb c "." || Ascii.eqb c "e")%bool.

Lemma all_chars_impl (p q : ascii -> bool) (s : string) :
  (forall c, p c = true -> q c = true) -> all_chars p s = true -> all_chars q s = true.
Proof.
  intros Hpq; induction s as [|c s IH]; simpl; [auto |].
  rewrite !andb_true_iff; intros [H1 H2]; auto.
Qed.

Lemma digits_num_chars (d : string) : all_chars is_digit d = true -> all_chars is_num_char d = true.
Proof. apply all_chars_impl; unfold is_num_char; intros c ->; reflexivity. Qed.

Lemma fin_to_string_num_chars (s e : Z) : 0 <= s -> all_chars is_num_char (fin_to_string s e) = true.
Proof.
  intros Hs; destruct (Z_digits_spec s Hs) as (_ & Hd & _).
  destruct (Z_digits_spec (Z.abs (e + Z.of_nat (String.length (Z_digits s)) - 1)) ltac:(lia))
    as (_ & He & _).
  pose proof (all_digits_zeros (Z.to_nat (e + Z.of_nat (String.length (Z_digits s)) - Z.of_nat (String.length (Z_digits s))))) as Hz1.
  pose proof (all_digits_zeros (Z.to_nat (- (e + Z.of_nat (String.length (Z_digits s)))))) as Hz2.
  destruct (all_digits_take_drop (Z.to_nat (e + Z.of_nat (String.length (Z_digits s)))) _ Hd) as [Ht Hr].
  destruct (all_digits_take_drop 1 _ Hd) as [Ht1 Hr1].
  unfold fin_to_string; repeat match goal with |- context [if ?b then _ else _] => destruct b end;
    rewrite ?all_chars_app; cbn [all_chars is_num_char]; rewrite ?digits_num_chars; auto.
Qed.

Lemma to_string_num_chars (x : number) : is_finite x = true -> all_chars is_num_char (to_string x) = true.
Proof.
  destruct x as [| | |m e]; try discriminate; intros _; unfold to_string.
  unfold mk_fin; destruct (Z.eqb_spec m 0); [reflexivity |].
  destruct (strip_zeros _ m e) as [m' e'].
  destruct (Z.eqb_spec m' 0); [reflexivity |]; destruct (Z.ltb_spec m' 0).
  - cbn [append all_chars]; apply fin_to_string_num_chars; lia.
  - apply fin_to_string_num_chars; lia.
Qed.
