(* ===== verification/JsValue.v ===== *)
(** * JsValue: JavaScript values, property reads, truthiness, [String(x)]

    The values the program handles: what [axios] hands back as
    [response.data] (a parsed JSON document or a string), the objects
    built by [FetchWeather], and the strings of the chat model.  Objects
    are ordered lists of own properties with distinct keys, in creation
    order.  Only own data properties are modelled: the keys the program
    reads ([nearest_area], [areaName], [value], [current_condition],
    [temp_C], ...) are not properties of the prototypes, so a missing key
    reads as [undefined] as in JavaScript. *)

From Stdlib Require Import String Ascii List ZArith Lia Bool.
From S2P Require Import Prelude JsString JsNumber.
Import ListNotations.
Open Scope string_scope.
Open Scope js_scope.

Inductive jsval : Type :=
| JUndefined
| JNull
| JBool (b : bool)
| JNum (n : number)
| JStr (s : string)
| JArr (xs : list jsval)
| JObj (props : list (string * jsval)).

(** Induction over nested values. *)
Section JsvalInd.
Variable P : jsval -> Prop.
Hypothesis H_undef : P JUndefined.
Hypothesis H_null : P JNull.
Hypothesis H_bool : forall b, P (JBool b).
Hypothesis H_num : forall n, P (JNum n).
Hypothesis H_str : forall s, P (JStr s).
Hypothesis H_arr : forall xs, Forall P xs -> P (JArr xs).
Hypothesis H_obj : forall ps, Forall (fun kv => P (snd kv)) ps -> P (JObj ps).

Fixpoint jsval_ind' (v : jsval) : P v :=
  match v with
  | JUndefined => H_undef
  | JNull => H_null
  | JBool b => H_bool b
  | JNum n => H_num n
  | JStr s => H_str s
  | JArr xs =>
      H_arr xs ((fix go (l : list jsval) : Forall P l :=
                   match l with
                   | [] => Forall_nil _
                   | x :: l' => Forall_cons x (jsval_ind' x) (go l')
                   end) xs)
  | JObj ps =>
      H_obj ps ((fix go (l : list (string * jsval)) : Forall (fun kv => P (snd kv)) l :=
                   match l with
                   | [] => Forall_nil _
                   | kv :: l' => Forall_cons kv (jsval_ind' (snd kv)) (go l')
                   end) ps)
  end.
End JsvalInd.

(** ** Property keys *)

(** An array index (ECMA-262 6.1.7): the canonical decimal of an
    integer below 2^32 - 1, that is ["0"] or digits not starting with
    ["0"], of value at most 4294967294. *)
Definition array_index (key : string) : option nat :=
  match scan_digits key with
  | (EmptyString, _) => None
  | (d, EmptyString) =>
      match d with
      | String "0" (String _ _) => None
      | _ => let n := digits_value 0 d in
             if Z.ltb n 4294967295 then Some (Z.to_nat n) else None
      end
  | _ => None
  end.

Fixpoint assoc_get (ps : list (string * jsval)) (key : string) : option jsval :=
  match ps with
  | [] => None
  | (k, v) :: ps' => if String.eqb k key then Some v else assoc_get ps' key
  end.

Definition num_of_nat (n : nat) : number := mk_fin (Z.of_nat n) 0.

(** [v[key]] and [v.key]: a read on [undefined] or [null] throws the
    V8 [TypeError]; a missing key reads as [undefined]. *)
Definition get (v : jsval) (key : string) : res jsval :=
  match v with
  | JUndefined =>
      Err (TypeError ("Cannot read properties of undefined (reading '" ++ key ++ "')"))
  | JNull =>
      Err (TypeError ("Cannot read properties of null (reading '" ++ key ++ "')"))
  | JObj ps =>
      Ok (match assoc_get ps key with Some x => x | None => JUndefined end)
  | JArr xs =>
      if String.eqb key "length" then Ok (JNum (num_of_nat (List.length xs)))
      else match array_index key with
           | Some i => Ok (match nth_error xs i with Some x => x | None => JUndefined end)
           | None => Ok JUndefined
           end
  | JStr s =>
      if String.eqb key "length" then Ok (JNum (num_of_nat (String.length s)))
      else match array_index key with
           | Some i =>
               Ok (match String.get i s with
                   | Some c => JStr (String c EmptyString)
                   | None => JUndefined
                   end)
           | None => Ok JUndefined
           end
  | JBool _ | JNum _ => Ok JUndefined
  end.

(** A chain of reads [v.k1.k2...], stopping at the first throw. *)
Fixpoint get_path (v : jsval) (path : list string) : res jsval :=
  match path with
  | [] => Ok v
  | k :: path' => x <-? get v k ;; get_path x path'
  end.

(** A chain of reads is the reads of its first part, then of the rest. *)
Lemma get_path_app (v : jsval) (p1 p2 : list string) :
  get_path v (p1 ++ p2) = (x <-? get_path v p1 ;; get_path x p2).
Proof.
  revert v; induction p1 as [|k p1 IH]; intros v; [reflexivity |].
  cbn [app get_path]; destruct (get v k); cbn; [apply IH | reflexivity].
Qed.

(** ** Truthiness: [!!v] *)

Definition truthy (v : jsval) : bool :=
  match v with
  | JUndefined | JNull => false
  | JBool b => b
  | JNum n => num_truthy n
  | JStr s => negb (String.eqb s "")
  | JArr _ | JObj _ => true
  end.

(** ** [String(v)] (ToString) *)

Fixpoint to_js_string (v : jsval) : string :=
  match v with
  | JUndefined => "undefined"
  | JNull => "null"
  | JBool true => "true"
  | JBool false => "false"
  | JNum n => to_string n
  | JStr s => s
  | JArr xs =>
      str_join ","
        (map (fun x => match x with
                       | JUndefined | JNull => ""
                       | _ => to_js_string x
                       end) xs)
  | JObj _ => "[object Object]"
  end.

(** [parseFloat(v)]: ToString first, then the string algorithm. *)
Definition parseFloat (v : jsval) : number := parseFloat_str (to_js_string v).

Definition is_object (v : jsval) : bool :=
  match v with JObj _ => true | _ => false end.

(** ** Array indices are the canonical decimals below 2^32 - 1 *)

Section ArrayIndex.
Local Open Scope Z_scope.

Lemma digit_val_lt (c : ascii) : is_digit c = true -> (digit_val c < 10)%nat.
Proof.
  unfold is_digit, digit_val; intros H; apply andb_true_iff in H as [H1 H2].
  apply Nat.leb_le in H1, H2; lia.
Qed.

Lemma digit_val_inj (c c' : ascii) :
  is_digit c = true -> is_digit c' = true -> digit_val c = digit_val c' -> c = c'.
Proof.
  unfold is_digit, digit_val, code; intros H H' E.
  apply andb_true_iff in H as [H1 _], H' as [H1' _]; apply Nat.leb_le in H1, H1'.
  rewrite <- (ascii_nat_embedding c), <- (ascii_nat_embedding c'); f_equal; lia.
Qed.

(** A string of [L] digits read onto [acc] lies in
    [[acc * 10^L, (acc + 1) * 10^L)]. *)
Lemma digits_value_bound (d : string) (acc : Z) :
  all_chars is_digit d = true -> 0 <= acc ->
  acc * 10 ^ Z.of_nat (String.length d) <= digits_value acc d < (acc + 1) * 10 ^ Z.of_nat (String.length d).
Proof.
  revert acc; induction d as [|c d IH]; intros acc Hd Ha; cbn [String.length digits_value]; [lia |].
  cbn [all_chars] in Hd; apply andb_true_iff in Hd as [Hc Hd].
  pose proof (digit_val_lt c Hc) as Hv.
  destruct (IH (acc * 10 + Z.of_nat (digit_val c)) Hd ltac:(lia)) as [Hlo Hhi].
  pose proof (Z.pow_pos_nonneg 10 (Z.of_nat (String.length d)) ltac:(lia) ltac:(lia)).
  rewrite Nat2Z.inj_succ, Z.pow_succ_r by lia; split; nia.
Qed.

(** Digit strings of one length with one value are equal. *)
Lemma digits_value_inj (d1 d2 : string) (acc : Z) :
  all_chars is_digit d1 = true -> all_chars is_digit d2 = true -> 0 <= acc ->
  String.length d1 = String.length d2 -> digits_value acc d1 = digits_value acc d2 -> d1 = d2.
Proof.
  revert d2 acc; induction d1 as [|c1 d1 IH]; intros [|c2 d2] acc H1 H2 Ha Hl Hv;
    try discriminate; [reflexivity |].
  cbn [all_chars String.length digits_value] in *; injection Hl as Hl.
  apply andb_true_iff in H1 as [Hc1 H1], H2 as [Hc2 H2].
  pose proof (digit_val_lt c1 Hc1); pose proof (digit_val_lt c2 Hc2).
  pose proof (digits_value_bound d1 (acc * 10 + Z.of_nat (digit_val c1)) H1 ltac:(lia)).
  pose proof (digits_value_bound d2 (acc * 10 + Z.of_nat (digit_val c2)) H2 ltac:(lia)).
  rewrite Hl in *; set (P := 10 ^ Z.of_nat (String.length d2)) in *.
  assert (HP : 0 < P) by (apply Z.pow_pos_nonneg; lia).
  assert (A1 : acc * 10 + Z.of_nat (digit_val c1) < acc * 10 + Z.of_nat (digit_val c2) + 1)
    by (apply (Z.mul_lt_mono_pos_r P); nia).
  assert (A2 : acc * 10 + Z.of_nat (digit_val c2) < acc * 10 + Z.of_nat (digit_val c1) + 1)
    by (apply (Z.mul_lt_mono_pos_r P); nia).
  assert (Hc : digit_val c1 = digit_val c2) by lia.
  rewrite (digit_val_inj c1 c2 Hc1 Hc2 Hc) in *; f_equal.
  exact (IH d2 (acc * 10 + Z.of_nat (digit_val c2)) H1 H2 ltac:(lia) eq_refl Hv).
Qed.

(** No leading zero, except in ["0"] itself. *)
Definition lead_ok (d : string) : bool :=
  match d with String c (String _ _) => negb (Ascii.eqb c "0") | _ => true end.

Lemma array_index_eq (key : string) :
  array_index key =
  match scan_digits key with
  | (d, EmptyString) =>
      if (negb (String.eqb d "") && lead_ok d && Z.ltb (digits_value 0 d) 4294967295)%bool
      then Some (Z.to_nat (digits_value 0 d)) else None
  | _ => None
  end.
Proof.
  unfold array_index; destruct (scan_digits key) as [d r].
  destruct d as [|c [|c' d']]; destruct r; try reflexivity.
  all: destruct c as [[] [] [] [] [] [] [] []]; reflexivity.
Qed.

Lemma digit_zero (c : ascii) : is_digit c = true -> digit_val c = 0%nat -> c = "0"%char.
Proof. intros Hc H; apply digit_val_inj; [exact Hc | reflexivity | exact H]. Qed.

(** A canonical decimal of [L] digits other than ["0"] is at least
    [10^(L-1)]. *)
Lemma canon_lower (d : string) :
  all_chars is_digit d = true -> d <> EmptyString -> lead_ok d = true ->
  d = "0" \/ 10 ^ Z.of_nat (String.length d - 1) <= digits_value 0 d.
Proof.
  destruct d as [|c d]; intros Hd Hne Hl; [contradiction |].
  cbn [all_chars] in Hd; apply andb_true_iff in Hd as [Hc Hd].
  cbn [String.length digits_value]; replace (S (String.length d) - 1)%nat with (String.length d) by lia.
  destruct (Nat.eq_dec (digit_val c) 0) as [Hz|Hz].
  - left; rewrite (digit_zero c Hc Hz) in *; destruct d; [reflexivity | discriminate].
  - right; pose proof (digits_value_bound d (0 * 10 + Z.of_nat (digit_val c)) Hd ltac:(lia)); nia.
Qed.

(** Two canonical decimals of one value are equal. *)
Lemma canon_unique (d1 d2 : string) :
  all_chars is_digit d1 = true -> d1 <> EmptyString -> lead_ok d1 = true ->
  all_chars is_digit d2 = true -> d2 <> EmptyString -> lead_ok d2 = true ->
  digits_value 0 d1 = digits_value 0 d2 -> d1 = d2.
Proof.
  intros H1 N1 L1 H2 N2 L2 Hv.
  pose proof (digits_value_bound d1 0 H1 ltac:(lia)) as B1.
  pose proof (digits_value_bound d2 0 H2 ltac:(lia)) as B2.
  destruct (canon_lower d1 H1 N1 L1) as [->|C1], (canon_lower d2 H2 N2 L2) as [->|C2];
    cbn in Hv; try reflexivity.
  - pose proof (Z.pow_pos_nonneg 10 (Z.of_nat (String.length d2 - 1))); lia.
  - pose proof (Z.pow_pos_nonneg 10 (Z.of_nat (String.length d1 - 1))); lia.
  - apply (digits_value_inj d1 d2 0 H1 H2 ltac:(lia)); [| exact Hv].
    destruct d1 as [|c1 d1]; [contradiction |]; destruct d2 as [|c2 d2]; [contradiction |].
    cbn [String.length] in *.
    replace (S (String.length d1) - 1)%nat with (String.length d1) in C1 by lia.
    replace (S (String.length d2) - 1)%nat with (String.length d2) in C2 by lia.
    destruct (Nat.lt_total (String.length d1) (String.length d2)) as [Hlt|[Heq|Hlt]]; [| lia |].
    + pose proof (Z.pow_le_mono_r 10 (Z.of_nat (S (String.length d1))) (Z.of_nat (String.length d2)) ltac:(lia) ltac:(lia)).
      rewrite Nat2Z.inj_succ in B1; lia.
    + pose proof (Z.pow_le_mono_r 10 (Z.of_nat (S (String.length d2))) (Z.of_nat (String.length d1)) ltac:(lia) ltac:(lia)).
      rewrite Nat2Z.inj_succ in B2; lia.
Qed.

(** [Z_digits] writes canonical decimals. *)
Lemma Z_digits_lead_ok (n : Z) : 0 <= n -> lead_ok (Z_digits n) = true.
Proof.
  intros Hn; destruct (Z.eq_dec n 0) as [->|Hnz]; [reflexivity |].
  assert (Hp : 0 < n) by lia.
  pose proof (digits_aux_lead (Pos.size_nat (Z.to_pos n)) n EmptyString (conj Hp (Z_digits_fuel n Hn))) as Hl.
  destruct (Z_digits_spec n Hn) as (_ & Hd & Hv); fold (Z_digits n) in Hl.
  cbn [String.length] in Hl; rewrite Nat.sub_0_r in Hl.
  destruct (Z_digits n) as [|c [|c' r]]; [reflexivity | reflexivity |]; cbn [lead_ok].
  destruct (Ascii.eqb_spec c "0") as [->|_]; [exfalso | reflexivity].
  cbn [all_chars] in Hd; apply andb_true_iff in Hd as [_ Hd].
  pose proof (digits_value_bound (String c' r) 0 Hd ltac:(lia)) as [_ B].
  cbn [digits_value] in Hv; cbn [String.length digits_value] in Hl, B.
  replace (S (S (String.length r)) - 1)%nat with (S (String.length r)) in Hl by lia.
  change (0 * 10 + Z.of_nat (digit_val "0")) with 0 in Hv; lia.
Qed.

Lemma scan_digits_split (k d r : string) :
  scan_digits k = (d, r) -> k = d ++ r /\ all_chars is_digit d = true.
Proof.
  revert d r; induction k as [|c k IH]; intros d r; cbn [scan_digits]; [intros [= <- <-]; auto |].
  destruct (is_digit c) eqn:Hc; [| intros [= <- <-]; auto].
  destruct (scan_digits k) as [d' r'] eqn:E; intros [= <- <-].
  destruct (IH d' r' eq_refl) as [-> Hd]; cbn [all_chars append]; rewrite Hc, Hd; auto.
Qed.

(** The property keys [array_index] treats as array indices (for
    element reads and for the key order of [JSON.stringify]) are
    exactly those ECMA-262 6.1.7 calls array indices: the decimal
    [ToString(i)] of an integer [i] below [2^32 - 1], with no other
    spelling (no sign, no leading zero, no exponent). *)
Theorem array_index_spec (key : string) (i : nat) :
  array_index key = Some i <-> Z.of_nat i < 4294967295 /\ key = Z_digits (Z.of_nat i).
Proof.
  rewrite array_index_eq; split.
  - destruct (scan_digits key) as [d [|c r]] eqn:E; [| discriminate].
    destruct (negb (String.eqb d "") && lead_ok d && Z.ltb (digits_value 0 d) 4294967295)%bool eqn:B;
      [intros [= <-] | discriminate].
    apply andb_true_iff in B as [[Hne Hl]%andb_true_iff Hb]; apply Z.ltb_lt in Hb.
    apply negb_true_iff, String.eqb_neq in Hne.
    apply scan_digits_split in E as [-> Hd]; rewrite str_app_nil_r.
    pose proof (digits_value_bound d 0 Hd ltac:(lia)) as [B0 _].
    rewrite Z2Nat.id by lia; split; [exact Hb |].
    destruct (Z_digits_spec (digits_value 0 d) ltac:(lia)) as (Zn & Zd & Zv).
    apply canon_unique; auto using Z_digits_lead_ok with zarith.
  - intros [Hb ->]; destruct (Z_digits_spec (Z.of_nat i) ltac:(lia)) as (Zn & Zd & Zv).
    rewrite scan_digits_all by exact Zd; rewrite Zv, Z_digits_lead_ok by lia.
    destruct (String.eqb_spec (Z_digits (Z.of_nat i)) "") as [E|_]; [contradiction |].
    apply Z.ltb_lt in Hb; rewrite Hb, Nat2Z.id; reflexivity.
Qed.
End ArrayIndex.
