(* ===== verification/Json.v ===== *)
(** * Json: [JSON.stringify(value, null, 2)]

    The serialisation the program applies to the weather object, once for
    the log line (index.tsx line 136) and once inside the prompt of
    [GenerateResponse] (line 115).  [stringify2] follows ECMA-262's
    SerializeJSONProperty, SerializeJSONObject and SerializeJSONArray
    with no replacer and a gap of two spaces; [quote] is QuoteJSONString.
    [undefined] at the top is [None] (JavaScript returns [undefined]);
    object properties whose value is [undefined] are left out, array
    elements that are [undefined] are written [null], and so are the
    non-finite numbers.  Integer-like keys are enumerated first in
    ascending order, as OrdinaryOwnPropertyKeys does.

    [unquote] is the string-literal reader of [JSON.parse], used to state
    that quoting loses nothing. *)

From Stdlib Require Import String Ascii List ZArith Lia Bool.
From S2P Require Import Prelude JsString JsNumber JsValue.
Import ListNotations.
Open Scope string_scope.
Open Scope js_scope.

(** ** QuoteJSONString *)

Definition quote_char : ascii := ascii_of_nat 34.
Definition nl : string := String (ascii_of_nat 10) EmptyString.

Definition hex_lower (d : nat) : ascii :=
  if Nat.ltb d 10 then ascii_of_nat (48 + d) else ascii_of_nat (87 + d).

Definition escape_char (c : ascii) : string :=
  let n := code c in
  if Nat.eqb n 8 then "\b"
  else if Nat.eqb n 9 then "\t"
  else if Nat.eqb n 10 then "\n"
  else if Nat.eqb n 12 then "\f"
  else if Nat.eqb n 13 then "\r"
  else if Nat.eqb n 34 then String "\" (String quote_char EmptyString)
  else if Nat.eqb n 92 then "\\"
  else if Nat.ltb n 32 then
    "\u00" ++ String (hex_lower (n / 16)) (String (hex_lower (n mod 16)) EmptyString)
  else String c EmptyString.

Fixpoint quote_body (s : string) : string :=
  match s with
  | EmptyString => EmptyString
  | String c s' => escape_char c ++ quote_body s'
  end.

Definition dq : string := String quote_char EmptyString.

Definition quote (s : string) : string := dq ++ quote_body s ++ dq.

(** ** Key order of an object *)

Fixpoint insert_index (k : nat * string) (l : list (nat * string)) : list (nat * string) :=
  match l with
  | [] => [k]
  | k' :: l' => if Nat.leb (fst k) (fst k') then k :: l else k' :: insert_index k l'
  end.

(** Array-index keys in ascending order, then the other keys in
    creation order. *)
Definition own_keys (ps : list (string * jsval)) : list string :=
  let idx := fold_right (fun kv acc =>
                match array_index (fst kv) with
                | Some i => insert_index (i, fst kv) acc
                | None => acc
                end) [] ps in
  map snd idx ++
  map fst (filter (fun kv => match array_index (fst kv) with Some _ => false | None => true end) ps).

(** ** SerializeJSONProperty with gap ["  "] *)

(** The serialised value of each property, looked up by key. *)
Fixpoint assoc_ser (l : list (string * option string)) (k : string) : option (option string) :=
  match l with
  | [] => None
  | (k', t) :: l' => if String.eqb k' k then Some t else assoc_ser l' k
  end.

Definition gap : string := "  ".

Fixpoint ser (indent : string) (v : jsval) : option string :=
  match v with
  | JUndefined => None
  | JNull => Some "null"
  | JBool true => Some "true"
  | JBool false => Some "false"
  | JNum n => Some (if is_finite n then to_string n else "null")
  | JStr s => Some (quote s)
  | JArr xs =>
      let ind := indent ++ gap in
      let items := map (fun x => match ser ind x with Some t => t | None => "null" end) xs in
      match items with
      | [] => Some "[]"
      | _ => Some ("[" ++ nl ++ ind ++ str_join ("," ++ nl ++ ind) items ++ nl ++ indent ++ "]")
      end
  | JObj ps =>
      let ind := indent ++ gap in
      let sers := map (fun '(k, x) => (k, ser ind x)) ps in
      let members :=
        flat_map (fun k =>
          match assoc_ser sers k with
          | Some (Some t) => [quote k ++ ": " ++ t]
          | _ => []
          end) (own_keys ps) in
      match members with
      | [] => Some "{}"
      | _ => Some ("{" ++ nl ++ ind ++ str_join ("," ++ nl ++ ind) members ++ nl ++ indent ++ "}")
      end
  end.

Definition stringify2 (v : jsval) : option string := ser "" v.

(** A template literal [`${x}`] shows [undefined] as the word. *)
Definition template_of (o : option string) : string :=
  match o with Some s => s | None => "undefined" end.

(** ** The string-literal reader of JSON.parse *)

Fixpoint unquote_body (s : string) : option (string * string) :=
  match s with
  | EmptyString => None
  | String c s' =>
      if Nat.eqb (code c) 34 then Some (EmptyString, s')
      else if Nat.eqb (code c) 92 then
        match s' with
        | String e s'' =>
            let n := code e in
            let simple (d : ascii) :=
              match unquote_body s'' with
              | Some (r, rest) => Some (String d r, rest)
              | None => None
              end in
            if Nat.eqb n 34 then simple quote_char
            else if Nat.eqb n 92 then simple "\"%char
            else if Nat.eqb n 47 then simple "/"%char
            else if Nat.eqb n 98 then simple (ascii_of_nat 8)
            else if Nat.eqb n 102 then simple (ascii_of_nat 12)
            else if Nat.eqb n 110 then simple (ascii_of_nat 10)
            else if Nat.eqb n 114 then simple (ascii_of_nat 13)
            else if Nat.eqb n 116 then simple (ascii_of_nat 9)
            else if Nat.eqb n 117 then
              match s'' with
              | String a (String b (String h (String l s3))) =>
                  match hex_val a, hex_val b, hex_val h, hex_val l with
                  | Some 0, Some 0, Some x, Some y =>
                      match unquote_body s3 with
                      | Some (r, rest) => Some (String (ascii_of_nat (16 * x + y)) r, rest)
                      | None => None
                      end
                  | _, _, _, _ => None
                  end
              | _ => None
              end
            else None
        | EmptyString => None
        end
      else if Nat.ltb (code c) 32 then None
      else match unquote_body s' with
           | Some (r, rest) => Some (String c r, rest)
           | None => None
           end
  end.

Definition unquote (s : string) : option (string * string) :=
  match s with
  | String c s' => if Nat.eqb (code c) 34 then unquote_body s' else None
  | EmptyString => None
  end.

(** ** Quoting loses nothing *)

Lemma hex_val_hex_lower (d : nat) : d < 16 -> hex_val (hex_lower d) = Some d.
Proof. intros H; do 16 (destruct d as [|d]; [reflexivity|]); lia. Qed.

(** The body of a string literal read on from [t], with [c] in front. *)
Definition cons_read (c : ascii) (o : option (string * string)) : option (string * string) :=
  match o with Some (r, rest) => Some (String c r, rest) | None => None end.

Lemma unquote_u00 (hi lo : nat) (t : string) : hi < 16 -> lo < 16 ->
  unquote_body (String "\" (String "u" (String "0" (String "0"
    (String (hex_lower hi) (String (hex_lower lo) t)))))) =
  cons_read (ascii_of_nat (16 * hi + lo)) (unquote_body t).
Proof. intros Hh Hl; simpl; rewrite !hex_val_hex_lower by assumption; reflexivity. Qed.

Lemma unquote_plain (c : ascii) (t : string) :
  code c <> 34 -> code c <> 92 -> 32 <= code c ->
  unquote_body (String c t) = cons_read c (unquote_body t).
Proof.
  intros H1 H2 H3; cbn [unquote_body].
  rewrite (proj2 (Nat.eqb_neq _ _) H1), (proj2 (Nat.eqb_neq _ _) H2), (proj2 (Nat.ltb_ge _ _) H3).
  reflexivity.
Qed.

(** A character whose code is known is that character. *)
Ltac known_char E :=
  unfold code in E; apply (f_equal ascii_of_nat) in E; rewrite ascii_nat_embedding in E; subst.

(** One of the characters [escape_char] writes as a fixed escape. *)
Ltac esc_case n :=
  match goal with
  | |- context [Nat.eqb (code ?c) n] =>
      let E := fresh "E" in
      destruct (Nat.eqb_spec (code c) n) as [E|];
      [known_char E; simpl;
       match goal with |- context [unquote_body ?t] => destruct (unquote_body t) as [[]|] end;
       reflexivity |]
  end.

Lemma unquote_escape_char (c : ascii) (t : string) :
  unquote_body (escape_char c ++ t) = cons_read c (unquote_body t).
Proof.
  unfold escape_char.
  esc_case 8; esc_case 9; esc_case 10; esc_case 12; esc_case 13; esc_case 34; esc_case 92.
  destruct (Nat.ltb_spec (code c) 32) as [Hlt|Hge].
  - cbn [append]; rewrite unquote_u00 by (apply Nat.Div0.div_lt_upper_bound + apply Nat.mod_upper_bound; lia).
    rewrite <- Nat.div_mod_eq; unfold code; rewrite ascii_nat_embedding; reflexivity.
  - apply unquote_plain; assumption.
Qed.

Lemma unquote_body_quote (s rest : string) :
  unquote_body (quote_body s ++ dq ++ rest) = Some (s, rest).
Proof.
  induction s as [|c s IH]; [reflexivity |].
  cbn [quote_body]; rewrite str_app_assoc, unquote_escape_char, IH; reflexivity.
Qed.

(** The string literal [JSON.stringify] writes is read back by
    [JSON.parse] as the same string, up to its closing quote: quoting
    loses nothing and ends where it should. *)
Theorem unquote_quote (s rest : string) : unquote (quote s ++ rest) = Some (s, rest).
Proof.
  unfold quote; rewrite !str_app_assoc; cbn [dq append unquote].
  apply unquote_body_quote.
Qed.
