(* ===== verification/Effects.v ===== *)
(** * Effects: the effects of the program as a free monad

    A value of [prog A] is a program that ends with a value of type [A]
    ([Ret]), throws ([Raise]), or suspends on an external call and goes
    on with the answer: a chat completion ([Chat], carrying the API key
    the client was built with, the model name and the messages), an HTTP
    GET ([Get], answered with [response.data]) or a console line ([Log]).
    An [await] is a [bind]; a [try/catch] is [catch].

    A world says which answers an external call may get.  [exec] is the
    relational semantics (any answer the world allows, so a run may be
    interleaved with others and the world may change between calls) and
    [run] the executable one against an oracle.  Because [prog] is
    inductive, every program ends after finitely many calls: no fuel. *)

From Stdlib Require Import String Ascii List ZArith Lia Bool.
From Stdlib Require Import Morphisms RelationClasses Setoid.
From S2P Require Import Prelude JsString JsNumber JsValue.
Import ListNotations.
Open Scope string_scope.
Open Scope js_scope.

(** A role-tagged content item of a chat request. *)
Record message : Type := mkMessage { role : string; content : string }.

Inductive channel : Type := Stdout | Stderr.

Inductive prog (A : Type) : Type :=
| Ret (a : A)
| Raise (e : exn)
| Chat (key model : string) (msgs : list message) (k : res string -> prog A)
| Get (url : string) (k : res jsval -> prog A)
| Log (ch : channel) (line : string) (k : prog A).
Arguments Ret {A} a.
Arguments Raise {A} e.
Arguments Chat {A} key model msgs k.
Arguments Get {A} url k.
Arguments Log {A} ch line k.

(** ** [await] and [try/catch] *)

Fixpoint bind {A B : Type} (p : prog A) (f : A -> prog B) : prog B :=
  match p with
  | Ret a => f a
  | Raise e => Raise e
  | Chat key m msgs k => Chat key m msgs (fun r => bind (k r) f)
  | Get u k => Get u (fun r => bind (k r) f)
  | Log ch l k => Log ch l (bind k f)
  end.

Fixpoint catch {A : Type} (p : prog A) (h : exn -> prog A) : prog A :=
  match p with
  | Ret a => Ret a
  | Raise e => h e
  | Chat key m msgs k => Chat key m msgs (fun r => catch (k r) h)
  | Get u k => Get u (fun r => catch (k r) h)
  | Log ch l k => Log ch l (catch k h)
  end.

(** A value of the runtime that may have thrown, inside a program. *)
Definition of_res {A : Type} (r : res A) : prog A :=
  match r with Ok a => Ret a | Err e => Raise e end.

Notation "x <- p ;; k" := (bind p (fun x => k))
  (at level 61, p at next level, right associativity) : js_scope.

(** ** Worlds and traces *)

Inductive event : Type :=
| EvChat (key model : string) (msgs : list message) (r : res string)
| EvGet (url : string) (r : res jsval)
| EvLog (ch : channel) (line : string).

Record world : Type := mkWorld {
  chat_answer : string -> string -> list message -> res string -> Prop;
  get_answer : string -> res jsval -> Prop
}.

Inductive exec {A : Type} (w : world) : prog A -> list event -> res A -> Prop :=
| exec_ret a : exec w (Ret a) [] (Ok a)
| exec_raise e : exec w (Raise e) [] (Err e)
| exec_chat key m msgs k r evs out :
    chat_answer w key m msgs r -> exec w (k r) evs out ->
    exec w (Chat key m msgs k) (EvChat key m msgs r :: evs) out
| exec_get u k r evs out :
    get_answer w u r -> exec w (k r) evs out ->
    exec w (Get u k) (EvGet u r :: evs) out
| exec_log ch l k evs out :
    exec w k evs out -> exec w (Log ch l k) (EvLog ch l :: evs) out.

(** An oracle answers every call; [run] executes against it. *)
Record oracle : Type := mkOracle {
  ask_chat : string -> string -> list message -> res string;
  ask_get : string -> res jsval
}.

Definition world_of (o : oracle) : world :=
  mkWorld (fun key m msgs r => ask_chat o key m msgs = r)
          (fun u r => ask_get o u = r).

Fixpoint run {A : Type} (o : oracle) (p : prog A) : list event * res A :=
  match p with
  | Ret a => ([], Ok a)
  | Raise e => ([], Err e)
  | Chat key m msgs k =>
      let r := ask_chat o key m msgs in
      let '(evs, out) := run o (k r) in (EvChat key m msgs r :: evs, out)
  | Get u k =>
      let r := ask_get o u in
      let '(evs, out) := run o (k r) in (EvGet u r :: evs, out)
  | Log ch l k =>
      let '(evs, out) := run o k in (EvLog ch l :: evs, out)
  end.

(** ** Programs that never throw *)

Fixpoint safe {A : Type} (p : prog A) : Prop :=
  match p with
  | Ret _ => True
  | Raise _ => False
  | Chat _ _ _ k => forall r, safe (k r)
  | Get _ k => forall r, safe (k r)
  | Log _ _ k => safe k
  end.

(** Programs that make no chat call. *)
Fixpoint no_chat {A : Type} (p : prog A) : Prop :=
  match p with
  | Ret _ | Raise _ => True
  | Chat _ _ _ _ => False
  | Get _ k => forall r, no_chat (k r)
  | Log _ _ k => no_chat k
  end.

(** ** Equivalence of programs: same calls, pointwise equal
    continuations (equality of functions is not decidable by
    computation, so this is coarser than [=]). *)

Inductive peq {A : Type} : prog A -> prog A -> Prop :=
| peq_ret a : peq (Ret a) (Ret a)
| peq_raise e : peq (Raise e) (Raise e)
| peq_chat key m msgs k1 k2 :
    (forall r, peq (k1 r) (k2 r)) -> peq (Chat key m msgs k1) (Chat key m msgs k2)
| peq_get u k1 k2 :
    (forall r, peq (k1 r) (k2 r)) -> peq (Get u k1) (Get u k2)
| peq_log ch l k1 k2 : peq k1 k2 -> peq (Log ch l k1) (Log ch l k2).

(** The calls of a trace, without its log lines. *)
Definition is_call (ev : event) : bool :=
  match ev with EvLog _ _ => false | _ => true end.

Definition calls (evs : list event) : list event := filter is_call evs.

Definition chat_keys (evs : list event) : list string :=
  flat_map (fun ev => match ev with EvChat key _ _ _ => [key] | _ => [] end) evs.

Definition gets (evs : list event) : list string :=
  flat_map (fun ev => match ev with EvGet u _ => [u] | _ => [] end) evs.

(** ** Semantics of [await] and [try/catch] *)

Section Exec.
Context {A B : Type} (w : world).

Lemma exec_bind (p : prog A) (f : A -> prog B) evs1 evs2 a out :
  exec w p evs1 (Ok a) -> exec w (f a) evs2 out ->
  exec w (bind p f) (evs1 ++ evs2)%list out.
Proof.
  intros H; revert evs2 out; remember (Ok a) as o eqn:Ho.
  induction H; intros; simpl; try discriminate;
    [injection Ho as ->; assumption | constructor; auto ..].
Qed.

Lemma exec_bind_err (p : prog A) (f : A -> prog B) evs e :
  exec w p evs (Err e) -> exec w (bind p f) evs (Err e).
Proof.
  intros H; remember (Err e) as o eqn:Ho.
  induction H; simpl; try discriminate;
    [injection Ho as ->; constructor | econstructor; eauto ..].
Qed.

Lemma exec_bind_inv (p : prog A) (f : A -> prog B) evs out :
  exec w (bind p f) evs out ->
  (exists e, out = Err e /\ exec w p evs (Err e)) \/
  (exists a evs1 evs2, evs = (evs1 ++ evs2)%list /\ exec w p evs1 (Ok a) /\ exec w (f a) evs2 out).
Proof.
  revert evs out; induction p as [a|e|key m msgs k IH|u k IH|ch l k IH];
    intros evs out H; simpl in H.
  - right; exists a, [], evs; repeat split; [constructor | assumption].
  - inv H; left; eexists; split; [reflexivity | constructor].
  - inv H; destruct (IH _ _ _ ltac:(eassumption)) as [(e & -> & He)|(a & e1 & e2 & -> & Hp & Hf)].
    + left; eexists; split; [reflexivity | econstructor; eauto].
    + right; exists a, (EvChat key m msgs r :: e1), e2; repeat split; auto.
      econstructor; eauto.
  - inv H; destruct (IH _ _ _ ltac:(eassumption)) as [(e & -> & He)|(a & e1 & e2 & -> & Hp & Hf)].
    + left; eexists; split; [reflexivity | econstructor; eauto].
    + right; exists a, (EvGet u r :: e1), e2; repeat split; auto.
      econstructor; eauto.
  - inv H; destruct (IH _ _ ltac:(eassumption)) as [(e & -> & He)|(a & e1 & e2 & -> & Hp & Hf)].
    + left; eexists; split; [reflexivity | constructor; auto].
    + right; exists a, (EvLog ch l :: e1), e2; repeat split; auto.
      constructor; auto.
Qed.
End Exec.

Section Catch.
Context {A : Type} (w : world).

Lemma exec_catch_ok (p : prog A) h evs a :
  exec w p evs (Ok a) -> exec w (catch p h) evs (Ok a).
Proof.
  intros H; remember (Ok a) as o eqn:Ho.
  induction H; simpl; try discriminate;
    [injection Ho as ->; constructor | econstructor; eauto ..].
Qed.

Lemma exec_catch_err (p : prog A) h evs1 evs2 e out :
  exec w p evs1 (Err e) -> exec w (h e) evs2 out ->
  exec w (catch p h) (evs1 ++ evs2)%list out.
Proof.
  intros H; revert evs2 out; remember (Err e) as o eqn:Ho.
  induction H; intros; simpl; try discriminate;
    [injection Ho as ->; assumption | econstructor; eauto ..].
Qed.

Lemma exec_catch_inv (p : prog A) h evs out :
  exec w (catch p h) evs out ->
  (exists a, out = Ok a /\ exec w p evs (Ok a)) \/
  (exists e evs1 evs2, evs = (evs1 ++ evs2)%list /\ exec w p evs1 (Err e) /\ exec w (h e) evs2 out).
Proof.
  revert evs out; induction p as [a|e|key m msgs k IH|u k IH|ch l k IH];
    intros evs out H; simpl in H.
  - inv H; left; eexists; split; [reflexivity | constructor].
  - right; exists e, [], evs; repeat split; [constructor | assumption].
  - inv H; destruct (IH _ _ _ ltac:(eassumption)) as [(a & -> & Ha)|(e & e1 & e2 & -> & Hp & Hf)].
    + left; eexists; split; [reflexivity | econstructor; eauto].
    + right; exists e, (EvChat key m msgs r :: e1), e2; repeat split; auto.
      econstructor; eauto.
  - inv H; destruct (IH _ _ _ ltac:(eassumption)) as [(a & -> & Ha)|(e & e1 & e2 & -> & Hp & Hf)].
    + left; eexists; split; [reflexivity | econstructor; eauto].
    + right; exists e, (EvGet u r :: e1), e2; repeat split; auto.
      econstructor; eauto.
  - inv H; destruct (IH _ _ ltac:(eassumption)) as [(a & -> & Ha)|(e & e1 & e2 & -> & Hp & Hf)].
    + left; eexists; split; [reflexivity | constructor; auto].
    + right; exists e, (EvLog ch l :: e1), e2; repeat split; auto.
      constructor; auto.
Qed.
End Catch.

(** ** Never throwing, and making no chat call *)

Lemma safe_exec {A : Type} (w : world) (p : prog A) evs out :
  safe p -> exec w p evs out -> exists a, out = Ok a.
Proof. intros Hs H; induction H; simpl in *; eauto; contradiction. Qed.

Lemma safe_bind {A B : Type} (p : prog A) (f : A -> prog B) :
  safe p -> (forall a, safe (f a)) -> safe (bind p f).
Proof. induction p; simpl; auto. Qed.

Lemma safe_catch {A : Type} (p : prog A) (h : exn -> prog A) :
  (forall e, safe (h e)) -> safe (catch p h).
Proof. induction p; simpl; auto. Qed.

Lemma no_chat_bind {A B : Type} (p : prog A) (f : A -> prog B) :
  no_chat p -> (forall a, no_chat (f a)) -> no_chat (bind p f).
Proof. induction p; simpl; auto. Qed.

Lemma no_chat_catch {A : Type} (p : prog A) (h : exn -> prog A) :
  no_chat p -> (forall e, no_chat (h e)) -> no_chat (catch p h).
Proof. induction p; simpl; auto. Qed.

Lemma no_chat_exec {A : Type} (w : world) (p : prog A) evs out :
  no_chat p -> exec w p evs out -> chat_keys evs = [].
Proof. intros Hn H; induction H; simpl in *; auto; contradiction. Qed.

#[export] Hint Resolve safe_bind safe_catch no_chat_bind no_chat_catch : js.

(** ** The executable semantics is one of the relational runs *)

Lemma run_exec {A : Type} (o : oracle) (p : prog A) :
  exec (world_of o) p (fst (run o p)) (snd (run o p)).
Proof.
  induction p as [a|e|key m msgs k IH|u k IH|ch l k IH]; simpl.
  - constructor.
  - constructor.
  - specialize (IH (ask_chat o key m msgs)).
    destruct (run o (k _)); simpl in *; econstructor; simpl; eauto.
  - specialize (IH (ask_get o u)).
    destruct (run o (k _)); simpl in *; econstructor; simpl; eauto.
  - destruct (run o k); simpl in *; constructor; auto.
Qed.

(** ** [peq] is an equivalence, respected by [bind], [catch] and [exec];
    the monad laws hold up to [peq] *)

Section Peq.
Context {A : Type}.

#[export] Instance peq_refl : Reflexive (@peq A).
Proof. intros p; induction p; constructor; auto. Qed.

#[export] Instance peq_sym : Symmetric (@peq A).
Proof. intros p q H; induction H; constructor; auto. Qed.

#[export] Instance peq_trans : Transitive (@peq A).
Proof.
  intros p q r H1; revert r; induction H1; intros r H2; inv H2; constructor; eauto.
Qed.

#[export] Instance peq_equiv : Equivalence (@peq A) := {}.

Lemma exec_peq (w : world) (p q : prog A) evs out :
  peq p q -> exec w p evs out -> exec w q evs out.
Proof.
  intros Hpq H; revert q Hpq; induction H; intros q Hpq; inv Hpq; econstructor; eauto.
Qed.

#[export] Instance exec_proper (w : world) : Proper (peq ==> eq ==> eq ==> iff) (@exec A w).
Proof.
  intros p q Hpq evs evs' <- out out' <-; split; apply exec_peq; [|symmetry]; assumption.
Qed.
End Peq.

#[export] Instance bind_proper {A B : Type} :
  Proper (peq ==> pointwise_relation A peq ==> peq) (@bind A B).
Proof.
  intros p q Hpq f g Hfg; induction Hpq; simpl; try constructor; auto.
Qed.

#[export] Instance catch_proper {A : Type} :
  Proper (peq ==> pointwise_relation exn peq ==> peq) (@catch A).
Proof.
  intros p q Hpq f g Hfg; induction Hpq; simpl; try constructor; auto.
Qed.

Lemma bind_ret_l {A B : Type} (a : A) (f : A -> prog B) : bind (Ret a) f = f a.
Proof. reflexivity. Qed.

Lemma bind_ret_r {A : Type} (p : prog A) : peq (bind p Ret) p.
Proof. induction p; simpl; constructor; auto. Qed.

Lemma bind_assoc {A B C : Type} (p : prog A) (f : A -> prog B) (g : B -> prog C) :
  peq (bind (bind p f) g) (bind p (fun x => bind (f x) g)).
Proof. induction p; simpl; try reflexivity; constructor; auto. Qed.

(** [try { throw e } catch (x) { h(x) }] is [h(e)]; a [try] around code
    that cannot throw changes nothing. *)
Lemma catch_raise {A : Type} (e : exn) (h : exn -> prog A) : catch (Raise e) h = h e.
Proof. reflexivity. Qed.

Lemma catch_safe_id {A : Type} (p : prog A) (h : exn -> prog A) :
  safe p -> peq (catch p h) p.
Proof. induction p; simpl; intros; try contradiction; constructor; auto. Qed.

(** Inverting [exec] on programs whose head is known. *)
Ltac exec_inv :=
  repeat match goal with
  | H : exec _ (Ret _) _ _ |- _ => inv H
  | H : exec _ (Raise _) _ _ |- _ => inv H
  | H : exec _ (Log _ _ _) _ _ |- _ => inv H
  | H : exec _ (Chat _ _ _ _) _ _ |- _ => inv H
  | H : exec _ (Get _ _) _ _ |- _ => inv H
  end.

Lemma of_res_exec {A : Type} (w : world) (r : res A) evs out :
  exec w (of_res r) evs out <-> evs = [] /\ out = r.
Proof.
  destruct r; (split; [intros H; inv H; auto | intros [-> ->]; constructor]).
Qed.

(** A single chat call whose answer is the result. *)
Lemma chat_exec (w : world) key m msgs evs (out : res string) :
  exec w (Chat key m msgs of_res) evs out <->
  chat_answer w key m msgs out /\ evs = [EvChat key m msgs out].
Proof.
  split.
  - intros H; inv H; match goal with H : exec _ (of_res _) _ _ |- _ =>
      apply of_res_exec in H as [-> ->] end; auto.
  - intros [Hw ->]; econstructor; [eassumption | apply of_res_exec; auto].
Qed.

Lemma chat_keys_app (l1 l2 : list event) :
  chat_keys (l1 ++ l2) = (chat_keys l1 ++ chat_keys l2)%list.
Proof. apply flat_map_app. Qed.

Lemma chat_key_in k m msgs r evs : In (EvChat k m msgs r) evs -> In k (chat_keys evs).
Proof. intros Hin; apply in_flat_map; exists (EvChat k m msgs r); simpl; auto. Qed.

Lemma calls_app (l1 l2 : list event) : calls (l1 ++ l2) = (calls l1 ++ calls l2)%list.
Proof. apply filter_app. Qed.

#[export] Hint Rewrite chat_keys_app calls_app : js_rw.

Lemma gets_app (l1 l2 : list event) : gets (l1 ++ l2) = (gets l1 ++ gets l2)%list.
Proof. apply flat_map_app. Qed.

(** ** Programs that end within [n] steps *)

(** [bounded n p]: whatever the answers, [p] returns or throws after at
    most [n] external calls and log lines. *)
Fixpoint bounded {A : Type} (n : nat) (p : prog A) {struct p} : Prop :=
  match p with
  | Ret _ | Raise _ => True
  | Chat _ _ _ k => match n with O => False | S n' => forall r, bounded n' (k r) end
  | Get _ k => match n with O => False | S n' => forall r, bounded n' (k r) end
  | Log _ _ k => match n with O => False | S n' => bounded n' k end
  end.

Lemma bounded_mono {A : Type} (p : prog A) n m : bounded n p -> n <= m -> bounded m p.
Proof.
  revert n m; induction p as [a|e|key md msgs k IH|u k IH|ch l k IH];
    intros [|n] [|m] Hb Hle; simpl in *; auto; try contradiction; try lia.
  - intros r; apply (IH r n); [apply Hb | lia].
  - intros r; apply (IH r n); [apply Hb | lia].
  - apply (IH n); [exact Hb | lia].
Qed.

Lemma bounded_bind {A B : Type} (p : prog A) (f : A -> prog B) n m :
  bounded n p -> (forall a, bounded m (f a)) -> bounded (n + m) (bind p f).
Proof.
  revert n; induction p as [a|e|key md msgs k IH|u k IH|ch l k IH];
    intros [|n] Hb Hf; simpl in Hb; try contradiction; cbn [bind];
    try exact I; try (apply bounded_mono with m; [apply Hf | lia]).
  - intros r; exact (IH r n (Hb r) Hf).
  - intros r; exact (IH r n (Hb r) Hf).
  - exact (IH n Hb Hf).
Qed.

Lemma bounded_catch {A : Type} (p : prog A) (h : exn -> prog A) n m :
  bounded n p -> (forall e, bounded m (h e)) -> bounded (n + m) (catch p h).
Proof.
  revert n; induction p as [a|e|key md msgs k IH|u k IH|ch l k IH];
    intros [|n] Hb Hh; simpl in Hb; try contradiction; cbn [catch];
    try exact I; try (apply bounded_mono with m; [apply Hh | lia]).
  - intros r; exact (IH r n (Hb r) Hh).
  - intros r; exact (IH r n (Hb r) Hh).
  - exact (IH n Hb Hh).
Qed.

Lemma bounded_log {A : Type} ch l (k : prog A) n : bounded n k -> bounded (S n) (Log ch l k).
Proof. exact (fun H => H). Qed.

Lemma bounded_of_res {A : Type} (r : res A) : bounded 0 (of_res r).
Proof. destruct r; exact I. Qed.

#[export] Hint Resolve bounded_log bounded_of_res : js.

(** A world that answers every call. *)
Definition total (w : world) : Prop :=
  (forall key m msgs, exists r, chat_answer w key m msgs r) /\
  (forall u, exists r, get_answer w u r).

Lemma world_of_total (o : oracle) : total (world_of o).
Proof. split; intros; eexists; reflexivity. Qed.
