(* ===== verification/Weather.v ===== *)
(** * Weather: [WeatherData] and [FetchWeather] (index.tsx lines 25-34, 58-93)

    [FetchWeather] GETs [https://wttr.in/<location>?format=j1] and reads
    seven fields of the answer inside a [try] block; whatever throws (the
    request, or a read on [undefined]) is caught and the degraded object
    [{location, temperature: 0, description: "Information unavailable"}]
    is returned.  The class [WeatherSource] states what the pipeline needs
    of a weather source; [FetchWeather] is its instance. *)

From Stdlib Require Import String Ascii List ZArith Lia Bool.
From S2P Require Import Prelude JsString JsNumber JsValue Json Effects.
Import ListNotations.
Open Scope string_scope.
Open Scope js_scope.

(** The object built on either path.  The optional fields are the ones
    the degraded object leaves out; on the success path all seven keys
    are present, even when a read gave [undefined]. *)
Record WeatherData : Type := mkWeatherData {
  location : jsval;
  temperature : number;
  description : jsval;
  humidity : option number;
  windSpeed : option number;
  feelsLike : option number;
  lastUpdated : option jsval
}.

Definition opt_prop (k : string) (v : option jsval) : list (string * jsval) :=
  match v with Some x => [(k, x)] | None => [] end.

(** The object literal, keys in source order. *)
Definition weather_obj (w : WeatherData) : jsval :=
  JObj ([("location", location w); ("temperature", JNum (temperature w));
         ("description", description w)]
        ++ opt_prop "humidity" (option_map JNum (humidity w))
        ++ opt_prop "windSpeed" (option_map JNum (windSpeed w))
        ++ opt_prop "feelsLike" (option_map JNum (feelsLike w))
        ++ opt_prop "lastUpdated" (lastUpdated w))%list.

Definition unavailable : string := "Information unavailable".

(** The [catch] branch (lines 86-90). *)
Definition degraded (loc : string) : WeatherData :=
  {| location := JStr loc; temperature := Fin 0 0; description := JStr unavailable;
     humidity := None; windSpeed := None; feelsLike := None; lastUpdated := None |}.

(** The URL of line 70. *)
Definition wttr_url (loc : string) : string :=
  "https://wttr.in/" ++ encodeURIComponent loc ++ "?format=j1".

(** [axios.get(url)]: the call, and a rejection thrown at the [await]. *)
Definition axios_get (url : string) : prog jsval := Get url of_res.

(** The object literal of lines 75-83, read from [response.data]. *)
Definition weather_of_data (data : jsval) : res WeatherData :=
  loc <-? get_path data ["nearest_area"; "0"; "areaName"; "0"; "value"] ;;
  t <-? get_path data ["current_condition"; "0"; "temp_C"] ;;
  d <-? get_path data ["current_condition"; "0"; "weatherDesc"; "0"; "value"] ;;
  h <-? get_path data ["current_condition"; "0"; "humidity"] ;;
  ws <-? get_path data ["current_condition"; "0"; "windspeedKmph"] ;;
  fl <-? get_path data ["current_condition"; "0"; "FeelsLikeC"] ;;
  lu <-? get_path data ["current_condition"; "0"; "observation_time"] ;;
  Ok {| location := loc; temperature := parseFloat t; description := d;
        humidity := Some (parseFloat h); windSpeed := Some (parseFloat ws);
        feelsLike := Some (parseFloat fl); lastUpdated := Some lu |}.

Definition fetch_error_line (e : exn) : string :=
  "Error fetching weather data: " ++ show_exn e.

Definition FetchWeather (loc : string) : prog jsval :=
  catch (data <- axios_get (wttr_url loc) ;;
         of_res (res_map weather_obj (weather_of_data data)))
        (fun e => Log Stderr (fetch_error_line e) (Ret (weather_obj (degraded loc)))).

(** What [FetchWeather] returns for an answer [r] of the GET. *)
Definition fetch_result (loc : string) (r : res jsval) : jsval :=
  match res_bind r weather_of_data with
  | Ok w => weather_obj w
  | Err _ => weather_obj (degraded loc)
  end.

(** The log lines [FetchWeather] writes for an answer [r]. *)
Definition fetch_logs (r : res jsval) : list event :=
  match res_bind r weather_of_data with
  | Ok _ => []
  | Err e => [EvLog Stderr (fetch_error_line e)]
  end.

(** What follows the GET, once its answer [r] is known. *)
Definition fetch_cont (loc : string) (r : res jsval) : prog jsval :=
  match res_bind r weather_of_data with
  | Ok w => Ret (weather_obj w)
  | Err e => Log Stderr (fetch_error_line e) (Ret (weather_obj (degraded loc)))
  end.

(** An answer with the arrays the code indexes but none of the fields
    it reads, and the object [FetchWeather] makes of it. *)
Definition sparse_doc : jsval :=
  JObj [("nearest_area", JArr [JObj [("areaName", JArr [JObj []])]]);
        ("current_condition", JArr [JObj [("weatherDesc", JArr [JObj []])]])].

Definition sparse_weather : WeatherData :=
  {| location := JUndefined; temperature := NaN; description := JUndefined;
     humidity := Some NaN; windSpeed := Some NaN; feelsLike := Some NaN;
     lastUpdated := Some JUndefined |}.

(** A wttr.in answer for Paris, cut to the fields the code reads. *)
Definition paris_doc : jsval :=
  JObj [("current_condition",
         JArr [JObj [("FeelsLikeC", JStr "14"); ("humidity", JStr "72");
                     ("observation_time", JStr "09:00 AM"); ("temp_C", JStr "15");
                     ("weatherDesc", JArr [JObj [("value", JStr "Sunny")]]);
                     ("windspeedKmph", JStr "11")]]);
        ("nearest_area", JArr [JObj [("areaName", JArr [JObj [("value", JStr "Paris")]])]])].

Definition wttr_world (doc : jsval) : oracle :=
  mkOracle (fun _ _ _ => Ok "") (fun _ => Ok doc).

(** ** What the pipeline relies on *)

Class WeatherSource : Type := {
  fetch_weather : string -> prog jsval;
  fetch_weather_safe : forall loc, safe (fetch_weather loc);
  fetch_weather_no_chat : forall loc, no_chat (fetch_weather loc);
  fetch_weather_object : forall w loc evs v,
    exec w (fetch_weather loc) evs (Ok v) -> is_object v = true
}.

(** ** Behaviour of [FetchWeather] on every branch *)

Lemma FetchWeather_peq (loc : string) :
  peq (FetchWeather loc) (Get (wttr_url loc) (fetch_cont loc)).
Proof.
  unfold FetchWeather, axios_get, fetch_cont; simpl; constructor.
  intros [data|e]; simpl; [destruct (weather_of_data data)|]; reflexivity.
Qed.

Lemma fetch_cont_exec (w : world) (loc : string) r evs out :
  exec w (fetch_cont loc r) evs out <->
  evs = fetch_logs r /\ out = Ok (fetch_result loc r).
Proof.
  unfold fetch_cont, fetch_logs, fetch_result.
  destruct (res_bind r weather_of_data);
    (split; [intros H; exec_inv; auto | intros [-> ->]; repeat constructor]).
Qed.

Lemma FetchWeather_exec_inv (w : world) (loc : string) evs out :
  exec w (FetchWeather loc) evs out ->
  exists r, get_answer w (wttr_url loc) r /\
            evs = EvGet (wttr_url loc) r :: fetch_logs r /\
            out = Ok (fetch_result loc r).
Proof.
  rewrite (FetchWeather_peq loc); intros H; inv H.
  apply fetch_cont_exec in H5 as [-> ->]; eauto.
Qed.

(** C6: the fetch makes one GET of the wttr.in URL and returns
    [fetch_result]: the object read from the answer, or the degraded
    object when the request or a read threw, in which case one error line
    is logged. *)
Theorem FetchWeather_exec (w : world) (loc : string) evs out :
  exec w (FetchWeather loc) evs out <->
  exists r, get_answer w (wttr_url loc) r /\
            evs = EvGet (wttr_url loc) r :: fetch_logs r /\
            out = Ok (fetch_result loc r).
Proof.
  split; [apply FetchWeather_exec_inv |].
  rewrite (FetchWeather_peq loc).
  intros (r & Hr & -> & ->); constructor; [assumption | apply fetch_cont_exec; auto].
Qed.

Lemma FetchWeather_safe (loc : string) : safe (FetchWeather loc).
Proof.
  unfold FetchWeather; apply safe_catch; intros e; simpl; exact I.
Qed.

Lemma FetchWeather_no_chat (loc : string) : no_chat (FetchWeather loc).
Proof.
  unfold FetchWeather, axios_get; simpl; intros [data|e]; simpl; [|exact I].
  destruct (weather_of_data data); simpl; exact I.
Qed.

Lemma FetchWeather_object (w : world) (loc : string) evs v :
  exec w (FetchWeather loc) evs (Ok v) -> is_object v = true.
Proof.
  intros (r & _ & _ & Hv)%FetchWeather_exec_inv; injection Hv as ->.
  unfold fetch_result; destruct (res_bind r weather_of_data); reflexivity.
Qed.

(** [FetchWeather] ends after the GET and at most one log line. *)
Lemma FetchWeather_bounded (loc : string) : bounded 2 (FetchWeather loc).
Proof.
  unfold FetchWeather; apply (bounded_catch _ _ 1 1); [| intros; exact I].
  apply (bounded_bind _ _ 1 0); [intros r; apply bounded_of_res | intros; apply bounded_of_res].
Qed.

#[export] Instance FetchWeather_source : WeatherSource := {
  fetch_weather := FetchWeather;
  fetch_weather_safe := FetchWeather_safe;
  fetch_weather_no_chat := FetchWeather_no_chat;
  fetch_weather_object := FetchWeather_object
}.

Lemma calls_fetch_logs (r : res jsval) : calls (fetch_logs r) = [].
Proof. unfold fetch_logs; destruct (res_bind r weather_of_data); reflexivity. Qed.

Lemma gets_fetch_logs (r : res jsval) : gets (fetch_logs r) = [].
Proof. unfold fetch_logs; destruct (res_bind r weather_of_data); reflexivity. Qed.

Lemma wttr_url_inj (l1 l2 : string) : wttr_url l1 = wttr_url l2 -> l1 = l2.
Proof.
  unfold wttr_url; intros H.
  apply str_app_inv_l, str_app_inv_r, encodeURIComponent_inj in H; exact H.
Qed.

(** The reads of lines 76-82 from an answer whose area name and
    weather description entries are objects: none throws, and the
    location and description are what those objects hold under
    ["value"], [undefined] when they hold nothing. *)
Lemma weather_of_data_reads (data : jsval) area cc desc :
  get_path data ["nearest_area"; "0"; "areaName"; "0"] = Ok (JObj area) ->
  get_path data ["current_condition"; "0"] = Ok (JObj cc) ->
  get_path (JObj cc) ["weatherDesc"; "0"] = Ok (JObj desc) ->
  exists wd, weather_of_data data = Ok wd /\
    Ok (location wd) = get (JObj area) "value" /\ Ok (description wd) = get (JObj desc) "value".
Proof.
  intros H1 H2 H3; unfold weather_of_data.
  change ["nearest_area"; "0"; "areaName"; "0"; "value"]
    with (["nearest_area"; "0"; "areaName"; "0"] ++ ["value"])%list.
  change ["current_condition"; "0"; "weatherDesc"; "0"; "value"]
    with (["current_condition"; "0"] ++ ["weatherDesc"; "0"] ++ ["value"])%list.
  change ["current_condition"; "0"; "temp_C"] with (["current_condition"; "0"] ++ ["temp_C"])%list.
  change ["current_condition"; "0"; "humidity"] with (["current_condition"; "0"] ++ ["humidity"])%list.
  change ["current_condition"; "0"; "windspeedKmph"] with (["current_condition"; "0"] ++ ["windspeedKmph"])%list.
  change ["current_condition"; "0"; "FeelsLikeC"] with (["current_condition"; "0"] ++ ["FeelsLikeC"])%list.
  change ["current_condition"; "0"; "observation_time"]
    with (["current_condition"; "0"] ++ ["observation_time"])%list.
  rewrite !get_path_app, H1, H2; cbn [res_bind]; rewrite get_path_app, H3; cbn.
  eexists; split; [reflexivity | split; reflexivity].
Qed.

(** C19: a malformed answer does not always give the degraded object,
    and the location and description are not always populated (spec
    3 and 4.2 say both).  Whenever the GET answers a document in which
    [nearest_area[0].areaName[0]], [current_condition[0]] and its
    [weatherDesc[0]] are objects, nothing is logged and the object
    returned has as location and description whatever those objects
    hold under ["value"]: [undefined] when the key is missing (which
    [JSON.stringify] then leaves out of the prompt), a number or an
    object when the answer has one there. *)
Theorem FetchWeather_missing_fields (w : world) loc evs v data area cc desc :
  exec w (FetchWeather loc) evs (Ok v) -> In (EvGet (wttr_url loc) (Ok data)) evs ->
  get_path data ["nearest_area"; "0"; "areaName"; "0"] = Ok (JObj area) ->
  get_path data ["current_condition"; "0"] = Ok (JObj cc) ->
  get_path (JObj cc) ["weatherDesc"; "0"] = Ok (JObj desc) ->
  evs = [EvGet (wttr_url loc) (Ok data)] /\
  get v "location" = get (JObj area) "value" /\ get v "description" = get (JObj desc) "value".
Proof.
  intros (r & _ & -> & [= ->])%FetchWeather_exec_inv Hin H1 H2 H3.
  destruct Hin as [[= ->]|Hin];
    [| unfold fetch_logs in Hin; destruct (res_bind r weather_of_data); cbn in Hin; intuition discriminate].
  destruct (weather_of_data_reads data area cc desc H1 H2 H3) as (wd & E & Hl & Hd).
  unfold fetch_logs, fetch_result; cbn [res_bind]; rewrite E; split; [reflexivity |].
  rewrite <- Hl, <- Hd; split; reflexivity.
Qed.

(** ** Witnesses *)

Lemma FetchWeather_exec_witness :
  exec (world_of (wttr_world sparse_doc)) (FetchWeather "Paris")
       [EvGet (wttr_url "Paris") (Ok sparse_doc)] (Ok (fetch_result "Paris" (Ok sparse_doc))).
Proof.
  apply (proj2 (FetchWeather_exec (world_of (wttr_world sparse_doc)) "Paris" _ _)).
  exists (Ok sparse_doc); repeat split; reflexivity.
Defined.

Lemma FetchWeather_missing_fields_witness :
  exec (world_of (wttr_world sparse_doc)) (FetchWeather "Paris")
       [EvGet (wttr_url "Paris") (Ok sparse_doc)] (Ok (fetch_result "Paris" (Ok sparse_doc))) /\
  [EvGet (wttr_url "Paris") (Ok sparse_doc)] = [EvGet (wttr_url "Paris") (Ok sparse_doc)] /\
  get (fetch_result "Paris" (Ok sparse_doc)) "location" = Ok JUndefined /\
  get (fetch_result "Paris" (Ok sparse_doc)) "description" = Ok JUndefined.
Proof.
  assert (Hx : exec (world_of (wttr_world sparse_doc)) (FetchWeather "Paris")
                 [EvGet (wttr_url "Paris") (Ok sparse_doc)] (Ok (fetch_result "Paris" (Ok sparse_doc))))
    by exact (run_exec (wttr_world sparse_doc) (FetchWeather "Paris")).
  split; [exact Hx |].
  exact (FetchWeather_missing_fields _ _ _ _ sparse_doc [] [("weatherDesc", JArr [JObj []])] []
           Hx (or_introl eq_refl) eq_refl eq_refl eq_refl).
Defined.
