(* ===== verification/Types.v ===== *)
(** * Types: the TypeScript types the program declares
      (index.tsx lines 26-40, 59-62, 96-100)

    The interfaces of the props and outputs of the components, as types
    of a small structural type language, and [has_type], the check of a
    JavaScript value against one.  TypeScript erases these types: nothing
    checks at run time that [FetchWeather] returns a [WeatherData], and
    [WeatherAgent] casts its result with [as WeatherData] (line 135).
    The theorems say when the value really has the declared type.

    A property marked [?] may be absent or [undefined]; a required
    property must be present with a value of its type (strict null
    checks); an object may have more properties than its type lists. *)

From Stdlib Require Import String List Bool Btauto.
From S2P Require Import Prelude JsNumber JsValue Effects Weather.
Import ListNotations.
Open Scope string_scope.

Inductive ty : Type :=
| TString
| TNumber
| TObj (fields : list (string * bool * ty)).   (* key, optional, type *)

Definition is_undefined (v : jsval) : bool :=
  match v with JUndefined => true | _ => false end.

Fixpoint has_type (v : jsval) (t : ty) : bool :=
  match t with
  | TString => match v with JStr _ => true | _ => false end
  | TNumber => match v with JNum _ => true | _ => false end
  | TObj fs =>
      match v with
      | JObj ps =>
          (fix fields (fs : list (string * bool * ty)) : bool :=
             match fs with
             | [] => true
             | (k, opt, t') :: fs' =>
                 (match assoc_get ps k with
                  | None => opt
                  | Some x => (opt && is_undefined x) || has_type x t'
                  end) && fields fs'
             end) fs
      | _ => false
      end
  end.

(** [interface WeatherData], lines 26-34. *)
Definition WeatherData_t : ty :=
  TObj [("location", false, TString); ("temperature", false, TNumber);
        ("description", false, TString); ("humidity", true, TNumber);
        ("windSpeed", true, TNumber); ("feelsLike", true, TNumber);
        ("lastUpdated", true, TString)].

(** Lines 37-40. *)
Definition ExtractLocationProps_t : ty := TObj [("userInput", false, TString)].
Definition ExtractLocationOutput_t : ty := TString.

(** Lines 59-62. *)
Definition FetchWeatherProps_t : ty := TObj [("location", false, TString)].
Definition FetchWeatherOutput_t : ty := WeatherData_t.

(** Lines 96-100. *)
Definition GenerateResponseProps_t : ty :=
  TObj [("weatherData", false, WeatherData_t); ("userInput", false, TString)].
Definition GenerateResponseOutput_t : ty := TString.

(** ** The object [FetchWeather] builds *)

(** What the declared type asks of the fields the code does not compute
    itself: the area name, the description and the observation time read
    from the answer must be strings (the time may also be [undefined]).
    The numeric fields are numbers by construction: [parseFloat] always
    returns one. *)
Definition wd_typed (wd : WeatherData) : bool :=
  has_type (location wd) TString && has_type (description wd) TString &&
  match lastUpdated wd with
  | None => true
  | Some x => is_undefined x || has_type x TString
  end.

Lemma weather_obj_type (wd : WeatherData) :
  has_type (weather_obj wd) WeatherData_t = wd_typed wd.
Proof.
  destruct wd as [l t d h ws fl lu]; unfold wd_typed;
    destruct h, ws, fl, lu; cbn; btauto.
Qed.

(** Where lines 76-82 read the seven fields in a wttr.in answer. *)
Definition area_path : list string := ["nearest_area"; "0"; "areaName"; "0"; "value"].
Definition desc_path : list string := ["current_condition"; "0"; "weatherDesc"; "0"; "value"].
Definition obs_path : list string := ["current_condition"; "0"; "observation_time"].
Definition read_paths : list (list string) :=
  [area_path; ["current_condition"; "0"; "temp_C"]; desc_path; ["current_condition"; "0"; "humidity"];
   ["current_condition"; "0"; "windspeedKmph"]; ["current_condition"; "0"; "FeelsLikeC"]; obs_path].

(** What the answer holds at [p] has type [t], or is [undefined] when
    [opt]; a read that throws has no type. *)
Definition typed_at (data : jsval) (p : list string) (opt : bool) (t : ty) : bool :=
  match get_path data p with
  | Ok x => (opt && is_undefined x) || has_type x t
  | Err _ => false
  end.

(** Splits on the reads of [weather_of_data], in source order. *)
Ltac read_split :=
  match goal with
  | |- context [res_bind (get_path ?d ?p) _] => destruct (get_path d p) eqn:?; cbn [res_bind]
  end.

(** The reads of [weather_of_data] throw exactly when one of the seven
    paths meets [undefined] or [null]; otherwise the object holds what
    the answer has at the three paths the type constrains. *)
Lemma weather_of_data_cases (data : jsval) :
  ((exists p e, In p read_paths /\ get_path data p = Err e) /\ exists e, weather_of_data data = Err e) \/
  ((forall p e, In p read_paths -> get_path data p <> Err e) /\
   exists wd, weather_of_data data = Ok wd /\
     wd_typed wd = typed_at data area_path false TString && typed_at data desc_path false TString &&
                   typed_at data obs_path true TString).
Proof.
  unfold weather_of_data, typed_at, read_paths, area_path, desc_path, obs_path.
  repeat read_split;
    first [ left; split; [do 2 eexists; split; [| eassumption]; cbn; tauto | eexists; reflexivity]
          | right; split;
            [intros p e Hp; cbn in Hp; repeat destruct Hp as [<-|Hp]; [congruence .. | contradiction]
            | eexists; split; [reflexivity |]; repeat match goal with H : get_path _ _ = Ok _ |- _ => rewrite H; clear H end;
              reflexivity] ].
Qed.

(** C18: what [FetchWeather] returns has its declared type [WeatherData]
    exactly when the GET failed, or a read of lines 76-82 threw, or the
    answer holds a string at [nearest_area[0].areaName[0].value] and at
    [current_condition[0].weatherDesc[0].value] and a string or nothing
    at [current_condition[0].observation_time]: the degraded object
    always has the type, the numeric fields always do ([parseFloat]
    returns a number), and the cast [as WeatherData] of line 135 is
    wrong on every other answer. *)
Theorem FetchWeather_typed (w : world) (loc : string) evs v r :
  exec w (FetchWeather loc) evs (Ok v) -> In (EvGet (wttr_url loc) r) evs ->
  has_type v FetchWeatherOutput_t = true <->
  match r with
  | Err _ => True
  | Ok data =>
      (exists p e, In p read_paths /\ get_path data p = Err e) \/
      (typed_at data area_path false TString && typed_at data desc_path false TString &&
       typed_at data obs_path true TString = true)
  end.
Proof.
  intros (r' & _ & -> & [= ->])%FetchWeather_exec_inv Hin.
  destruct Hin as [[= ->]|Hin];
    [| unfold fetch_logs in Hin; destruct (res_bind r' weather_of_data); cbn in Hin; intuition discriminate].
  unfold fetch_result, FetchWeatherOutput_t; destruct r as [data|e]; cbn [res_bind]; [| tauto].
  destruct (weather_of_data_cases data) as [[Hp [e E]]|[Hp (wd & E & Ht)]]; rewrite E.
  - split; [intros _; left; exact Hp | reflexivity].
  - rewrite weather_obj_type, Ht; split; [intros H; right; exact H |].
    intros [(p & e & Hin & He)|H]; [destruct (Hp p e Hin He) | exact H].
Qed.

Lemma FetchWeather_typed_witness :
  exec (world_of (wttr_world sparse_doc)) (FetchWeather "Paris")
       [EvGet (wttr_url "Paris") (Ok sparse_doc)] (Ok (weather_obj sparse_weather)) /\
  In (EvGet (wttr_url "Paris") (Ok sparse_doc)) [EvGet (wttr_url "Paris") (Ok sparse_doc)] /\
  (has_type (weather_obj sparse_weather) FetchWeatherOutput_t = true <->
   (exists p e, In p read_paths /\ get_path sparse_doc p = Err e) \/
   (typed_at sparse_doc area_path false TString && typed_at sparse_doc desc_path false TString &&
    typed_at sparse_doc obs_path true TString = true)).
Proof.
  assert (Hx : exec (world_of (wttr_world sparse_doc)) (FetchWeather "Paris")
                 [EvGet (wttr_url "Paris") (Ok sparse_doc)] (Ok (weather_obj sparse_weather)))
    by exact (run_exec (wttr_world sparse_doc) (FetchWeather "Paris")).
  assert (Hin : In (EvGet (wttr_url "Paris") (Ok sparse_doc)) [EvGet (wttr_url "Paris") (Ok sparse_doc)])
    by (left; reflexivity).
  split; [exact Hx | split; [exact Hin | exact (FetchWeather_typed _ _ _ _ _ Hx Hin)]].
Defined.
