(* ===== verification/JsonRead.v ===== *)
(** * JsonRead: reading back the weather message

    [GenerateResponse] hands the model the weather object as the text
    [JSON.stringify(weatherData, null, 2)] (index.tsx line 115).  This
    file gives a reader for the JSON objects of that message (members
    whose values are strings, numbers or [null], in any white space),
    [read_object], and proves that it reads the text of a weather object
    back as the members JSON.parse would give: the properties in order,
    [undefined] ones left out, non-finite numbers as [null].  So the
    message loses nothing of the object: every present field, with its
    exact value, is in it.

    The reader is not part of the program (which never parses JSON); it
    is the reference the serialisation is measured against. *)

From Stdlib Require Import String Ascii List ZArith Lia Bool.
From S2P Require Import Prelude JsString JsNumber JsValue Json Effects Weather Types.
Import ListNotations.
Open Scope string_scope.
Open Scope js_scope.

(** ** The reader *)

Definition is_json_ws (c : ascii) : bool :=
  (Nat.eqb (code c) 32 || Nat.eqb (code c) 10 || Nat.eqb (code c) 13 || Nat.eqb (code c) 9)%bool.

Fixpoint skip_ws (s : string) : string :=
  match s with
  | String c s' => if is_json_ws c then skip_ws s' else s
  | EmptyString => EmptyString
  end.

(** The longest run of number characters. *)
Fixpoint take_num (s : string) : string * string :=
  match s with
  | String c s' =>
      if is_num_char c then let '(n, r) := take_num s' in (String c n, r) else (EmptyString, s)
  | EmptyString => (EmptyString, EmptyString)
  end.

(** A member value: a string literal, [null], or a number. *)
Definition read_value (s : string) : option (jsval * string) :=
  match s with
  | String c s' =>
      if Ascii.eqb c quote_char then
        match unquote_body s' with Some (r, rest) => Some (JStr r, rest) | None => None end
      else if String.prefix "null" s then Some (JNull, str_drop 4 s)
      else match take_num s with
           | (EmptyString, _) => None
           | (n, rest) => Some (JNum (parseFloat_str n), rest)
           end
  | EmptyString => None
  end.

(** The members after the opening brace, up to the closing one. *)
Fixpoint read_members (fuel : nat) (s : string) : option (list (string * jsval) * string) :=
  match fuel with
  | O => None
  | S f =>
      match skip_ws s with
      | String q s1 =>
          if Ascii.eqb q quote_char then
            match unquote_body s1 with
            | Some (k, r1) =>
                match skip_ws r1 with
                | String colon r2 =>
                    if Ascii.eqb colon ":" then
                      match read_value (skip_ws r2) with
                      | Some (v, r3) =>
                          match skip_ws r3 with
                          | String sep r4 =>
                              if Ascii.eqb sep "," then
                                match read_members f r4 with
                                | Some (ms, r5) => Some ((k, v) :: ms, r5)
                                | None => None
                                end
                              else if Ascii.eqb sep "}" then Some ([(k, v)], r4)
                              else None
                          | EmptyString => None
                          end
                      | None => None
                      end
                    else None
                | EmptyString => None
                end
            | None => None
            end
          else None
      | EmptyString => None
      end
  end.

(** A whole text that is one object. *)
Definition read_object (s : string) : option (list (string * jsval)) :=
  match skip_ws s with
  | String b s1 =>
      if Ascii.eqb b "{" then
        match skip_ws s1 with
        | String e s2 =>
            if Ascii.eqb e "}" then
              (if String.eqb (skip_ws s2) EmptyString then Some [] else None)
            else
              match read_members (String.length s) s1 with
              | Some (ms, rest) => if String.eqb (skip_ws rest) EmptyString then Some ms else None
              | None => None
              end
        | EmptyString => None
        end
      else None
  | EmptyString => None
  end.

(** ** What JSON.parse gives back for a member *)

Definition json_view (v : jsval) : option jsval :=
  match v with
  | JUndefined => None
  | JNum x => Some (if is_finite x then JNum x else JNull)
  | _ => Some v
  end.

Definition view_members (ps : list (string * jsval)) : list (string * jsval) :=
  flat_map (fun '(k, v) => match json_view v with Some j => [(k, j)] | None => [] end) ps.

(** ** Reading one value *)

(** Where a number's characters stop. *)
Definition stops_num (s : string) : bool :=
  match s with String c _ => negb (is_num_char c) | EmptyString => true end.

Lemma take_num_app (t rest : string) :
  all_chars is_num_char t = true -> stops_num rest = true -> take_num (t ++ rest) = (t, rest).
Proof.
  intros Ht Hr; induction t as [|c t IH].
  - destruct rest as [|c r]; [reflexivity |]; simpl in *.
    apply negb_true_iff in Hr; rewrite Hr; reflexivity.
  - simpl in Ht |- *; apply andb_true_iff in Ht as [Hc Ht]; rewrite Hc, IH by exact Ht; reflexivity.
Qed.

Lemma num_char_neq (c d : ascii) : is_num_char c = true -> is_num_char d = false -> Ascii.eqb c d = false.
Proof. intros Hc Hd; destruct (Ascii.eqb_spec c d); [subst; congruence | reflexivity]. Qed.

Lemma read_value_quote (s rest : string) : read_value (quote s ++ rest) = Some (JStr s, rest).
Proof.
  unfold quote; rewrite !str_app_assoc.
  change (read_value (String quote_char (quote_body s ++ dq ++ rest)) = Some (JStr s, rest)).
  cbn [read_value]; rewrite Ascii.eqb_refl, unquote_body_quote; reflexivity.
Qed.

Lemma read_value_null (rest : string) : read_value ("null" ++ rest) = Some (JNull, rest).
Proof. destruct rest; reflexivity. Qed.

(** The text of a finite number in normal form: number characters, at
    least one, that [parseFloat] reads back. *)
Lemma num_text (x : number) :
  normal x -> is_finite x = true ->
  exists c t, to_string x = String c t /\ is_num_char c = true /\
              all_chars is_num_char t = true /\ parseFloat_str (String c t) = x.
Proof.
  intros Hn Hf.
  assert (Hp : parseFloat_str (to_string x) = x).
  { destruct x as [| | |m e]; try discriminate.
    destruct Hn as [[-> ->]|Hm]; [reflexivity | apply parseFloat_to_string_fin, Hm]. }
  pose proof (to_string_num_chars x Hf) as Hc.
  destruct (to_string x) as [|c t]; [destruct x; discriminate |].
  apply andb_true_iff in Hc as [Hc Ht]; exists c, t; auto.
Qed.

Lemma read_value_num (x : number) (rest : string) :
  normal x -> is_finite x = true -> stops_num rest = true ->
  read_value (to_string x ++ rest) = Some (JNum x, rest).
Proof.
  intros Hn Hf Hr; destruct (num_text x Hn Hf) as (c & t & -> & Hc & Ht & Hp).
  cbn [append read_value]; rewrite (num_char_neq c quote_char Hc eq_refl).
  cbn [String.prefix]; destruct (ascii_dec "n" c) as [<-|_]; [discriminate |].
  change (String c (t ++ rest)) with (String c t ++ rest).
  rewrite take_num_app by first [exact Hr | cbn [all_chars]; rewrite Hc; exact Ht].
  rewrite Hp; reflexivity.
Qed.

(** ** Reading the members of an object *)

(** A member as [ser] writes it, and what a value text must satisfy:
    it reads back as [j] before any stop of a number, and it starts with
    no white space. *)
Definition member_text (k t : string) : string := quote k ++ ": " ++ t.

Definition item_ok (t : string) (j : jsval) : Prop :=
  (forall r, stops_num r = true -> read_value (t ++ r) = Some (j, r)) /\
  (forall r, skip_ws (t ++ r) = t ++ r).

Lemma read_one_member fuel k t j cont :
  item_ok t j -> stops_num cont = true ->
  read_members (S fuel) (nl ++ gap ++ member_text k t ++ cont) =
  match skip_ws cont with
  | String sep r4 =>
      if Ascii.eqb sep "," then
        match read_members fuel r4 with
        | Some (ms, r5) => Some ((k, j) :: ms, r5)
        | None => None
        end
      else if Ascii.eqb sep "}" then Some ([(k, j)], r4)
      else None
  | EmptyString => None
  end.
Proof.
  intros [Hr Hw] Hc.
  assert (E : nl ++ gap ++ member_text k t ++ cont =
              String (ascii_of_nat 10) (String " " (String " "
                (String quote_char (quote_body k ++ dq ++ String ":" (String " " (t ++ cont))))))).
  { unfold member_text, quote; rewrite !str_app_assoc; reflexivity. }
  rewrite E; cbn [read_members].
  change (skip_ws (String (ascii_of_nat 10) (String " " (String " " (String quote_char ?X)))))
    with (String quote_char X).
  cbv beta iota; rewrite Ascii.eqb_refl, unquote_body_quote.
  change (skip_ws (String ":" ?X)) with (String ":" X); cbv beta iota; rewrite Ascii.eqb_refl.
  change (skip_ws (String " " ?X)) with (skip_ws X); rewrite Hw, Hr by exact Hc.
  reflexivity.
Qed.

Lemma skip_comma (X : string) : skip_ws ("," ++ X) = String "," X.
Proof. reflexivity. Qed.

Definition sep2 : string := "," ++ nl ++ gap.

(** The members [ser] writes, one per line, read back in order. *)
Lemma read_members_items (items : list (string * string * jsval)) fuel rest :
  items <> [] -> Forall (fun it => item_ok (snd (fst it)) (snd it)) items ->
  List.length items <= fuel ->
  read_members fuel
    (nl ++ gap ++ str_join sep2 (map (fun it => member_text (fst (fst it)) (snd (fst it))) items) ++
     nl ++ "}" ++ rest) =
  Some (map (fun it => (fst (fst it), snd it)) items, rest).
Proof.
  revert fuel; induction items as [|[[k t] j] items IH]; intros fuel Hne Hok Hf; [congruence |].
  destruct fuel as [|fuel]; [simpl in Hf; lia |].
  inversion Hok as [|? ? Hit Hok']; subst; simpl in Hit.
  destruct items as [|it2 items].
  - cbn [map str_join]; rewrite (read_one_member fuel k t j) by (exact Hit || reflexivity); reflexivity.
  - cbn [map str_join]; fold (str_join sep2 (map (fun it => member_text (fst (fst it)) (snd (fst it))) (it2 :: items))).
    rewrite !str_app_assoc, (read_one_member fuel k t j) by (exact Hit || reflexivity).
    unfold sep2; rewrite !str_app_assoc, skip_comma, Ascii.eqb_refl.
    rewrite IH by (simpl in *; auto || congruence || lia); reflexivity.
Qed.

(** ** The members [ser] writes for an object *)

Lemma own_keys_plain (ps : list (string * jsval)) :
  Forall (fun kv => array_index (fst kv) = None) ps -> own_keys ps = map fst ps.
Proof.
  intros H; unfold own_keys.
  assert (E1 : fold_right (fun kv acc => match array_index (fst kv) with
                                         | Some i => insert_index (i, fst kv) acc
                                         | None => acc end) [] ps = [])
    by (induction H as [|kv ps Hk _ IH]; simpl; [reflexivity | rewrite Hk; exact IH]).
  rewrite E1; clear E1; simpl; induction H as [|kv ps Hk _ IH]; simpl; [reflexivity |].
  rewrite Hk; simpl; f_equal; exact IH.
Qed.

(** With distinct keys, looking each key up finds its own value. *)
Lemma lookup_members (ind : string) (ps : list (string * jsval)) :
  NoDup (map fst ps) ->
  flat_map (fun k => match assoc_ser (map (fun '(k, x) => (k, ser ind x)) ps) k with
                     | Some (Some t) => [quote k ++ ": " ++ t]
                     | _ => []
                     end) (map fst ps) =
  flat_map (fun '(k, x) => match ser ind x with Some t => [quote k ++ ": " ++ t] | None => [] end) ps.
Proof.
  induction ps as [|[k x] ps IH]; intros Hd; [reflexivity |].
  inversion Hd as [|? ? Hk Hd']; subst; cbn [map flat_map fst assoc_ser].
  rewrite String.eqb_refl; f_equal; rewrite <- IH by exact Hd'.
  apply flat_map_ext_in; intros k' Hin.
  destruct (String.eqb_spec k k'); [subst; contradiction | reflexivity].
Qed.

Definition members_of (ps : list (string * jsval)) : list string :=
  flat_map (fun '(k, x) => match ser gap x with Some t => [quote k ++ ": " ++ t] | None => [] end) ps.

Lemma ser_object (ps : list (string * jsval)) :
  Forall (fun kv => array_index (fst kv) = None) ps -> NoDup (map fst ps) ->
  stringify2 (JObj ps) =
  Some (match members_of ps with
        | [] => "{}"
        | _ => "{" ++ nl ++ gap ++ str_join sep2 (members_of ps) ++ nl ++ "}"
        end).
Proof.
  intros Hk Hd; unfold stringify2; cbn [ser append].
  rewrite own_keys_plain, lookup_members by assumption; fold (members_of ps).
  destruct (members_of ps); reflexivity.
Qed.

(** ** Values the reader accepts *)

(** The values a weather object holds: strings, [null], [undefined] and
    numbers in normal form. *)
Definition value_ok (v : jsval) : Prop :=
  match v with
  | JUndefined | JNull | JStr _ => True
  | JNum x => normal x
  | _ => False
  end.

Lemma num_not_ws (c : ascii) : is_num_char c = true -> is_json_ws c = false.
Proof.
  intros H; destruct (is_json_ws c) eqn:E; [| reflexivity]; unfold is_json_ws in E.
  repeat (apply orb_true_iff in E as [E|E]); apply Nat.eqb_eq in E;
    unfold code in E; rewrite <- (ascii_nat_embedding c), E in H; discriminate.
Qed.

Lemma item_ok_null : item_ok "null" JNull.
Proof. split; [intros r _; apply read_value_null | reflexivity]. Qed.

(** What [ser] writes for an accepted value reads back as the value JSON
    gives; a value [ser] drops is one JSON leaves out. *)
Lemma ser_item (ind : string) (v : jsval) :
  value_ok v ->
  match ser ind v, json_view v with
  | Some t, Some j => item_ok t j
  | None, None => True
  | _, _ => False
  end.
Proof.
  destruct v as [| |[]|x|s| |]; cbn [value_ok ser json_view]; intros Hv; try tauto;
    [exact item_ok_null | | split; [intros r _; apply read_value_quote | reflexivity]].
  destruct (is_finite x) eqn:Hf; [| exact item_ok_null].
  split; [intros r Hr; apply read_value_num; assumption |].
  intros r; destruct (num_text x Hv Hf) as (c & t & -> & Hc & _).
  cbn [append skip_ws]; rewrite num_not_ws by exact Hc; reflexivity.
Qed.

(** ** The object's members as read items *)

Definition items_of (ps : list (string * jsval)) : list (string * string * jsval) :=
  flat_map (fun '(k, v) => match ser gap v, json_view v with
                           | Some t, Some j => [(k, t, j)]
                           | _, _ => []
                           end) ps.

Lemma items_of_spec (ps : list (string * jsval)) :
  Forall (fun kv => value_ok (snd kv)) ps ->
  map (fun it => member_text (fst (fst it)) (snd (fst it))) (items_of ps) = members_of ps /\
  map (fun it => (fst (fst it), snd it)) (items_of ps) = view_members ps /\
  Forall (fun it => item_ok (snd (fst it)) (snd it)) (items_of ps).
Proof.
  induction 1 as [|[k v] ps Hv _ (IH1 & IH2 & IH3)]; [repeat split; constructor |].
  pose proof (ser_item gap v Hv) as Hs; unfold items_of, members_of, view_members in *; cbn [flat_map].
  destruct (ser gap v), (json_view v); try contradiction; cbn [app map];
    rewrite ?IH1, ?IH2; repeat split; auto.
Qed.

Lemma member_text_nonempty (k t : string) : member_text k t <> EmptyString.
Proof. unfold member_text, quote; discriminate. Qed.

(** A whole object text as [ser] lays it out reads back as its items. *)
Lemma read_object_items (items : list (string * string * jsval)) :
  items <> [] -> Forall (fun it => item_ok (snd (fst it)) (snd it)) items ->
  read_object ("{" ++ nl ++ gap ++
               str_join sep2 (map (fun it => member_text (fst (fst it)) (snd (fst it))) items) ++
               nl ++ "}") =
  Some (map (fun it => (fst (fst it), snd it)) items).
Proof.
  intros Hne Hok.
  set (M := str_join sep2 _).
  assert (HL : List.length items <= String.length M).
  { unfold M; rewrite <- (length_map (fun it => member_text (fst (fst it)) (snd (fst it)))).
    apply str_join_length, Forall_forall; intros x (it & <- & _)%in_map_iff; apply member_text_nonempty. }
  pose proof (read_members_items items (String.length ("{" ++ nl ++ gap ++ M ++ nl ++ "}")) "" Hne Hok) as R.
  rewrite str_app_nil_r in R; fold M in R.
  destruct items as [|[[k t] j] items']; [congruence |].
  assert (S1 : exists X, nl ++ gap ++ M ++ nl ++ "}" = nl ++ gap ++ String quote_char X).
  { exists (quote_body k ++ dq ++ ": " ++ t ++ match items' with [] => "" | _ => sep2 ++ str_join sep2 (map (fun it => member_text (fst (fst it)) (snd (fst it))) items') end ++ nl ++ "}").
    unfold M; destruct items'; cbn [map str_join]; unfold member_text, quote; rewrite !str_app_assoc; reflexivity. }
  destruct S1 as [X EX].
  change ("{" ++ ?Y) with (String "{" Y) in R |- *.
  unfold read_object; change (skip_ws (String "{" ?Y)) with (String "{" Y).
  cbv beta iota; rewrite Ascii.eqb_refl; cbv beta iota.
  rewrite R by (simpl in HL |- *; rewrite !str_length_app; lia); rewrite EX; reflexivity.
Qed.

(** [JSON.stringify(v, null, 2)] of an object with plain, distinct keys
    and accepted values reads back as the members JSON keeps. *)
Lemma stringify2_read_object (ps : list (string * jsval)) :
  Forall (fun kv => array_index (fst kv) = None) ps -> NoDup (map fst ps) ->
  Forall (fun kv => value_ok (snd kv)) ps ->
  exists t, stringify2 (JObj ps) = Some t /\ read_object t = Some (view_members ps).
Proof.
  intros Hk Hd Hv; rewrite ser_object by assumption.
  destruct (items_of_spec ps Hv) as (E1 & E2 & E3); rewrite <- E1, <- E2.
  destruct (items_of ps) as [|it its] eqn:Ei; [eexists; split; reflexivity |].
  eexists; split; [reflexivity |]; apply read_object_items; [discriminate | exact E3].
Qed.

(** ** The weather object in the message *)

Definition opt_ok {A} (P : A -> Prop) (o : option A) : Prop :=
  match o with Some x => P x | None => True end.

(** The fields of a [WeatherData] the reader accepts. *)
Definition wd_ok (wd : WeatherData) : Prop :=
  value_ok (location wd) /\ normal (temperature wd) /\ value_ok (description wd) /\
  opt_ok normal (humidity wd) /\ opt_ok normal (windSpeed wd) /\ opt_ok normal (feelsLike wd) /\
  opt_ok value_ok (lastUpdated wd).

Lemma weather_obj_read (wd : WeatherData) :
  wd_ok wd ->
  exists ps t, weather_obj wd = JObj ps /\ stringify2 (JObj ps) = Some t /\
               read_object t = Some (view_members ps).
Proof.
  destruct wd as [l tp d h ws fl lu]; intros (Hl & Ht & Hd & Hh & Hw & Hf & Hu); cbn [location temperature description humidity windSpeed feelsLike lastUpdated opt_ok] in *.
  unfold weather_obj; cbn [location temperature description humidity windSpeed feelsLike lastUpdated].
  match goal with |- exists ps t, JObj ?P = JObj ps /\ _ =>
    destruct (stringify2_read_object P) as (t & H1 & H2); [.. | exists P, t; auto] end;
    destruct h, ws, fl, lu; cbn [opt_ok] in *;
    repeat constructor; cbn; intuition discriminate.
Qed.

Lemma weather_of_data_normal (data : jsval) (wd : WeatherData) :
  weather_of_data data = Ok wd ->
  normal (temperature wd) /\ opt_ok normal (humidity wd) /\ opt_ok normal (windSpeed wd) /\
  opt_ok normal (feelsLike wd).
Proof.
  unfold weather_of_data; intros H; repeat apply res_bind_inv in H as (? & _ & H).
  injection H as <-; cbn; unfold parseFloat; repeat split; apply parseFloat_str_normal.
Qed.

Lemma string_value_ok (x : jsval) : has_type x TString = true -> value_ok x.
Proof. destruct x; try discriminate; intros _; exact I. Qed.

(** What [FetchWeather] returns, when it has its declared type, is a
    weather object whose fields the reader accepts. *)
Lemma fetch_result_ok (loc : string) (r : res jsval) :
  has_type (fetch_result loc r) FetchWeatherOutput_t = true ->
  exists wd, fetch_result loc r = weather_obj wd /\ wd_ok wd.
Proof.
  unfold fetch_result; destruct (res_bind r weather_of_data) as [wd|e] eqn:E; intros Ht.
  - destruct r as [data|e]; [| discriminate]; cbn [res_bind] in E.
    destruct (weather_of_data_normal data wd E) as (Hn & Hh & Hw & Hf).
    unfold FetchWeatherOutput_t in Ht; rewrite weather_obj_type in Ht; unfold wd_typed in Ht.
    apply andb_true_iff in Ht as [[Hl Hd]%andb_true_iff Hu].
    exists wd; split; [reflexivity |]; unfold wd_ok; repeat split; auto using string_value_ok.
    destruct (lastUpdated wd) as [x|]; [| exact I]; cbn.
    apply orb_true_iff in Hu as [Hu|Hu]; [destruct x; try discriminate; exact I | auto using string_value_ok].
  - exists (degraded loc); split; [reflexivity |]; repeat split; cbn; auto; left; auto.
Qed.

(** The weather object reaches the model intact.  When the value
    [FetchWeather] returns has its declared type [WeatherData], the text
    [JSON.stringify(weatherData, null, 2)] that [GenerateResponse] puts in
    the prompt (line 115) is defined and reads back, by a JSON object
    reader, as the object's members in order: every present field with
    its exact value, the [undefined] ones left out and a non-finite
    number as [null]. *)
Theorem FetchWeather_message (w : world) (loc : string) evs v :
  exec w (FetchWeather loc) evs (Ok v) -> has_type v FetchWeatherOutput_t = true ->
  exists ps t, v = JObj ps /\ stringify2 v = Some t /\ read_object t = Some (view_members ps).
Proof.
  intros (r & _ & -> & [= ->])%FetchWeather_exec_inv Ht.
  destruct (fetch_result_ok loc r Ht) as (wd & -> & Hok).
  destruct (weather_obj_read wd Hok) as (ps & t & E & H1 & H2); rewrite E; eauto.
Qed.
