(* ===== verification/JsonParse.v ===== *)
(** * JsonParse: [JSON.parse] after [JSON.stringify(v, null, 2)]

    A reader for the whole JSON grammar the serialiser of [Json] writes
    (strings, numbers, [null], [true], [false], arrays and objects, with
    any white space between tokens), [read_json], and the value JSON
    gives back, [view]: [undefined] is dropped from objects and becomes
    [null] in arrays, non-finite numbers become [null], and the members
    of an object come in the order [JSON.stringify] enumerates them
    (integer-like keys first, ascending).  The theorem of the file is
    that [stringify2] followed by the reader gives [view], for every
    value whose numbers are in the normal form [parseFloat] produces.

    Like [JsonRead], the reader is a reference for the serialiser, not
    code of the program; its recursion is on fuel, and a fuel of the
    length of the text is enough. *)

From Stdlib Require Import String Ascii List ZArith Lia Bool.
From S2P Require Import Prelude JsString JsNumber JsValue Json JsonRead.
Import ListNotations.
Open Scope string_scope.
Open Scope js_scope.

(** ** The reader *)

(** The elements of an array after its opening bracket, each read by
    [rd], up to the closing bracket. *)
Fixpoint read_elems (rd : string -> option (jsval * string)) (g : nat) (s : string)
    : option (list jsval * string) :=
  match g with
  | O => None
  | S g' =>
      match rd s with
      | Some (v, r) =>
          match skip_ws r with
          | String sep r' =>
              if Ascii.eqb sep "," then
                match read_elems rd g' r' with
                | Some (vs, r'') => Some (v :: vs, r'')
                | None => None
                end
              else if Ascii.eqb sep "]" then Some ([v], r')
              else None
          | EmptyString => None
          end
      | None => None
      end
  end.

(** The members of an object after its opening brace. *)
Fixpoint read_membs (rd : string -> option (jsval * string)) (g : nat) (s : string)
    : option (list (string * jsval) * string) :=
  match g with
  | O => None
  | S g' =>
      match skip_ws s with
      | String q s1 =>
          if Ascii.eqb q quote_char then
            match unquote_body s1 with
            | Some (k, r1) =>
                match skip_ws r1 with
                | String colon r2 =>
                    if Ascii.eqb colon ":" then
                      match rd r2 with
                      | Some (v, r3) =>
                          match skip_ws r3 with
                          | String sep r4 =>
                              if Ascii.eqb sep "," then
                                match read_membs rd g' r4 with
                                | Some (ms, r5) => Some ((k, v) :: ms, r5)
                                | None => None
                                end
                              else if Ascii.eqb sep "}" then Some ([(k, v)], r4)
                              else None
                          | EmptyString => None
                          end
                      | None => None
                      end
                    else None
                | EmptyString => None
                end
            | None => None
            end
          else None
      | EmptyString => None
      end
  end.

(** A value, after any white space. *)
Fixpoint read_json (fuel : nat) (s : string) : option (jsval * string) :=
  match fuel with
  | O => None
  | S f =>
      match skip_ws s with
      | String c s1 =>
          if Ascii.eqb c "[" then
            match skip_ws s1 with
            | String e r => if Ascii.eqb e "]" then Some (JArr [], r)
                            else match read_elems (read_json f) f s1 with
                                 | Some (vs, r') => Some (JArr vs, r')
                                 | None => None
                                 end
            | EmptyString => None
            end
          else if Ascii.eqb c "{" then
            match skip_ws s1 with
            | String e r => if Ascii.eqb e "}" then Some (JObj [], r)
                            else match read_membs (read_json f) f s1 with
                                 | Some (ms, r') => Some (JObj ms, r')
                                 | None => None
                                 end
            | EmptyString => None
            end
          else if String.prefix "true" (String c s1) then Some (JBool true, str_drop 4 (String c s1))
          else if String.prefix "false" (String c s1) then Some (JBool false, str_drop 5 (String c s1))
          else read_value (String c s1)
      | EmptyString => None
      end
  end.

(** ** What JSON gives back *)

Fixpoint assoc_view (l : list (string * option jsval)) (k : string) : option (option jsval) :=
  match l with
  | [] => None
  | (k', j) :: l' => if String.eqb k' k then Some j else assoc_view l' k
  end.

Fixpoint view (v : jsval) : option jsval :=
  match v with
  | JUndefined => None
  | JNull => Some JNull
  | JBool b => Some (JBool b)
  | JNum n => Some (if is_finite n then JNum n else JNull)
  | JStr s => Some (JStr s)
  | JArr xs => Some (JArr (map (fun x => match view x with Some j => j | None => JNull end) xs))
  | JObj ps =>
      let vs := map (fun '(k, x) => (k, view x)) ps in
      Some (JObj (flat_map (fun k => match assoc_view vs k with
                                     | Some (Some j) => [(k, j)]
                                     | _ => []
                                     end) (own_keys ps)))
  end.

(** The values the theorem covers: every number in normal form. *)
Fixpoint wf (v : jsval) : Prop :=
  match v with
  | JNum x => normal x
  | JArr xs => (fix go (l : list jsval) : Prop :=
                  match l with [] => True | x :: l' => wf x /\ go l' end) xs
  | JObj ps => (fix go (l : list (string * jsval)) : Prop :=
                  match l with [] => True | (_, x) :: l' => wf x /\ go l' end) ps
  | _ => True
  end.

(** ** White space *)

Definition all_ws (w : string) : bool := all_chars is_json_ws w.

Lemma skip_ws_app (w x : string) : all_ws w = true -> skip_ws (w ++ x) = skip_ws x.
Proof.
  induction w as [|c w IH]; intros H; [reflexivity |].
  cbn [all_ws all_chars] in H; apply andb_true_iff in H as [Hc Hw].
  cbn [append skip_ws]; rewrite Hc; exact (IH Hw).
Qed.

Lemma all_ws_app (a b : string) : all_ws a = true -> all_ws b = true -> all_ws (a ++ b) = true.
Proof.
  induction a as [|c a IH]; intros Ha Hb; [exact Hb |].
  cbn [all_ws all_chars append] in *; apply andb_true_iff in Ha as [Hc Ha].
  rewrite Hc; exact (IH Ha Hb).
Qed.

Lemma all_ws_gap : all_ws gap = true.
Proof. reflexivity. Qed.

Lemma all_ws_nl : all_ws nl = true.
Proof. reflexivity. Qed.

#[export] Hint Resolve all_ws_app all_ws_gap all_ws_nl : js.

(** The reader skips leading white space. *)
Lemma read_json_ws (f : nat) (w x : string) :
  all_ws w = true -> read_json (S f) (w ++ x) = read_json (S f) x.
Proof. intros Hw; cbn [read_json]; rewrite (skip_ws_app w x Hw); reflexivity. Qed.

(** ** Reading one token *)

(** [t] read with fuel [f], after any white space and before any stop
    of a number, gives [j]. *)
Definition reads (f : nat) (t : string) (j : jsval) : Prop :=
  forall w r, all_ws w = true -> stops_num r = true -> read_json f (w ++ t ++ r) = Some (j, r).

Lemma reads_word (f : nat) (t : string) (j : jsval) :
  (forall r, read_json (S f) (t ++ r) = Some (j, r)) -> reads (S f) t j.
Proof. intros H w r Hw _; rewrite read_json_ws by exact Hw; apply H. Qed.

Lemma reads_true f : reads (S f) "true" (JBool true).
Proof. apply reads_word; intros [|c r]; reflexivity. Qed.

Lemma reads_false f : reads (S f) "false" (JBool false).
Proof. apply reads_word; intros [|c r]; reflexivity. Qed.

Lemma reads_null f : reads (S f) "null" JNull.
Proof. apply reads_word; intros r; cbn [read_json]; destruct r; reflexivity. Qed.

Lemma reads_string f (s : string) : reads (S f) (quote s) (JStr s).
Proof.
  apply reads_word; intros r; rewrite <- (read_value_quote s r).
  unfold quote; rewrite !str_app_assoc; reflexivity.
Qed.

Lemma reads_number f (x : number) :
  normal x -> is_finite x = true -> reads (S f) (to_string x) (JNum x).
Proof.
  intros Hn Hf w r Hw Hr; rewrite read_json_ws by exact Hw.
  rewrite <- (read_value_num x r Hn Hf Hr).
  destruct (num_text x Hn Hf) as (c & t & E & Hc & _ & _); rewrite E.
  cbn [append read_json skip_ws]; rewrite num_not_ws by exact Hc.
  rewrite (num_char_neq c "[" Hc eq_refl), (num_char_neq c "{" Hc eq_refl).
  cbn [String.prefix]; destruct (ascii_dec "t" c) as [<-|_]; [discriminate |].
  destruct (ascii_dec "f" c) as [<-|_]; [discriminate | reflexivity].
Qed.

(** What [ser] writes starts with a character that opens a value. *)
Definition opens (t : string) : bool :=
  match t with
  | String c _ => negb (is_json_ws c) && negb (Ascii.eqb c "]") && negb (Ascii.eqb c "}")
  | EmptyString => false
  end.

Lemma ser_opens (ind : string) (v : jsval) (t : string) :
  wf v -> ser ind v = Some t -> opens t = true.
Proof.
  destruct v as [| |[]|x|s|xs|ps]; cbn [ser wf]; intros Hv H; try discriminate;
    try (injection H as <-; reflexivity).
  - destruct (is_finite x) eqn:Hf; injection H as <-; [| reflexivity].
    destruct (num_text x Hv Hf) as (c & t' & -> & Hc & _); cbn [opens].
    rewrite num_not_ws, (num_char_neq c "]" Hc eq_refl), (num_char_neq c "}" Hc eq_refl) by exact Hc.
    reflexivity.
  - destruct (map _ xs); injection H as <-; reflexivity.
  - destruct (flat_map _ _); injection H as <-; reflexivity.
Qed.

(** ** Arrays *)

Lemma stops_nl (x : string) : stops_num (nl ++ x) = true.
Proof. reflexivity. Qed.

Lemma stops_comma (x : string) : stops_num ("," ++ x) = true.
Proof. reflexivity. Qed.

(** What an element reader [rd] must do with the text of an element. *)
Definition item_reads (rd : string -> option (jsval * string)) (t : string) (j : jsval) : Prop :=
  forall w r, all_ws w = true -> stops_num r = true -> rd (w ++ t ++ r) = Some (j, r).

(** The elements [ser] writes, one per line, read back in order. *)
Lemma read_elems_items rd g (ind' ind : string) (items : list (string * jsval)) rest :
  all_ws ind' = true -> all_ws ind = true -> items <> [] ->
  Forall (fun it => item_reads rd (fst it) (snd it)) items -> List.length items <= g ->
  read_elems rd g (nl ++ ind' ++ str_join ("," ++ nl ++ ind') (map fst items) ++ nl ++ ind ++ "]" ++ rest) =
  Some (map snd items, rest).
Proof.
  intros H' H; revert g; induction items as [|[t j] items IH]; intros g Hne Hok Hg; [congruence |].
  destruct g as [|g]; [simpl in Hg; lia |].
  inversion Hok as [|? ? Hit Hok']; subst; cbn [fst snd] in Hit.
  assert (Hw : all_ws (nl ++ ind') = true) by auto with js.
  destruct items as [|it2 items]; cbn [map str_join read_elems].
  - rewrite <- (str_app_assoc nl ind'), Hit by (exact Hw || apply stops_nl).
    rewrite <- (str_app_assoc nl ind), (skip_ws_app (nl ++ ind) ("]" ++ rest)) by auto with js.
    reflexivity.
  - fold (str_join ("," ++ nl ++ ind') (map fst (it2 :: items))).
    rewrite !str_app_assoc, <- (str_app_assoc nl ind'), Hit by (exact Hw || apply stops_comma).
    change (skip_ws ("," ++ ?X)) with (String "," X); cbv beta iota; rewrite Ascii.eqb_refl.
    rewrite IH by (simpl in *; auto || congruence || lia); reflexivity.
Qed.

(** ** Objects *)

Lemma read_membs_one rd g (ind' k t : string) (j : jsval) cont :
  all_ws ind' = true -> item_reads rd t j -> stops_num cont = true ->
  read_membs rd (S g) (nl ++ ind' ++ member_text k t ++ cont) =
  match skip_ws cont with
  | String sep r4 =>
      if Ascii.eqb sep "," then
        match read_membs rd g r4 with
        | Some (ms, r5) => Some ((k, j) :: ms, r5)
        | None => None
        end
      else if Ascii.eqb sep "}" then Some ([(k, j)], r4)
      else None
  | EmptyString => None
  end.
Proof.
  intros Hi Hr Hc; cbn [read_membs].
  rewrite <- (str_app_assoc nl ind'), (skip_ws_app (nl ++ ind')) by auto with js.
  unfold member_text, quote; rewrite !str_app_assoc.
  change (skip_ws (dq ++ ?X)) with (String quote_char X); cbv beta iota.
  rewrite Ascii.eqb_refl, unquote_body_quote.
  change (skip_ws (": " ++ ?X)) with (String ":" (" " ++ X)); cbv beta iota; rewrite Ascii.eqb_refl.
  rewrite (Hr " " cont eq_refl Hc); reflexivity.
Qed.

(** The members [ser] writes, one per line, read back in order. *)
Lemma read_membs_items rd g (ind' ind : string) (items : list (string * string * jsval)) rest :
  all_ws ind' = true -> all_ws ind = true -> items <> [] ->
  Forall (fun it => item_reads rd (snd (fst it)) (snd it)) items -> List.length items <= g ->
  read_membs rd g (nl ++ ind' ++
    str_join ("," ++ nl ++ ind') (map (fun it => member_text (fst (fst it)) (snd (fst it))) items) ++
    nl ++ ind ++ "}" ++ rest) =
  Some (map (fun it => (fst (fst it), snd it)) items, rest).
Proof.
  intros H' H; revert g; induction items as [|[[k t] j] items IH]; intros g Hne Hok Hg; [congruence |].
  destruct g as [|g]; [simpl in Hg; lia |].
  inversion Hok as [|? ? Hit Hok']; subst; cbn [fst snd] in Hit.
  destruct items as [|it2 items]; cbn [map str_join].
  - rewrite (read_membs_one rd g ind' k t j) by (assumption || apply stops_nl).
    rewrite <- (str_app_assoc nl ind), (skip_ws_app (nl ++ ind) ("}" ++ rest)) by auto with js.
    reflexivity.
  - fold (str_join ("," ++ nl ++ ind') (map (fun it => member_text (fst (fst it)) (snd (fst it))) (it2 :: items))).
    rewrite !str_app_assoc, (read_membs_one rd g ind' k t j) by (assumption || apply stops_comma).
    change (skip_ws ("," ++ ?X)) with (String "," X); cbv beta iota; rewrite Ascii.eqb_refl.
    rewrite IH by (simpl in *; auto || congruence || lia); reflexivity.
Qed.

(** ** Whole containers *)

Lemma opens_nonempty (t : string) : opens t = true -> t <> EmptyString.
Proof. destruct t; [discriminate | intros _; discriminate]. Qed.

Lemma skip_ws_opens (t x : string) :
  opens t = true -> exists c t', skip_ws (t ++ x) = String c (t' ++ x) /\ t = String c t' /\
                                 Ascii.eqb c "]" = false /\ Ascii.eqb c "}" = false.
Proof.
  destruct t as [|c t']; [discriminate |]; cbn [opens]; intros H.
  apply andb_true_iff in H as [[Hw Hb]%andb_true_iff Hc]; apply negb_true_iff in Hw, Hb, Hc.
  exists c, t'; cbn [append skip_ws]; rewrite Hw; auto.
Qed.

(** The texts of the elements or members of a container: each read
    back by a reader with more fuel than its length. *)
Definition reads_any (t : string) (j : jsval) : Prop :=
  forall f, String.length t < f -> reads f t j.

(** Fuel enough for a container is enough for each of its items. *)
Lemma items_fuel (ts : list string) (sep t : string) (f : nat) :
  In t ts -> String.length (str_join sep ts) < f -> String.length t < f.
Proof. intros Hin Hf; pose proof (str_join_in_length sep t ts Hin); lia. Qed.

Lemma str_join_head (sep x : string) (l : list string) : exists y, str_join sep (x :: l) = x ++ y.
Proof. destruct l as [|z l]; [exists ""; rewrite str_app_nil_r | exists (sep ++ str_join sep (z :: l))]; reflexivity. Qed.

Lemma reads_empty_array : reads_any "[]" (JArr []).
Proof. intros [|f] Hf w r Hw _; [simpl in Hf; lia | rewrite read_json_ws by exact Hw; reflexivity]. Qed.

Lemma reads_empty_object : reads_any "{}" (JObj []).
Proof. intros [|f] Hf w r Hw _; [simpl in Hf; lia | rewrite read_json_ws by exact Hw; reflexivity]. Qed.

(** After the opening bracket or brace and the line break, white space
    and then the first item, which opens a value. *)
Lemma skip_first (ind' : string) (sep t : string) (ts : list string) (tail : string) :
  all_ws ind' = true -> opens t = true ->
  exists c x, skip_ws (nl ++ ind' ++ str_join sep (t :: ts) ++ tail) = String c x /\
              Ascii.eqb c "]" = false /\ Ascii.eqb c "}" = false.
Proof.
  intros Hi Ho; destruct (str_join_head sep t ts) as [y ->].
  rewrite <- (str_app_assoc nl ind'), (skip_ws_app (nl ++ ind')), str_app_assoc by auto with js.
  destruct (skip_ws_opens t (y ++ tail) Ho) as (c & t' & -> & _ & Hb & Hc); eauto.
Qed.

Lemma reads_array_text (ind ind' : string) (items : list (string * jsval)) :
  all_ws ind = true -> all_ws ind' = true -> items <> [] ->
  Forall (fun it => opens (fst it) = true /\ reads_any (fst it) (snd it)) items ->
  reads_any ("[" ++ nl ++ ind' ++ str_join ("," ++ nl ++ ind') (map fst items) ++ nl ++ ind ++ "]")
            (JArr (map snd items)).
Proof.
  intros Hi Hi' Hne Hok [|f] Hf w r Hw Hr; [simpl in Hf; lia |].
  rewrite read_json_ws by exact Hw; rewrite !str_app_assoc in *.
  rewrite !str_length_app in Hf; cbn [String.length] in Hf.
  assert (HJ : List.length items <= String.length (str_join ("," ++ nl ++ ind') (map fst items))).
  { rewrite <- (length_map fst); apply str_join_length, Forall_forall.
    intros t (it & <- & Hin)%in_map_iff; apply opens_nonempty, (proj1 (proj1 (Forall_forall _ _) Hok it Hin)). }
  assert (Hrd : Forall (fun it => item_reads (read_json f) (fst it) (snd it)) items).
  { apply Forall_forall; intros it Hin; destruct (proj1 (Forall_forall _ _) Hok it Hin) as [_ Hrd].
    apply Hrd; pose proof (str_join_in_length ("," ++ nl ++ ind') (fst it) (map fst items) (in_map fst _ _ Hin)).
    lia. }
  destruct items as [|[t1 j1] items']; [congruence |].
  destruct (skip_first ind' ("," ++ nl ++ ind') t1 (map fst items') (nl ++ ind ++ "]" ++ r) Hi'
              (proj1 (Forall_inv Hok))) as (c & x & Hs & Hc & _).
  change (t1 :: map fst items') with (map fst ((t1, j1) :: items')) in Hs.
  change ("[" ++ ?Y) with (String "[" Y); cbn [read_json].
  change (skip_ws (String "[" ?Y)) with (String "[" Y); cbv beta iota; rewrite Ascii.eqb_refl.
  rewrite Hs, Hc, read_elems_items by (assumption || congruence || lia); reflexivity.
Qed.

Lemma opens_member (k t : string) : opens (member_text k t) = true.
Proof. reflexivity. Qed.

Lemma length_member (k t : string) : String.length t < String.length (member_text k t).
Proof. unfold member_text, quote; rewrite !str_length_app; cbn [String.length]; lia. Qed.

Lemma reads_object_text (ind ind' : string) (items : list (string * string * jsval)) :
  all_ws ind = true -> all_ws ind' = true -> items <> [] ->
  Forall (fun it => reads_any (snd (fst it)) (snd it)) items ->
  reads_any ("{" ++ nl ++ ind' ++
             str_join ("," ++ nl ++ ind') (map (fun it => member_text (fst (fst it)) (snd (fst it))) items) ++
             nl ++ ind ++ "}")
            (JObj (map (fun it => (fst (fst it), snd it)) items)).
Proof.
  intros Hi Hi' Hne Hok [|f] Hf w r Hw Hr; [simpl in Hf; lia |].
  rewrite read_json_ws by exact Hw; rewrite !str_app_assoc in *.
  rewrite !str_length_app in Hf; cbn [String.length] in Hf.
  set (mt := fun it : string * string * jsval => member_text (fst (fst it)) (snd (fst it))) in *.
  assert (HJ : List.length items <= String.length (str_join ("," ++ nl ++ ind') (map mt items))).
  { rewrite <- (length_map mt); apply str_join_length, Forall_forall.
    intros t (it & <- & _)%in_map_iff; apply opens_nonempty, opens_member. }
  assert (Hrd : Forall (fun it => item_reads (read_json f) (snd (fst it)) (snd it)) items).
  { apply Forall_forall; intros it Hin; apply (proj1 (Forall_forall _ _) Hok it Hin).
    pose proof (str_join_in_length ("," ++ nl ++ ind') (mt it) (map mt items) (in_map mt _ _ Hin)).
    pose proof (length_member (fst (fst it)) (snd (fst it))); unfold mt in *; lia. }
  destruct items as [|[[k t1] j1] items']; [congruence |].
  destruct (skip_first ind' ("," ++ nl ++ ind') (member_text k t1) (map mt items') (nl ++ ind ++ "}" ++ r) Hi'
              (opens_member k t1)) as (c & x & Hs & _ & Hc).
  change (member_text k t1 :: map mt items') with (map mt ((k, t1, j1) :: items')) in Hs.
  change ("{" ++ ?Y) with (String "{" Y); cbn [read_json].
  change (skip_ws (String "{" ?Y)) with (String "{" Y); cbv beta iota; rewrite Ascii.eqb_refl.
  cbv beta iota; rewrite Hs, Hc; unfold mt; rewrite read_membs_items by (assumption || congruence || lia).
  reflexivity.
Qed.

(** ** The round trip, case by case *)

(** What [ser] writes for [v] at indentation [ind] reads back as
    [view v]; [undefined], which [ser] does not write, is what [view]
    drops. *)
Definition ser_ok (ind : string) (v : jsval) : Prop :=
  match ser ind v, view v with
  | Some t, Some j => reads_any t j
  | None, None => True
  | _, _ => False
  end.

Lemma reads_any_S (t : string) (j : jsval) : t <> EmptyString -> (forall f, reads (S f) t j) -> reads_any t j.
Proof. intros Ht H [|f] Hf; [destruct t; [congruence | simpl in Hf; lia] | apply H]. Qed.

Lemma reads_any_null : reads_any "null" JNull.
Proof. apply reads_any_S; [discriminate | apply reads_null]. Qed.

Lemma assoc_ser_map (ind : string) (ps : list (string * jsval)) (k : string) :
  assoc_ser (map (fun '(k, x) => (k, ser ind x)) ps) k = option_map (ser ind) (assoc_get ps k).
Proof. induction ps as [|[k' x] ps IH]; simpl; [reflexivity | destruct (String.eqb k' k); auto]. Qed.

Lemma assoc_view_map (ps : list (string * jsval)) (k : string) :
  assoc_view (map (fun '(k, x) => (k, view x)) ps) k = option_map view (assoc_get ps k).
Proof. induction ps as [|[k' x] ps IH]; simpl; [reflexivity | destruct (String.eqb k' k); auto]. Qed.

Lemma assoc_get_in (ps : list (string * jsval)) (k : string) (x : jsval) :
  assoc_get ps k = Some x -> In (k, x) ps.
Proof.
  induction ps as [|[k' x'] ps IH]; simpl; [discriminate |].
  destruct (String.eqb_spec k' k) as [->|_]; [intros [= ->]; left; reflexivity | right; auto].
Qed.

Lemma ser_ok_arr (ind : string) (xs : list jsval) :
  all_ws ind = true -> Forall (fun x => wf x /\ ser_ok (ind ++ gap) x) xs -> ser_ok ind (JArr xs).
Proof.
  intros Hi Hx; unfold ser_ok; cbn [ser view].
  set (txt := fun x => match ser (ind ++ gap) x with Some t => t | None => "null" end).
  set (vw := fun x => match view x with Some j => j | None => JNull end).
  destruct xs as [|x xs']; [apply reads_empty_array |]; cbn [map].
  pose proof (reads_array_text ind (ind ++ gap) (map (fun x => (txt x, vw x)) (x :: xs')) Hi
                ltac:(auto with js) ltac:(discriminate)) as R.
  rewrite !map_map in R; cbn [fst snd map] in R; apply R.
  apply Forall_forall; intros [t j] Hin.
  change (In (t, j) (map (fun x => (txt x, vw x)) (x :: xs'))) in Hin.
  apply in_map_iff in Hin as (y & [= <- <-] & Hin).
  destruct (proj1 (Forall_forall _ _) Hx y Hin) as [Hw Hy]; unfold ser_ok, txt, vw in *.
  destruct (ser (ind ++ gap) y) eqn:Es, (view y); try contradiction; cbn [fst snd];
    split; [eapply ser_opens; eauto | exact Hy | reflexivity | exact reads_any_null].
Qed.

(** The members of an object, as (key, text, value) triples in the
    order of [own_keys]. *)
Definition obj_items (ind' : string) (ps : list (string * jsval)) (L : list string)
    : list (string * string * jsval) :=
  flat_map (fun k => match assoc_get ps k with
                     | Some x => match ser ind' x, view x with
                                 | Some t, Some j => [(k, t, j)]
                                 | _, _ => []
                                 end
                     | None => []
                     end) L.

Lemma obj_items_spec (ind' : string) (ps : list (string * jsval)) (L : list string) :
  (forall k x, assoc_get ps k = Some x -> ser_ok ind' x) ->
  flat_map (fun k => match assoc_ser (map (fun '(k, x) => (k, ser ind' x)) ps) k with
                     | Some (Some t) => [quote k ++ ": " ++ t]
                     | _ => []
                     end) L =
    map (fun it => member_text (fst (fst it)) (snd (fst it))) (obj_items ind' ps L) /\
  flat_map (fun k => match assoc_view (map (fun '(k, x) => (k, view x)) ps) k with
                     | Some (Some j) => [(k, j)]
                     | _ => []
                     end) L =
    map (fun it => (fst (fst it), snd it)) (obj_items ind' ps L) /\
  Forall (fun it => reads_any (snd (fst it)) (snd it)) (obj_items ind' ps L).
Proof.
  intros H; induction L as [|k L (IH1 & IH2 & IH3)]; [repeat split; constructor |].
  unfold obj_items in *; cbn [flat_map]; rewrite assoc_ser_map, assoc_view_map.
  destruct (assoc_get ps k) as [x|] eqn:E; cbn [option_map]; [| auto].
  specialize (H _ _ E); unfold ser_ok in H.
  destruct (ser ind' x), (view x); try contradiction; cbn [app map]; rewrite ?IH1, ?IH2; auto.
Qed.

Lemma ser_ok_obj (ind : string) (ps : list (string * jsval)) :
  all_ws ind = true -> (forall k x, In (k, x) ps -> ser_ok (ind ++ gap) x) -> ser_ok ind (JObj ps).
Proof.
  intros Hi Hx; unfold ser_ok; cbn [ser view].
  destruct (obj_items_spec (ind ++ gap) ps (own_keys ps)) as (E1 & E2 & E3);
    [intros k x Hk; apply (Hx k x), assoc_get_in, Hk |].
  rewrite E1, E2; destruct (obj_items (ind ++ gap) ps (own_keys ps)) as [|it its]; cbn [map].
  - exact reads_empty_object.
  - exact (reads_object_text ind (ind ++ gap) (it :: its) Hi ltac:(auto with js) ltac:(discriminate) E3).
Qed.

Lemma wf_arr (xs : list jsval) : wf (JArr xs) -> Forall wf xs.
Proof. induction xs as [|x xs IH]; cbn [wf]; [constructor | intros [Hx Hxs]; constructor; auto]. Qed.

Lemma wf_obj (ps : list (string * jsval)) : wf (JObj ps) -> Forall (fun kv => wf (snd kv)) ps.
Proof. induction ps as [|[k x] ps IH]; cbn [wf]; [constructor | intros [Hx Hps]; constructor; auto]. Qed.

Lemma ser_ok_all (v : jsval) : wf v -> forall ind, all_ws ind = true -> ser_ok ind v.
Proof.
  induction v as [| |b|x|s|xs IH|ps IH] using jsval_ind'; intros Hw ind Hi.
  - exact I.
  - exact reads_any_null.
  - destruct b; (apply reads_any_S; [discriminate | intros f; first [apply reads_true | apply reads_false]]).
  - unfold ser_ok; cbn [ser view]; destruct (is_finite x) eqn:Hf; [| exact reads_any_null].
    destruct (num_text x Hw Hf) as (c & t & E & _).
    apply reads_any_S; [rewrite E; discriminate | intros f; apply reads_number; assumption].
  - apply reads_any_S; [unfold quote; discriminate | intros f; apply reads_string].
  - apply ser_ok_arr; [exact Hi |]; apply wf_arr in Hw.
    apply Forall_forall; intros x Hin; pose proof (proj1 (Forall_forall _ _) Hw x Hin) as Hx.
    split; [exact Hx | apply (proj1 (Forall_forall _ _) IH x Hin Hx); auto with js].
  - apply ser_ok_obj; [exact Hi |]; apply wf_obj in Hw; intros k x Hin.
    apply (proj1 (Forall_forall _ _) IH (k, x) Hin); [exact (proj1 (Forall_forall _ _) Hw (k, x) Hin) | auto with js].
Qed.

(** Only [undefined] has no JSON text. *)
Lemma ser_none (ind : string) (v : jsval) : ser ind v = None -> v = JUndefined.
Proof.
  destruct v as [| |[]| | |xs|ps]; cbn [ser]; intros H; try reflexivity; try discriminate;
    [destruct (map _ xs) | destruct (flat_map _ _)]; discriminate.
Qed.

(** [JSON.parse(JSON.stringify(v, null, 2))] gives back [view v].
    For every value but [undefined] whose numbers are in normal form
    (every number [parseFloat] produces is), the text [stringify2]
    writes is read, whole, by the JSON reader as the value JSON keeps:
    [undefined] members dropped, [undefined] elements and non-finite
    numbers as [null], object members in [own_keys] order. *)
Theorem parse_stringify2 (v : jsval) :
  wf v -> v <> JUndefined ->
  exists t j, stringify2 v = Some t /\ view v = Some j /\
              read_json (S (String.length t)) t = Some (j, EmptyString).
Proof.
  intros Hw Hu; pose proof (ser_ok_all v Hw "" eq_refl) as H; unfold ser_ok, stringify2 in *.
  destruct (ser "" v) as [t|] eqn:Es; [| apply ser_none in Es; contradiction].
  destruct (view v) as [j|]; [| contradiction].
  exists t, j; split; [reflexivity | split; [reflexivity |]].
  pose proof (H (S (String.length t)) (Nat.lt_succ_diag_r _) "" "" eq_refl eq_refl) as R.
  rewrite str_app_nil_r in R; exact R.
Qed.
