(* ===== verification/Agent.v ===== *)
(** * Agent: the query pipeline (index.tsx lines 36-56, 95-169)

    [ExtractLocation] and [GenerateResponse] are chat completions with a
    fixed system prompt.  [WeatherAgent] chains extraction, the weather
    source and generation, returning the fixed request for a location
    when the extracted string is falsy, and throwing if the weather value
    is falsy.  [WeatherAgentComponent] wraps it in an [OpenAIProvider]:
    the provider's context carries the client, and [ChatCompletion]
    takes its client from the context of the component that renders it.
    [processWeatherQuery] runs the workflow in a [try/catch] that logs
    the error and returns a fixed apology.

    The gensx parts ([ChatCompletion], [OpenAIProvider], the workflow
    runner) are library code, modelled from the spec: a chat completion
    with no client in its context throws, a provider replaces the client
    for everything rendered under it, a workflow run evaluates its
    component under the empty context.

    The pipeline is written in a section over a [WeatherSource], so that
    the theorems that only need the source's contract are proved from
    it; [FetchWeather] is the source the program uses. *)

From Stdlib Require Import String Ascii List ZArith Lia Bool.
From S2P Require Import Prelude JsString JsNumber JsValue Json Effects Weather Types JsonRead.
Import ListNotations.
Open Scope string_scope.
Open Scope js_scope.

(** ** The gensx context and [ChatCompletion] *)

(** The context a component is rendered in: the OpenAI client, known by
    the API key it was built with, if a provider above set one. *)
Record ctx : Type := mkCtx { openai_client : option string }.

Definition empty_ctx : ctx := mkCtx None.

Definition ChatCompletion (c : ctx) (model : string) (msgs : list message) : prog string :=
  match openai_client c with
  | Some key => Chat key model msgs of_res
  | None => Raise (Error "OpenAI client not found in context")
  end.

(** [<OpenAIProvider apiKey={k}>child</OpenAIProvider>] *)
Definition OpenAIProvider {A : Type} (apiKey : string) (child : ctx -> prog A) (c : ctx) : prog A :=
  child (mkCtx (Some apiKey)).

Definition system (s : string) : message := mkMessage "system" s.
Definition user (s : string) : message := mkMessage "user" s.

Definition gpt_model : string := "gpt-4o-mini".

Definition extract_prompt : string :=
  "Extract the city or location name from the user's weather query. Return only the city/location name, nothing else. If the query doesn't contain a city/location, return an empty string.".

Definition generate_prompt : string :=
  "You are a weather assistant. Use the provided weather data to answer the user's question. Do not answer or ask anything else. Be friendly and informative.".

Definition extract_msgs (userInput : string) : list message :=
  [system extract_prompt; user userInput].

Definition generate_msgs (weatherData : jsval) (userInput : string) : list message :=
  [system generate_prompt; user userInput;
   system ("Weather data: " ++ template_of (stringify2 weatherData))].

Definition clarify_msg : string := "Please specify a city or location in your request.".

Definition apology : string :=
  "Sorry, an error occurred while processing your request. Please try again.".

Definition no_location_line (userInput : string) : string :=
  "Query doesn't contain city/location: " ++ userInput.

Definition detected_line (loc : string) : string := "Detected location: " ++ loc.

Definition received_line (weatherData : jsval) : string :=
  "Received weather data: " ++ template_of (stringify2 weatherData).

Definition failure_line (e : exn) : string :=
  "An error occurred while processing your request: " ++ show_exn e.

Section Pipeline.
Context `{WS : WeatherSource}.

(** Lines 42-56. *)
Definition ExtractLocation (c : ctx) (userInput : string) : prog string :=
  ChatCompletion c gpt_model (extract_msgs userInput).

(** Lines 102-120. *)
Definition GenerateResponse (c : ctx) (weatherData : jsval) (userInput : string) : prog string :=
  ChatCompletion c gpt_model (generate_msgs weatherData userInput).

(** Lines 123-146. *)
Definition WeatherAgent (c : ctx) (userInput : string) : prog string :=
  raw <- ExtractLocation c userInput ;;
  let loc := to_js_string (JStr raw) in
  if negb (truthy (JStr loc)) then
    Log Stdout (no_location_line userInput) (Ret clarify_msg)
  else
    Log Stdout (detected_line loc)
      (weatherData <- fetch_weather loc ;;
       Log Stdout (received_line weatherData)
         (if negb (truthy weatherData) then Raise (Error "Failed to fetch weather data.")
          else GenerateResponse c weatherData userInput)).

(** Lines 149-156. *)
Definition WeatherAgentComponent (apiKey : string) (c : ctx) (userInput : string) : prog string :=
  OpenAIProvider apiKey (fun c' => WeatherAgent c' userInput) c.

(** [workflow.run({userInput})], line 163. *)
Definition workflow_run (apiKey : string) (userInput : string) : prog string :=
  WeatherAgentComponent apiKey empty_ctx userInput.

(** Lines 161-169. *)
Definition processWeatherQuery (apiKey : string) (query : string) : prog string :=
  catch (workflow_run apiKey query)
        (fun e => Log Stderr (failure_line e) (Ret apology)).
End Pipeline.

(** ** The program with [FetchWeather]: the contract of spec section 4.4 *)

(** The external calls of a run and its answer, as the spec lays them
    out: extraction; then, for a non-empty location, one GET and one
    generation call on the object [FetchWeather] builds from the GET's
    answer; a failed model call gives the apology. *)
Inductive pipeline_spec (key q : string) : list event -> string -> Prop :=
| spec_extract_failed e :
    pipeline_spec key q [EvChat key gpt_model (extract_msgs q) (Err e)] apology
| spec_no_location :
    pipeline_spec key q [EvChat key gpt_model (extract_msgs q) (Ok "")] clarify_msg
| spec_answer loc r a :
    loc <> "" ->
    pipeline_spec key q
      [EvChat key gpt_model (extract_msgs q) (Ok loc); EvGet (wttr_url loc) r;
       EvChat key gpt_model (generate_msgs (fetch_result loc r) q) (Ok a)] a
| spec_generate_failed loc r e :
    loc <> "" ->
    pipeline_spec key q
      [EvChat key gpt_model (extract_msgs q) (Ok loc); EvGet (wttr_url loc) r;
       EvChat key gpt_model (generate_msgs (fetch_result loc r) q) (Err e)] apology.

(** ** The scenarios of spec section 8, used by the witnesses *)

(** A world where extraction answers [loc] and generation [gen]; the
    weather service knows Paris only. *)
Definition scenario (loc : string) (gen : res string) : oracle :=
  mkOracle (fun _ _ msgs => match msgs with [_; _] => Ok loc | _ => gen end)
           (fun u => if String.eqb u (wttr_url "Paris") then Ok paris_doc
                     else Err (ExternalError "AxiosError" "Request failed with status code 404")).

Definition paris_q : string := "What's the weather in Paris?".
Definition paris_world : oracle := scenario "Paris" (Ok "It is sunny in Paris, 15 degrees.").
Definition joke_q : string := "Tell me a joke".
Definition joke_world : oracle := scenario "" (Ok "unused").
Definition unknown_q : string := "Weather in Zzqqxx".
Definition unknown_world : oracle :=
  scenario "Zzqqxx" (Ok "Sorry, I could not get the weather for Zzqqxx.").
Definition quota_world : oracle :=
  scenario "Paris" (Err (ExternalError "RateLimitError" "429 You exceeded your current quota")).
Definition space_world : oracle := scenario " " (Ok "unused").
Definition silent_world : oracle := scenario "Paris" (Ok "").

Definition test_key : string := "sk-test".

(** ** Shared lemmas: each step on every branch *)

Section Steps.
Context `{WS : WeatherSource}.
Variable w : world.

Lemma ChatCompletion_exec key m msgs evs out :
  exec w (ChatCompletion (mkCtx (Some key)) m msgs) evs out <->
  chat_answer w key m msgs out /\ evs = [EvChat key m msgs out].
Proof. apply chat_exec. Qed.

(** The run of [WeatherAgent] under a client: the extraction call, then
    the short cut, or the fetch and the generation call. *)
Lemma WeatherAgent_cases key q evs out :
  exec w (WeatherAgent (mkCtx (Some key)) q) evs out ->
  exists r1 rest,
    evs = EvChat key gpt_model (extract_msgs q) r1 :: rest /\
    chat_answer w key gpt_model (extract_msgs q) r1 /\
    match r1 with
    | Err e => rest = [] /\ out = Err e
    | Ok raw =>
        if String.eqb raw "" then
          rest = [EvLog Stdout (no_location_line q)] /\ out = Ok clarify_msg
        else exists evs_f v,
          exec w (fetch_weather raw) evs_f (Ok v) /\
          chat_answer w key gpt_model (generate_msgs v q) out /\
          rest = (EvLog Stdout (detected_line raw) :: evs_f ++
                  [EvLog Stdout (received_line v);
                   EvChat key gpt_model (generate_msgs v q) out])%list
    end.
Proof.
  intros H; unfold WeatherAgent, ExtractLocation in H.
  apply exec_bind_inv in H as [(e & -> & He)|(raw & e1 & e2 & -> & H1 & H2)].
  - apply ChatCompletion_exec in He as [Hw ->].
    exists (Err e), []; auto.
  - apply ChatCompletion_exec in H1 as [Hw ->].
    exists (Ok raw), e2; split; [reflexivity | split; [assumption |]].
    simpl in H2 |- *; destruct (String.eqb_spec raw ""); simpl in H2.
    + subst; exec_inv; auto.
    + inv H2; match goal with Hb : exec _ (bind _ _) _ _ |- _ =>
        apply exec_bind_inv in Hb as [(e & -> & Hf)|(v & f1 & f2 & -> & Hf & Hg)] end.
      * destruct (safe_exec _ _ _ _ (fetch_weather_safe raw) Hf) as [? [=]].
      * inv Hg; pose proof (fetch_weather_object _ _ _ _ Hf) as Ho.
        destruct v; try discriminate; simpl in *.
        match goal with Hc : exec _ (GenerateResponse _ _ _) _ _ |- _ =>
          apply ChatCompletion_exec in Hc as [Hw' ->] end.
        exists f1, (JObj props); auto.
Qed.

(** The run of [processWeatherQuery]: a run of the agent under the
    provider's client that returned, or one that threw, followed by the
    failure line and the apology. *)
Lemma processWeatherQuery_cases key q evs out :
  exec w (processWeatherQuery key q) evs out ->
  (exec w (WeatherAgent (mkCtx (Some key)) q) evs out /\ exists s, out = Ok s) \/
  (exists e evs1, exec w (WeatherAgent (mkCtx (Some key)) q) evs1 (Err e) /\
                  evs = (evs1 ++ [EvLog Stderr (failure_line e)])%list /\ out = Ok apology).
Proof.
  intros H; apply exec_catch_inv in H as [(a & -> & Ha)|(e & e1 & e2 & -> & H1 & H2)].
  - left; eauto.
  - right; exec_inv; exists e, e1; auto.
Qed.
End Steps.

(** ** What the pipeline guarantees, from the contract of its source *)

Section Contract.
Context `{WS : WeatherSource}.
Variable w : world.

(** C1: whatever the model and the network answer, the runner returns a
    string and never throws: the fixed request for a location, the
    apology, or the text the model answered to a generation request. *)
Theorem processWeatherQuery_answer key q evs out :
  exec w (processWeatherQuery key q) evs out ->
  exists s, out = Ok s /\
    (s = clarify_msg \/ s = apology \/
     exists v, In (EvChat key gpt_model (generate_msgs v q) (Ok s)) evs).
Proof.
  intros [[Hx [s ->]]|(e & e1 & Hx & -> & ->)]%processWeatherQuery_cases; eauto.
  exists s; split; [reflexivity |].
  apply WeatherAgent_cases in Hx as (r1 & rest & -> & Hr1 & Hcase).
  destruct r1 as [raw|e]; [|destruct Hcase as [_ [=]]].
  destruct (String.eqb raw ""); [destruct Hcase as [_ [=]]; auto |].
  destruct Hcase as (evs_f & v & _ & _ & ->); right; right; exists v.
  simpl; right; right; apply in_or_app; right; simpl; auto.
Qed.
(** C7: when the model finds no location (the extraction answers the
    empty string), the run logs one line and returns the fixed request
    for a location; neither the weather source nor the generation step
    is called: the trace is exactly these two events. *)
Theorem processWeatherQuery_short_circuit key q evs out rest :
  exec w (processWeatherQuery key q) evs out ->
  evs = EvChat key gpt_model (extract_msgs q) (Ok "") :: rest ->
  out = Ok clarify_msg /\ rest = [EvLog Stdout (no_location_line q)].
Proof.
  intros [[Hx _]|(e & e1 & Hx & -> & ->)]%processWeatherQuery_cases Hevs;
    apply WeatherAgent_cases in Hx as (r1 & rest' & -> & _ & Hcase);
    injection Hevs as -> <-; simpl in Hcase.
  - destruct Hcase as [-> ->]; auto.
  - destruct Hcase as [_ [=]].
Qed.

(** C11: every chat call of a run carries the key of the provider that
    wraps the workflow; the weather source makes no chat call. *)
Theorem processWeatherQuery_keys key q evs out :
  exec w (processWeatherQuery key q) evs out -> Forall (eq key) (chat_keys evs).
Proof.
  assert (Hag : forall evs out, exec w (WeatherAgent (mkCtx (Some key)) q) evs out ->
                                Forall (eq key) (chat_keys evs)).
  { clear; intros evs out Hx.
    apply WeatherAgent_cases in Hx as (r1 & rest & -> & _ & Hcase).
    destruct r1 as [raw|e]; [|destruct Hcase as [-> _]; repeat constructor].
    destruct (String.eqb raw "");
      [destruct Hcase as [-> _]; repeat constructor |].
    destruct Hcase as (evs_f & v & Hf & _ & ->); simpl.
    rewrite chat_keys_app, (no_chat_exec _ _ _ _ (fetch_weather_no_chat raw) Hf).
    repeat constructor. }
  intros [[Hx _]|(e & e1 & Hx & -> & _)]%processWeatherQuery_cases; eauto.
  rewrite chat_keys_app; apply Forall_app; split; [eauto | constructor].
Qed.

(** C8: a failed model call, in extraction or in generation, ends the
    run with the apology. *)
Theorem processWeatherQuery_model_failure key q evs out k m msgs e :
  exec w (processWeatherQuery key q) evs out ->
  In (EvChat k m msgs (Err e)) evs -> out = Ok apology.
Proof.
  intros [[Hx [s ->]]|(e' & e1 & Hx & -> & ->)]%processWeatherQuery_cases Hin; auto.
  apply WeatherAgent_cases in Hx as (r1 & rest & -> & _ & Hcase).
  destruct r1 as [raw|e']; [|destruct Hcase as [_ [=]]].
  destruct (String.eqb raw "").
  - destruct Hcase as [-> _]; simpl in Hin; intuition discriminate.
  - destruct Hcase as (evs_f & v & Hf & _ & ->); exfalso.
    apply (no_chat_exec _ _ _ _ (fetch_weather_no_chat raw)) in Hf.
    simpl in Hin; destruct Hin as [[=]|[[=]|Hin]].
    apply in_app_or in Hin as [Hin|[[=]|[[=]|[]]]].
    apply in_split in Hin as (l1 & l2 & ->).
    rewrite chat_keys_app in Hf; simpl in Hf; destruct (chat_keys l1); discriminate.
Qed.

(** C9: the workflow throws only what a chat call threw, as its last
    event: weather failures never escape the source, and the defensive
    check [!weatherData] (line 139) never throws. *)
Theorem workflow_run_errors key q evs e :
  exec w (workflow_run key q) evs (Err e) ->
  exists evs' m msgs, evs = (evs' ++ [EvChat key m msgs (Err e)])%list.
Proof.
  intros Hx; apply WeatherAgent_cases in Hx as (r1 & rest & -> & _ & Hcase).
  destruct r1 as [raw|e']; [|destruct Hcase as [-> [= ->]]; exists [], gpt_model, (extract_msgs q); reflexivity].
  destruct (String.eqb raw ""); [destruct Hcase as [_ [=]] |].
  destruct Hcase as (evs_f & v & _ & _ & ->).
  exists (EvChat key gpt_model (extract_msgs q) (Ok raw) :: EvLog Stdout (detected_line raw) ::
          evs_f ++ [EvLog Stdout (received_line v)])%list, gpt_model, (generate_msgs v q).
  simpl; rewrite <- app_assoc; reflexivity.
Qed.
End Contract.

(** The failure boundary: the handler cannot throw. *)
Lemma processWeatherQuery_safe `{WS : WeatherSource} key q : safe (processWeatherQuery key q).
Proof. apply safe_catch; intros; exact I. Qed.

Lemma ChatCompletion_bounded key m msgs : bounded 1 (ChatCompletion (mkCtx (Some key)) m msgs).
Proof. intros r; apply bounded_of_res. Qed.

(** With a weather source that ends within two steps, a run of the
    agent makes at most six: extraction, a log line, the source, a log
    line, generation; the runner adds the failure line. *)
Lemma processWeatherQuery_bounded `{WS : WeatherSource} key q :
  (forall loc, bounded 2 (fetch_weather loc)) -> bounded 7 (processWeatherQuery key q).
Proof.
  intros Hf; apply (bounded_catch _ _ 6 1); [| intros; exact I].
  apply (bounded_bind _ _ 1 5); [apply ChatCompletion_bounded | intros raw; cbv beta zeta].
  destruct (negb (truthy _)); [exact I |].
  apply bounded_log, (bounded_bind _ _ 2 2); [apply Hf | intros v; cbv beta].
  apply bounded_log; destruct (negb (truthy v)); [exact I | apply ChatCompletion_bounded].
Qed.

Section Program.
Variable w : world.

(** [WeatherAgent_cases] with the fetch of the program unfolded. *)
Lemma WeatherAgent_fetch_cases key q evs out :
  exec w (WeatherAgent (mkCtx (Some key)) q) evs out ->
  exists r1 rest,
    evs = EvChat key gpt_model (extract_msgs q) r1 :: rest /\
    match r1 with
    | Err e => rest = [] /\ out = Err e
    | Ok raw =>
        if String.eqb raw "" then
          rest = [EvLog Stdout (no_location_line q)] /\ out = Ok clarify_msg
        else exists r,
          get_answer w (wttr_url raw) r /\
          rest = (EvLog Stdout (detected_line raw) :: EvGet (wttr_url raw) r ::
                  fetch_logs r ++
                  [EvLog Stdout (received_line (fetch_result raw r));
                   EvChat key gpt_model (generate_msgs (fetch_result raw r) q) out])%list
    end.
Proof.
  intros (r1 & rest & -> & _ & Hc)%WeatherAgent_cases; exists r1, rest; split; auto.
  destruct r1 as [raw|e]; auto; destruct (String.eqb raw ""); auto.
  destruct Hc as (evs_f & v & Hf & _ & ->).
  apply FetchWeather_exec_inv in Hf as (r & Hr & -> & [= ->]); eauto.
Qed.

(** C2: every run of the runner refines the contract: its calls and its
    answer are one of the four shapes of [pipeline_spec]. *)
Theorem processWeatherQuery_refines key q evs out :
  exec w (processWeatherQuery key q) evs out ->
  exists s, out = Ok s /\ pipeline_spec key q (calls evs) s.
Proof.
  intros [[Hx [s ->]]|(e & e1 & Hx & -> & ->)]%processWeatherQuery_cases;
    eexists; split; try reflexivity;
    apply WeatherAgent_fetch_cases in Hx as (r1 & rest & -> & Hc);
    destruct r1 as [raw|e']; try (destruct Hc as [-> [=]]; fail);
    try (destruct Hc as [-> [= ->]]; constructor).
  - destruct (String.eqb_spec raw "") as [->|Hne];
      [destruct Hc as [-> [= ->]]; constructor |].
    destruct Hc as (r & _ & ->); simpl; rewrite calls_app, calls_fetch_logs.
    constructor; assumption.
  - destruct (String.eqb_spec raw "") as [->|Hne]; [destruct Hc as [_ [=]] |].
    destruct Hc as (r & _ & ->); simpl; rewrite !calls_app, calls_fetch_logs.
    constructor; assumption.
Qed.
End Program.

Section ProgramFailures.
Variable w : world.

Lemma In_fetch_logs_get u r r' : ~ In (EvGet u r) (fetch_logs r').
Proof. unfold fetch_logs; destruct (res_bind r' weather_of_data); simpl; intuition discriminate. Qed.

(** A GET in a run of the agent is the fetch of an extracted location,
    and the generation call that follows gets [fetch_result]. *)
Lemma WeatherAgent_get key q evs out u r :
  exec w (WeatherAgent (mkCtx (Some key)) q) evs out -> In (EvGet u r) evs ->
  exists raw, u = wttr_url raw /\
    In (EvChat key gpt_model (generate_msgs (fetch_result raw r) q) out) evs.
Proof.
  intros (r1 & rest & -> & Hc)%WeatherAgent_fetch_cases Hin.
  destruct r1 as [raw|e]; [|destruct Hc as [-> _]; simpl in Hin; intuition discriminate].
  destruct (String.eqb raw "");
    [destruct Hc as [-> _]; simpl in Hin; intuition discriminate |].
  destruct Hc as (r' & _ & ->); exists raw.
  simpl in Hin; destruct Hin as [[=]|[[=]|[[= -> ->]|Hin]]].
  - split; [reflexivity |]; simpl; right; right; right.
    apply in_or_app; right; simpl; auto.
  - exfalso; apply in_app_or in Hin as [Hin|Hin];
      [eapply In_fetch_logs_get; eauto | simpl in Hin; intuition discriminate].
Qed.

(** A GET in a run of the runner is followed by the generation call on
    [fetch_result] of its answer, whose answer (or the apology, if it
    failed) is the run's result. *)
Lemma processWeatherQuery_get key q evs out loc r :
  exec w (processWeatherQuery key q) evs out -> In (EvGet (wttr_url loc) r) evs ->
  exists g, In (EvChat key gpt_model (generate_msgs (fetch_result loc r) q) g) evs /\
            out = Ok (match g with Ok s => s | Err _ => apology end).
Proof.
  intros Hx Hin.
  apply processWeatherQuery_cases in Hx as [[Hx [s ->]]|(e' & e1 & Hx & -> & ->)].
  - destruct (WeatherAgent_get _ _ _ _ _ _ Hx Hin) as (raw & Hu%wttr_url_inj & Hg); subst raw.
    exists (Ok s); auto.
  - apply in_app_or in Hin as [Hin|[[=]|[]]].
    destruct (WeatherAgent_get _ _ _ _ _ _ Hx Hin) as (raw & Hu%wttr_url_inj & Hg); subst raw.
    exists (Err e'); split; [apply in_or_app; left |]; auto.
Qed.

(** C10: a weather lookup that fails (the request is rejected, or the
    answer lacks a field the code reads through) does not end the run:
    the generation call still runs, on the degraded object, and its
    answer (or the apology, if it fails) is the result. *)
Theorem processWeatherQuery_weather_failure key q evs out loc r e :
  exec w (processWeatherQuery key q) evs out ->
  In (EvGet (wttr_url loc) r) evs -> res_bind r weather_of_data = Err e ->
  exists g, In (EvChat key gpt_model (generate_msgs (weather_obj (degraded loc)) q) g) evs /\
            out = Ok (match g with Ok s => s | Err _ => apology end).
Proof.
  intros Hx Hin Hbad.
  replace (weather_obj (degraded loc)) with (fetch_result loc r) by (unfold fetch_result; rewrite Hbad; reflexivity).
  exact (processWeatherQuery_get _ _ _ _ _ _ Hx Hin).
Qed.

(** C3: the model is given the weather intact.  When the object
    [FetchWeather] builds from the answer of a GET of a run has its
    declared type, the generation call of that run carries, after
    ["Weather data: "], a text that reads back as that object's
    members, in order (spec 4.3: a serialised form of the weather
    record with a stable key order). *)
Theorem processWeatherQuery_weather_message key q evs out loc r :
  exec w (processWeatherQuery key q) evs out -> In (EvGet (wttr_url loc) r) evs ->
  has_type (fetch_result loc r) FetchWeatherOutput_t = true ->
  exists ps t g, fetch_result loc r = JObj ps /\
    In (EvChat key gpt_model [system generate_prompt; user q; system ("Weather data: " ++ t)] g) evs /\
    read_object t = Some (view_members ps).
Proof.
  intros Hx Hin Ht; destruct (processWeatherQuery_get _ _ _ _ _ _ Hx Hin) as (g & Hg & _).
  destruct (fetch_result_ok loc r Ht) as (wd & Hw & Hok).
  destruct (weather_obj_read wd Hok) as (ps & t & E & Hs & Hrd).
  exists ps, t, g; rewrite Hw, E in *; split; [reflexivity | split; [| exact Hrd]].
  unfold generate_msgs in Hg; rewrite Hs in Hg; exact Hg.
Qed.
End ProgramFailures.

Section Findings.
Variable w : world.

(** Every chat call of a run of the agent is the extraction or the
    generation, and the generation's answer is the run's result. *)
Lemma WeatherAgent_chats `{WS : WeatherSource} key q evs out k m msgs r :
  exec w (WeatherAgent (mkCtx (Some key)) q) evs out -> In (EvChat k m msgs r) evs ->
  msgs = extract_msgs q \/ exists v, msgs = generate_msgs v q /\ out = r.
Proof.
  intros (r1 & rest & -> & _ & Hcase)%WeatherAgent_cases [[= _ _ <- _]|Hin]; auto.
  destruct r1 as [raw|e]; [destruct (String.eqb raw "") |]; simpl in Hcase.
  - destruct Hcase as [-> _]; destruct Hin as [[=]|[]].
  - destruct Hcase as (evs_f & v & Hf & _ & ->).
    apply (no_chat_exec _ _ _ _ (fetch_weather_no_chat raw)) in Hf.
    destruct Hin as [[=]|[Hin|[[=]|[[= _ _ <- <-]|[]]]]%in_app_or]; eauto.
    apply chat_key_in in Hin; rewrite Hf in Hin; destruct Hin.
  - destruct Hcase as [-> _]; destruct Hin.
Qed.

(** C24: the answer the model generates is passed on unchecked (spec
    section 7 says the runner's answer to a query with a location is
    non-empty): when the generation call answers the empty string, the
    runner returns the empty string. *)
Theorem processWeatherQuery_empty_answer `{WS : WeatherSource} key q evs out v :
  exec w (processWeatherQuery key q) evs out ->
  In (EvChat key gpt_model (generate_msgs v q) (Ok "")) evs -> out = Ok "".
Proof.
  assert (Hx2 : forall v', extract_msgs q <> generate_msgs v' q) by (intros v' [=]).
  intros [[Hx _]|(e & e1 & Hx & -> & ->)]%processWeatherQuery_cases Hin.
  - destruct (WeatherAgent_chats _ _ _ _ _ _ _ _ Hx Hin) as [He|(v' & _ & ->)];
      [destruct (Hx2 v (eq_sym He)) | reflexivity].
  - apply in_app_or in Hin as [Hin|[[=]|[]]].
    destruct (WeatherAgent_chats _ _ _ _ _ _ _ _ Hx Hin) as [He|(v' & _ & [=])].
    destruct (Hx2 v (eq_sym He)).
Qed.

(** C21: the extracted location is not trimmed (spec 4.1 and 4.4 say it
    is): when the model answers a single space, the emptiness test
    passes and wttr.in is asked for the location ["%20"]. *)
Theorem processWeatherQuery_space_location key q evs out rest :
  exec w (processWeatherQuery key q) evs out ->
  evs = EvChat key gpt_model (extract_msgs q) (Ok " ") :: rest ->
  gets evs = ["https://wttr.in/%20?format=j1"].
Proof.
  intros Hx Hevs; rewrite Hevs.
  assert (Hag : forall evs' out', exec w (WeatherAgent (mkCtx (Some key)) q) evs' out' ->
                  (exists t, evs' = EvChat key gpt_model (extract_msgs q) (Ok " ") :: t) ->
                  gets evs' = [wttr_url " "]).
  { clear; intros evs' out' (r1 & rest' & -> & Hc)%WeatherAgent_fetch_cases [t [= -> ->]].
    simpl in Hc; destruct Hc as (r & _ & ->); simpl.
    rewrite gets_app, gets_fetch_logs; reflexivity. }
  rewrite <- Hevs; apply processWeatherQuery_cases in Hx
    as [[Hx _]|(e & e1 & Hx & -> & _)]; [apply (Hag _ _ Hx); eauto |].
  rewrite gets_app, (Hag _ _ Hx); [reflexivity |].
  destruct e1 as [|ev e1]; [discriminate | injection Hevs as -> _; eauto].
Qed.
End Findings.

(** ** Witnesses *)

Lemma processWeatherQuery_answer_witness :
  exists s, snd (run paris_world (processWeatherQuery test_key paris_q)) = Ok s /\
    (s = clarify_msg \/ s = apology \/
     exists v, In (EvChat test_key gpt_model (generate_msgs v paris_q) (Ok s))
                  (fst (run paris_world (processWeatherQuery test_key paris_q)))).
Proof. apply (processWeatherQuery_answer (world_of paris_world)), run_exec. Defined.

Lemma processWeatherQuery_short_circuit_witness :
  snd (run joke_world (processWeatherQuery test_key joke_q)) = Ok clarify_msg /\
  tl (fst (run joke_world (processWeatherQuery test_key joke_q))) =
    [EvLog Stdout (no_location_line joke_q)].
Proof.
  apply (processWeatherQuery_short_circuit (world_of joke_world) test_key joke_q
           (fst (run joke_world (processWeatherQuery test_key joke_q)))
           (snd (run joke_world (processWeatherQuery test_key joke_q))));
    [apply run_exec | vm_compute; reflexivity].
Defined.

Lemma processWeatherQuery_keys_witness :
  Forall (eq test_key) (chat_keys (fst (run paris_world (processWeatherQuery test_key paris_q)))).
Proof.
  apply (processWeatherQuery_keys (world_of paris_world) test_key paris_q _
           (snd (run paris_world (processWeatherQuery test_key paris_q)))), run_exec.
Defined.

Lemma processWeatherQuery_model_failure_witness :
  snd (run quota_world (processWeatherQuery test_key paris_q)) = Ok apology.
Proof.
  apply (processWeatherQuery_model_failure (world_of quota_world) test_key paris_q
           (fst (run quota_world (processWeatherQuery test_key paris_q))) _
           test_key gpt_model (generate_msgs (fetch_result "Paris" (Ok paris_doc)) paris_q)
           (ExternalError "RateLimitError" "429 You exceeded your current quota"));
    [apply run_exec | vm_compute; do 4 right; left; reflexivity].
Defined.

Lemma workflow_run_errors_witness :
  exists evs' m msgs,
    fst (run quota_world (workflow_run test_key paris_q)) =
    (evs' ++ [EvChat test_key m msgs
               (Err (ExternalError "RateLimitError" "429 You exceeded your current quota"))])%list.
Proof.
  apply (workflow_run_errors (world_of quota_world) test_key paris_q).
  pose proof (run_exec quota_world (workflow_run test_key paris_q)) as H.
  replace (Err (ExternalError "RateLimitError" "429 You exceeded your current quota"))
    with (snd (run quota_world (workflow_run test_key paris_q))) by (vm_compute; reflexivity).
  exact H.
Defined.

Lemma processWeatherQuery_refines_witness :
  exists s, snd (run unknown_world (processWeatherQuery test_key unknown_q)) = Ok s /\
    pipeline_spec test_key unknown_q (calls (fst (run unknown_world (processWeatherQuery test_key unknown_q)))) s.
Proof. apply (processWeatherQuery_refines (world_of unknown_world)), run_exec. Defined.

Lemma processWeatherQuery_weather_failure_witness :
  exists g, In (EvChat test_key gpt_model (generate_msgs (weather_obj (degraded "Zzqqxx")) unknown_q) g)
               (fst (run unknown_world (processWeatherQuery test_key unknown_q))) /\
            snd (run unknown_world (processWeatherQuery test_key unknown_q)) =
              Ok (match g with Ok s => s | Err _ => apology end).
Proof.
  apply (processWeatherQuery_weather_failure (world_of unknown_world) test_key unknown_q _ _ "Zzqqxx"
           (Err (ExternalError "AxiosError" "Request failed with status code 404"))
           (ExternalError "AxiosError" "Request failed with status code 404"));
    [apply run_exec | vm_compute; do 2 right; left; reflexivity | reflexivity].
Defined.

Lemma processWeatherQuery_space_location_witness :
  gets (fst (run space_world (processWeatherQuery test_key paris_q))) = ["https://wttr.in/%20?format=j1"].
Proof.
  apply (processWeatherQuery_space_location (world_of space_world) test_key paris_q _
           (snd (run space_world (processWeatherQuery test_key paris_q)))
           (tl (fst (run space_world (processWeatherQuery test_key paris_q)))));
    [apply run_exec | vm_compute; reflexivity].
Defined.

Lemma processWeatherQuery_empty_answer_witness :
  snd (run silent_world (processWeatherQuery test_key paris_q)) = Ok "".
Proof.
  apply (processWeatherQuery_empty_answer (world_of silent_world) test_key paris_q
           (fst (run silent_world (processWeatherQuery test_key paris_q)))
           (snd (run silent_world (processWeatherQuery test_key paris_q)))
           (fetch_result "Paris" (ask_get silent_world (wttr_url "Paris"))));
    [apply run_exec | vm_compute; do 4 right; left; reflexivity].
Defined.

Lemma processWeatherQuery_weather_message_witness :
  exists ps t g, fetch_result "Paris" (Ok paris_doc) = JObj ps /\
    In (EvChat test_key gpt_model [system generate_prompt; user paris_q; system ("Weather data: " ++ t)] g)
       (fst (run paris_world (processWeatherQuery test_key paris_q))) /\
    read_object t = Some (view_members ps).
Proof.
  apply (processWeatherQuery_weather_message (world_of paris_world) test_key paris_q _
           (snd (run paris_world (processWeatherQuery test_key paris_q))) "Paris" (Ok paris_doc));
    [apply run_exec | vm_compute; do 2 right; left; reflexivity | vm_compute; reflexivity].
Defined.
