(* ===== verification/Concurrency.v ===== *)
(** * Concurrency: pipeline runs in flight together

    In Telegram mode every incoming message starts its own asynchronous
    handler (index.tsx lines 194-209), and the handlers of different
    messages interleave at their [await]s: the extraction call, the
    weather request and the generation call of one run can come between
    those of another.  This file gives the runs of [Effects] a small-step
    semantics ([pstep]: one external call and its answer, or one log
    line), proves it equivalent to the big-step [exec], and builds the
    run table of a process ([pool]): runs are started, advanced one step
    at a time in any order, and finished, each step labelled with the
    run it belongs to.

    The main results: the small steps and [exec] agree; the run table's
    invariant [pool_inv] (each run's own steps, picked out of the
    interleaving with [proj], take the program it was started with to
    its present state, there being no state shared between runs); a
    bounded run in a world that answers every call can be taken to its
    end; and a run of [processWeatherQuery] ends within seven steps
    whatever the world answers. *)

From Stdlib Require Import String List Lia Bool Arith.
From S2P Require Import Prelude JsValue Effects Weather Agent.
Import ListNotations.
Open Scope js_scope.
Local Open Scope list_scope.

(** ** One step of a run *)

Section Small.
Context {A : Type} (w : world).

(** The run at an [await]: the call is made and answered, or a line is
    logged. *)
Inductive pstep : prog A -> event -> prog A -> Prop :=
| pstep_chat key m msgs k r :
    chat_answer w key m msgs r -> pstep (Chat key m msgs k) (EvChat key m msgs r) (k r)
| pstep_get u k r :
    get_answer w u r -> pstep (Get u k) (EvGet u r) (k r)
| pstep_log ch l k : pstep (Log ch l k) (EvLog ch l) k.

Inductive psteps : prog A -> list event -> prog A -> Prop :=
| psteps_refl p : psteps p [] p
| psteps_cons p ev p' evs p'' :
    pstep p ev p' -> psteps p' evs p'' -> psteps p (ev :: evs) p''.

(** A run that has returned or thrown. *)
Definition final (p : prog A) : option (res A) :=
  match p with
  | Ret a => Some (Ok a)
  | Raise e => Some (Err e)
  | _ => None
  end.

Lemma psteps_snoc p evs p' ev p'' :
  psteps p evs p' -> pstep p' ev p'' -> psteps p (evs ++ [ev]) p''.
Proof.
  induction 1; intros; simpl; econstructor; eauto using psteps_refl.
Qed.

Lemma final_exec p out : final p = Some out -> exec w p [] out.
Proof. destruct p; simpl; intros [= <-]; constructor. Qed.

Lemma exec_psteps_final p evs out :
  exec w p evs out -> exists p', psteps p evs p' /\ final p' = Some out.
Proof.
  induction 1 as [a|e|? ? ? ? ? ? ? ? _ [p' [? ?]]|? ? ? ? ? ? _ [p' [? ?]]|? ? ? ? ? _ [p' [? ?]]];
    first [eexists; split; [constructor | reflexivity]
          | exists p'; split; [econstructor; [constructor|]|]; eauto].
Qed.

Lemma psteps_exec p evs p' evs' out :
  psteps p evs p' -> exec w p' evs' out -> exec w p (evs ++ evs') out.
Proof.
  induction 1 as [|? ? ? ? ? Hs]; intros Hx; [exact Hx |].
  inversion Hs; subst; simpl; constructor; auto.
Qed.

(** The small steps and [exec] agree: a run executes with trace [evs]
    and result [out] exactly when its steps reach a final program. *)
Lemma exec_iff_psteps p evs out :
  exec w p evs out <-> exists p', psteps p evs p' /\ final p' = Some out.
Proof.
  split; [apply exec_psteps_final |].
  intros (p' & Hs & Hf); rewrite <- (app_nil_r evs).
  eapply psteps_exec; [exact Hs | apply final_exec, Hf].
Qed.
Lemma pstep_bounded n p ev p' : bounded (S n) p -> pstep p ev p' -> bounded n p'.
Proof. intros Hb Hs; destruct Hs; simpl in Hb; auto. Qed.

(** A run bounded by [n] makes at most [n] steps, and what is left of it
    is bounded by what is left of [n]. *)
Lemma psteps_bounded n p evs p' :
  bounded n p -> psteps p evs p' -> List.length evs <= n /\ bounded (n - List.length evs) p'.
Proof.
  intros Hb Hs; revert n Hb; induction Hs as [p|p ev p' evs p'' Hs _ IH]; intros n Hb.
  - rewrite Nat.sub_0_r; split; [simpl; lia | exact Hb].
  - destruct n as [|n]; [destruct Hs; simpl in Hb; contradiction |].
    destruct (IH n (pstep_bounded _ _ _ _ Hb Hs)) as [Hl Hr]; simpl; split; [lia | exact Hr].
Qed.

(** In a world that answers every call, a run that has not ended can
    take a step. *)
Lemma pstep_progress p : total w -> final p = None -> exists ev p', pstep p ev p'.
Proof.
  intros [Hc Hg]; destruct p as [a|e|key m msgs k|u k|ch l k]; intros Hf; try discriminate.
  - destruct (Hc key m msgs) as [r Hr]; eexists _, _; constructor; exact Hr.
  - destruct (Hg u) as [r Hr]; eexists _, _; constructor; exact Hr.
  - eexists _, _; constructor.
Qed.
End Small.

#[export] Hint Constructors pstep psteps : js.

(** ** The run table of a process *)

Section Pool.
Context {A T : Type} (w : world) (spawn : T -> prog A).

(** A run is started for an input of type [T] (a chat message, say);
    its slot in the table is its index, which the table never reuses. *)
Inductive status : Type :=
| Running (p : prog A)
| Finished (out : res A).

Definition table : Type := list (T * status).

Inductive label : Type :=
| LStart (i : nat) (t : T)
| LStep (i : nat) (ev : event)
| LDone (i : nat) (t : T) (out : res A).

(** Start a run, advance any running run by one step, or retire a run
    that has returned or thrown; the order is free. *)
Inductive pool_step : table -> label -> table -> Prop :=
| pool_start P t :
    pool_step P (LStart (List.length P) t) (P ++ [(t, Running (spawn t))])
| pool_advance P1 P2 t p ev p' :
    pstep w p ev p' ->
    pool_step (P1 ++ (t, Running p) :: P2) (LStep (List.length P1) ev)
              (P1 ++ (t, Running p') :: P2)
| pool_finish P1 P2 t p out :
    final p = Some out ->
    pool_step (P1 ++ (t, Running p) :: P2) (LDone (List.length P1) t out)
              (P1 ++ (t, Finished out) :: P2).

(** The traces of a process that starts with no run. *)
Inductive reach : list label -> table -> Prop :=
| reach_init : reach [] []
| reach_step tr P l P' : reach tr P -> pool_step P l P' -> reach (tr ++ [l]) P'.

(** The steps of run [i] in an interleaved trace. *)
Definition step_of (i : nat) (l : label) : list event :=
  match l with
  | LStep j ev => if Nat.eqb i j then [ev] else []
  | _ => []
  end.

Definition proj (i : nat) (tr : list label) : list event := flat_map (step_of i) tr.

(** What the trace says of run [i]: it was started for [t], and its own
    steps took [spawn t] to its present state. *)
Definition run_ok (tr : list label) (i : nat) (t : T) (st : status) : Prop :=
  In (LStart i t) tr /\
  match st with
  | Running p => psteps w (spawn t) (proj i tr) p
  | Finished out => exec w (spawn t) (proj i tr) out /\ In (LDone i t out) tr
  end.

Definition pool_inv (tr : list label) (P : table) : Prop :=
  (forall i t st, nth_error P i = Some (t, st) -> run_ok tr i t st) /\
  (forall i t, In (LStart i t) tr -> exists st, nth_error P i = Some (t, st)) /\
  (forall i ev, In (LStep i ev) tr -> i < List.length P) /\
  (forall i t out, In (LDone i t out) tr -> nth_error P i = Some (t, Finished out)).

Lemma proj_app i tr tr' : proj i (tr ++ tr') = proj i tr ++ proj i tr'.
Proof. apply flat_map_app. Qed.

Lemma proj_unused i tr : (forall ev, ~ In (LStep i ev) tr) -> proj i tr = [].
Proof.
  induction tr as [|[j t|j ev|j t out] tr IH]; intros H; simpl; auto.
  - apply IH; intros ev Hin; apply (H ev); right; exact Hin.
  - destruct (Nat.eqb_spec i j) as [->|_]; [destruct (H ev); left; reflexivity |].
    apply IH; intros ev' Hin; apply (H ev'); right; exact Hin.
  - apply IH; intros ev Hin; apply (H ev); right; exact Hin.
Qed.

Lemma nth_error_mid {X : Type} (l1 l2 : list X) x : nth_error (l1 ++ x :: l2) (List.length l1) = Some x.
Proof. rewrite nth_error_app2, Nat.sub_diag by lia; reflexivity. Qed.

Lemma nth_error_other {X : Type} (l1 l2 : list X) x y i :
  i <> List.length l1 -> nth_error (l1 ++ x :: l2) i = nth_error (l1 ++ y :: l2) i.
Proof.
  intros Hi; destruct (Nat.lt_ge_cases i (List.length l1)).
  - rewrite !nth_error_app1 by lia; reflexivity.
  - rewrite !nth_error_app2 by lia; destruct (i - List.length l1) eqn:E; [lia | reflexivity].
Qed.

Lemma run_ok_extend tr l i t st :
  proj i [l] = [] -> run_ok tr i t st -> run_ok (tr ++ [l]) i t st.
Proof.
  intros Hp [Hs Hst]; unfold run_ok; rewrite proj_app, Hp, app_nil_r.
  split; [apply in_or_app; left; exact Hs |].
  destruct st; [exact Hst | destruct Hst; split; [|apply in_or_app; left]; assumption].
Qed.
Lemma in_snoc {X : Type} (x l : X) tr : In x (tr ++ [l]) <-> In x tr \/ x = l.
Proof. rewrite in_app_iff; simpl; intuition. Qed.

Lemma inv_start tr P t :
  pool_inv tr P ->
  pool_inv (tr ++ [LStart (List.length P) t]) (P ++ [(t, Running (spawn t))]).
Proof.
  intros (H1 & H2 & H3 & H4).
  assert (Hnil : proj (List.length P) tr = [])
    by (apply proj_unused; intros ev Hin; specialize (H3 _ _ Hin); lia).
  split; [|split; [|split]].
  - intros i t' st Hn; destruct (Nat.lt_ge_cases i (List.length P)).
    + rewrite nth_error_app1 in Hn by assumption; apply run_ok_extend, H1, Hn; reflexivity.
    + rewrite nth_error_app2 in Hn by assumption.
      destruct (i - List.length P) as [|k] eqn:E; [|destruct k; discriminate].
      injection Hn as <- <-; replace i with (List.length P) by lia.
      split; [apply in_snoc; right; reflexivity |].
      rewrite proj_app, Hnil; constructor.
  - intros i t' [Hin|[= -> ->]]%in_snoc.
    + destruct (H2 _ _ Hin) as [st Hn]; exists st.
      rewrite nth_error_app1; [exact Hn | apply nth_error_Some; congruence].
    + exists (Running (spawn t)); apply nth_error_mid.
  - intros i ev [Hin|[=]]%in_snoc; rewrite length_app; specialize (H3 _ _ Hin); lia.
  - intros i t' out [Hin|[=]]%in_snoc; specialize (H4 _ _ _ Hin).
    rewrite nth_error_app1; [exact H4 | apply nth_error_Some; congruence].
Qed.

(** A step that touches only run [length P1]. *)
Lemma inv_update tr P1 P2 t s s' l :
  pool_inv tr (P1 ++ (t, s) :: P2) ->
  (forall i, i <> List.length P1 -> proj i [l] = []) ->
  (forall i t', l <> LStart i t') ->
  (forall i ev, l = LStep i ev -> i = List.length P1) ->
  (forall i t' out, l = LDone i t' out -> i = List.length P1 /\ t' = t /\ s' = Finished out) ->
  (forall out, s <> Finished out) ->
  run_ok (tr ++ [l]) (List.length P1) t s' ->
  pool_inv (tr ++ [l]) (P1 ++ (t, s') :: P2).
Proof.
  intros (H1 & H2 & H3 & H4) Hp Hns Hst Hdone Hrun Hok; split; [|split; [|split]].
  - intros i t' st Hn; destruct (Nat.eq_dec i (List.length P1)) as [->|Hi].
    + rewrite nth_error_mid in Hn; injection Hn as <- <-; exact Hok.
    + rewrite (nth_error_other _ _ _ (t, s)) in Hn by exact Hi.
      apply run_ok_extend, H1, Hn; auto.
  - intros i t' [Hin|Hl]%in_snoc; [|destruct (Hns i t' (eq_sym Hl))].
    destruct (H2 _ _ Hin) as [st Hn].
    destruct (Nat.eq_dec i (List.length P1)) as [->|Hi].
    + rewrite nth_error_mid in Hn; injection Hn as <- <-; exists s'; apply nth_error_mid.
    + exists st; rewrite (nth_error_other _ _ _ (t, s)) by exact Hi; exact Hn.
  - intros i ev [Hin|Hl]%in_snoc; rewrite !length_app in *; simpl in *.
    + exact (H3 _ _ Hin).
    + rewrite (Hst i ev (eq_sym Hl)); lia.
  - intros i t' out [Hin|Hl]%in_snoc.
    + specialize (H4 _ _ _ Hin).
      destruct (Nat.eq_dec i (List.length P1)) as [->|Hi].
      * rewrite nth_error_mid in H4; injection H4 as _ Hs; destruct (Hrun out Hs).
      * rewrite (nth_error_other _ _ _ (t, s)) by exact Hi; exact H4.
    + destruct (Hdone i t' out (eq_sym Hl)) as (-> & -> & ->); apply nth_error_mid.
Qed.

Lemma inv_advance tr P1 P2 t p ev p' :
  pool_inv tr (P1 ++ (t, Running p) :: P2) -> pstep w p ev p' ->
  pool_inv (tr ++ [LStep (List.length P1) ev]) (P1 ++ (t, Running p') :: P2).
Proof.
  intros Hinv Hs; apply (inv_update _ _ _ _ (Running p)); auto.
  - intros i Hi; simpl; destruct (Nat.eqb_spec i (List.length P1)); [contradiction | reflexivity].
  - intros i t' [=].
  - intros i ev' [= -> _]; reflexivity.
  - intros i t' out [=].
  - intros out [=].
  - destruct ((proj1 Hinv) _ _ _ (nth_error_mid _ _ _)) as [Hin Hp].
    split; [apply in_snoc; left; exact Hin |].
    rewrite proj_app; simpl; rewrite Nat.eqb_refl; eapply psteps_snoc; eauto.
Qed.

Lemma inv_finish tr P1 P2 t p out :
  pool_inv tr (P1 ++ (t, Running p) :: P2) -> final p = Some out ->
  pool_inv (tr ++ [LDone (List.length P1) t out]) (P1 ++ (t, Finished out) :: P2).
Proof.
  intros Hinv Hf; apply (inv_update _ _ _ _ (Running p)); [exact Hinv | reflexivity | discriminate | discriminate | ..].
  - intros i t' out' [= -> -> ->]; auto.
  - intros out' [=].
  - destruct ((proj1 Hinv) _ _ _ (nth_error_mid _ _ _)) as [Hin Hp].
    split; [apply in_snoc; left; exact Hin |].
    rewrite proj_app, app_nil_r; split; [|apply in_snoc; right; reflexivity].
    rewrite <- (app_nil_r (proj _ tr)); eapply psteps_exec; [exact Hp | apply final_exec, Hf].
Qed.

(** Every reachable table is described by its trace. *)
Lemma reach_inv tr P : reach tr P -> pool_inv tr P.
Proof.
  induction 1 as [|tr P l P' _ IH Hs].
  - split; [|split; [|split]]; [intros [] ? ? [=] | intros ? ? [] | intros ? ? [] | intros ? ? ? []].
  - destruct Hs; eauto using inv_start, inv_advance, inv_finish.
Qed.

(** The slots started and the slots retired along a trace. *)
Definition started (tr : list label) : list nat :=
  flat_map (fun l => match l with LStart i _ => [i] | _ => [] end) tr.
Definition settled (tr : list label) : list nat :=
  flat_map (fun l => match l with LDone i _ _ => [i] | _ => [] end) tr.

Lemma in_started i tr : In i (started tr) -> exists t, In (LStart i t) tr.
Proof. intros (l & Hl & Hi)%in_flat_map; destruct l; simpl in Hi; try contradiction; destruct Hi as [<-|[]]; eauto. Qed.

Lemma in_settled i tr : In i (settled tr) -> exists t out, In (LDone i t out) tr.
Proof. intros (l & Hl & Hi)%in_flat_map; destruct l; simpl in Hi; try contradiction; destruct Hi as [<-|[]]; eauto. Qed.

(** Along any trace each slot is started once and retired at most once. *)
Lemma reach_once tr P : reach tr P -> NoDup (started tr) /\ NoDup (settled tr).
Proof.
  induction 1 as [|tr P l P' Hr [IHs IHd] Hs]; [split; constructor |].
  destruct (reach_inv _ _ Hr) as (_ & H2 & _ & H4); unfold started, settled in *.
  rewrite !flat_map_app; destruct Hs as [P0 t|P1 P2 t p ev p' _|P1 P2 t p out _];
    cbn [flat_map app]; rewrite ?app_nil_r; split; auto; apply NoDup_snoc; auto.
  - intros (t' & Hin)%in_started; destruct (H2 _ _ Hin) as [st Hn].
    rewrite (proj2 (nth_error_None P0 (List.length P0)) (le_n _)) in Hn; discriminate.
  - intros (t' & out' & Hin)%in_settled; specialize (H4 _ _ _ Hin).
    rewrite nth_error_mid in H4; discriminate.
Qed.
End Pool.

Arguments Running {A} p.
Arguments Finished {A} out.
Arguments LStart {A T} i t.
Arguments LStep {A T} i ev.
Arguments LDone {A T} i t out.

(** ** The steps of one run, out of any interleaving *)

(** ** Completing the runs in flight *)

Section Drain.
Context {A T : Type} (w : world) (spawn : T -> prog A).

Definition running (st : @status A) : bool := match st with Running _ => true | _ => false end.

Definition busy (P : @table A T) : nat := List.length (filter (fun x => running (snd x)) P).

Lemma busy_mid P1 P2 (x : T * status) :
  busy (P1 ++ x :: P2) = busy P1 + (if running (snd x) then 1 else 0) + busy P2.
Proof.
  unfold busy; rewrite filter_app, length_app; simpl.
  destruct (running (snd x)); simpl; lia.
Qed.

Lemma busy_split P : busy P > 0 -> exists P1 t p P2, P = P1 ++ (t, Running p) :: P2.
Proof.
  unfold busy; intros H.
  destruct (filter (fun x => running (snd x)) P) as [|[t st] l] eqn:E; [simpl in H; lia |].
  assert (Hin : In (t, st) (filter (fun x => running (snd x)) P)) by (rewrite E; left; reflexivity).
  apply filter_In in Hin as [Hin Hr]; destruct st as [p|]; [| discriminate].
  apply in_split in Hin as (P1 & P2 & ->); eauto.
Qed.

(** One run, bounded by [n], can be taken to its end. *)
Lemma finish_slot n tr P1 P2 t p :
  total w -> reach w spawn tr (P1 ++ (t, Running p) :: P2) -> bounded n p ->
  exists tr' out, reach w spawn (tr ++ tr') (P1 ++ (t, Finished out) :: P2).
Proof.
  revert tr p; induction n as [|n IH]; intros tr p Ht Hr Hb;
    (destruct (final p) as [out|] eqn:Hf;
     [exists [LDone (List.length P1) t out], out; econstructor; [exact Hr | constructor; exact Hf] |]).
  - destruct p; simpl in Hf, Hb; try discriminate; contradiction.
  - destruct (pstep_progress w p Ht Hf) as (ev & p' & Hs).
    assert (Hr' : reach w spawn (tr ++ [LStep (List.length P1) ev]) (P1 ++ (t, Running p') :: P2))
      by (econstructor; [exact Hr | constructor; exact Hs]).
    destruct (IH _ _ Ht Hr' (pstep_bounded _ _ _ _ _ Hb Hs)) as (tr' & out & H).
    exists ([LStep (List.length P1) ev] ++ tr'), out; rewrite app_assoc; exact H.
Qed.

(** A run in flight is bounded by the bound of the program it was
    started with, whatever steps it has made. *)
Lemma running_bounded n tr P i t p :
  (forall t, bounded n (spawn t)) -> reach w spawn tr P ->
  nth_error P i = Some (t, Running p) -> bounded n p.
Proof.
  intros Hs Hr Hn; destruct (proj1 (reach_inv _ _ _ _ Hr) _ _ _ Hn) as [_ Hp].
  apply (bounded_mono _ (n - List.length (proj i tr))); [| lia].
  exact (proj2 (psteps_bounded _ _ _ _ _ (Hs t) Hp)).
Qed.

Lemma busy_zero P i t st : busy P = 0 -> nth_error P i = Some (t, st) -> exists out, st = Finished out.
Proof.
  intros Hz Hn; destruct st as [p|out]; eauto.
  apply nth_error_split in Hn as (P1 & P2 & -> & _); rewrite busy_mid in Hz; simpl in Hz; lia.
Qed.
End Drain.

(** ** An executable scheduler *)

Section Scheduler.
Context {A T : Type} (o : oracle) (spawn : T -> prog A).

(** One step of a run, answered by the oracle. *)
Definition advance (p : prog A) : option (event * prog A) :=
  match p with
  | Chat key m msgs k => let r := ask_chat o key m msgs in Some (EvChat key m msgs r, k r)
  | Get u k => let r := ask_get o u in Some (EvGet u r, k r)
  | Log ch l k => Some (EvLog ch l, k)
  | _ => None
  end.

Fixpoint replace_nth {X : Type} (l : list X) (i : nat) (x : X) : list X :=
  match l, i with
  | [], _ => []
  | _ :: l', O => x :: l'
  | y :: l', S i' => y :: replace_nth l' i' x
  end.

Inductive action : Type :=
| AStart (t : T)
| AAdvance (i : nat)
| AFinish (i : nat).

Definition sched_step (P : table) (a : action) : option (label * table) :=
  match a with
  | AStart t => Some (LStart (List.length P) t, P ++ [(t, Running (spawn t))])
  | AAdvance i =>
      match nth_error P i with
      | Some (t, Running p) =>
          match advance p with
          | Some (ev, p') => Some (LStep i ev, replace_nth P i (t, Running p'))
          | None => None
          end
      | _ => None
      end
  | AFinish i =>
      match nth_error P i with
      | Some (t, Running p) =>
          match final p with
          | Some out => Some (LDone i t out, replace_nth P i (t, Finished out))
          | None => None
          end
      | _ => None
      end
  end.

Lemma advance_pstep p ev p' : advance p = Some (ev, p') -> pstep (world_of o) p ev p'.
Proof. destruct p; simpl; intros [= <- <-]; constructor; reflexivity. Qed.

Lemma replace_nth_mid {X : Type} (l1 l2 : list X) x y :
  replace_nth (l1 ++ y :: l2) (List.length l1) x = l1 ++ x :: l2.
Proof. induction l1; simpl; congruence. Qed.

Lemma sched_step_sound P a l P' :
  sched_step P a = Some (l, P') -> pool_step (world_of o) spawn P l P'.
Proof.
  destruct a as [t|i|i]; simpl; [intros [= <- <-]; constructor |..];
    destruct (nth_error P i) as [[t [p|out]]|] eqn:Hn; try discriminate;
    destruct (nth_error_split P i Hn) as (P1 & P2 & -> & <-).
  - destruct (advance p) as [[ev p']|] eqn:Ha; [intros [= <- <-] | discriminate].
    rewrite replace_nth_mid; constructor; apply advance_pstep, Ha.
  - destruct (final p) as [out'|] eqn:Hf; [intros [= <- <-] | discriminate].
    rewrite replace_nth_mid; constructor; exact Hf.
Qed.

End Scheduler.

(** ** Termination of the runs *)

Lemma bounded_zero_final {A : Type} (p : prog A) : bounded 0 p -> final p <> None.
Proof. destruct p; simpl; (discriminate || contradiction). Qed.


(** C26: a run of [processWeatherQuery] ends, whatever the model and
    the network answer: it makes at most seven steps (extraction, two
    log lines, the GET and its error line, generation, the failure
    line), and after seven it has returned. *)
Theorem processWeatherQuery_terminates w key q evs p :
  psteps w (processWeatherQuery key q) evs p ->
  List.length evs <= 7 /\ (List.length evs = 7 -> final p <> None).
Proof.
  intros Hs; destruct (psteps_bounded _ _ _ _ _ (@processWeatherQuery_bounded FetchWeather_source key q FetchWeather_bounded) Hs) as [Hl Hb].
  split; [exact Hl | intros He; rewrite He in Hb; apply bounded_zero_final, Hb].
Qed.

Lemma processWeatherQuery_terminates_witness :
  exists evs p, psteps (world_of quota_world) (processWeatherQuery test_key paris_q) evs p /\
    (List.length evs <= 7 /\ (List.length evs = 7 -> final p <> None)).
Proof.
  destruct (exec_psteps_final _ _ _ _ (run_exec quota_world (processWeatherQuery test_key paris_q)))
    as (p & Hs & _).
  exists (fst (run quota_world (processWeatherQuery test_key paris_q))), p; split; [exact Hs | exact (processWeatherQuery_terminates _ _ _ _ _ Hs)].
Defined.
