(* ===== verification/Frontend.v ===== *)
(** * Frontend: start-up, the console loop and the Telegram bot
      (index.tsx lines 8-23, 171-257)

    The process reads its environment, stops with exit code 1 when the
    OpenAI key is missing, and picks a mode: ["telegram"] starts the
    bot, anything else the console loop.  The console loop asks one
    question at a time and runs [processWeatherQuery] on each line until
    a line that lower-cases to ["exit"].  The bot starts a handler run
    for every message that does not start with ["/"], interleaved with
    the others (the run table of [Concurrency]), and answers ["/start"]
    anywhere in a text with its greeting.

    What the process shows is a list of [out]: its inputs (console lines,
    Telegram updates), what it writes to the console and to Telegram,
    the external calls of the pipeline runs, and its exit.  Strings are
    UTF-8 byte strings, so the emoji of the messages are their bytes. *)

From Stdlib Require Import String Ascii List ZArith Lia Bool.
From S2P Require Import Prelude JsString JsValue Json Effects Weather Agent Concurrency.
Import ListNotations.
Open Scope string_scope.
Open Scope js_scope.

(** ** Environment and start-up (lines 8-23, 246-257) *)

(** [process.env] after [dotenv.config()]: a variable is a string or
    [undefined]. *)
Record env : Type := mkEnv {
  TELEGRAM_BOT_TOKEN : option string;
  OPENAI_API_KEY : option string;
  MODE : option string
}.

Definition env_val (v : option string) : jsval :=
  match v with Some s => JStr s | None => JUndefined end.

(** A Telegram update carrying a message: its chat and its text, absent
    for photos, stickers and the like. *)
Record tmsg : Type := mkMsg { chat_id : Z; text : option string }.

Inductive out : Type :=
| OLine (q : string)                  (* a line typed at the console *)
| OIn (m : tmsg)                      (* a Telegram message received *)
| OLog (ch : channel) (line : string) (* console.log / console.error *)
| OPrompt (s : string)                (* rl.question writes its prompt *)
| OClose                              (* rl.close() *)
| OExit (code : Z)                    (* process.exit(code) *)
| OEv (ev : event)                    (* an external call or log line of a run *)
| OBot (token : string)               (* new TelegramBot(token, {polling: true}) *)
| OTyping (chat : Z)                  (* bot.sendChatAction(chat, 'typing') *)
| OSend (chat : Z) (s : string)       (* bot.sendMessage(chat, s) *)
| OUnhandled (e : exn)                (* a rejected promise nobody awaits *)
| OEof.                               (* the end of standard input *)

Definition key_missing : list out :=
  [OLog Stderr "❌ OPENAI_API_KEY not found in environment variables!";
   OLog Stderr "Please add OPENAI_API_KEY to your .env file";
   OExit 1].

Definition token_missing_mode : list out :=
  [OLog Stderr "❌ 'telegram' mode selected, but TELEGRAM_BOT_TOKEN not found in environment variables!";
   OLog Stderr "Please add TELEGRAM_BOT_TOKEN to your .env file or use 'console' mode.";
   OExit 1].

Definition token_missing_bot : list out :=
  [OLog Stderr "❌ TELEGRAM_BOT_TOKEN not found in environment variables!";
   OLog Stderr "Please add TELEGRAM_BOT_TOKEN to your .env file to use Telegram mode.";
   OExit 1].

Definition bot_started : string := "🤖 Telegram bot started and ready to answer queries!".
Definition console_banner : string := "🖥️ Starting in console mode...".

(** The mode the process runs in, with the key every run uses. *)
Inductive mode : Type :=
| ConsoleMode (key : string)
| TelegramMode (key token : string).

(** [startTelegramBot()] up to its handlers, lines 172-182. *)
Definition startTelegramBot (token : option string) (key : string) : list out * option mode :=
  match token with
  | Some t => if truthy (JStr t) then ([OBot t; OLog Stdout bot_started], Some (TelegramMode key t))
              else (token_missing_bot, None)
  | None => (token_missing_bot, None)
  end.

(** The module's top level: the key check (lines 19-23), [MODE ||
    'console'] (line 16) and the choice of mode (lines 247-257); [None]
    when the process has exited. *)
Definition startup (e : env) : list out * option mode :=
  match OPENAI_API_KEY e with
  | Some key =>
      if truthy (env_val (Some key)) then
        let md := if truthy (env_val (MODE e)) then to_js_string (env_val (MODE e)) else "console" in
        if String.eqb md "telegram" then
          if negb (truthy (env_val (TELEGRAM_BOT_TOKEN e))) then (token_missing_mode, None)
          else startTelegramBot (TELEGRAM_BOT_TOKEN e) key
        else ([OLog Stdout console_banner], Some (ConsoleMode key))
      else (key_missing, None)
  | None => (key_missing, None)
  end.

(** ** The console loop (lines 213-244) *)

Definition welcome : string := "👋 Weather assistant welcomes you!".
Definition example_line : string :=
  "Ask about the weather in any city, for example: " ++
  String quote_char ("What's the weather in London?" ++ String quote_char EmptyString).
Definition exit_hint : string := "To exit type 'exit'".
Definition question : string := "Your question: ".
Definition goodbye : string := "Goodbye! Have a great day!".
Definition waiting_line : string := "⌛ Getting weather information...".

(** [console.log("\n🌤️ " + result + "\n")], line 236. *)
Definition answer_line (result : string) : string := nl ++ "🌤️ " ++ result ++ nl.

(** [query.toLowerCase() === 'exit'], line 227.  [to_lower] maps the
    ASCII letters only; a line with other bytes never lower-cases to
    ["exit"] in JavaScript either, since no other character lower-cases
    to one of its letters. *)
Definition is_exit (q : string) : bool := String.eqb (to_lower q) "exit".

Inductive console_end : Type :=
| Waiting            (* the lines ran out; a question is pending *)
| Exited (code : Z).

(** [processQuery] on each line the user types, line 226: the exit test,
    the pipeline run, its answer and the next question.  A run that
    rejected would be an unhandled rejection, which ends the process. *)
Fixpoint console_loop (o : oracle) (key : string) (qs : list string) : list out * console_end :=
  match qs with
  | [] => ([], Waiting)
  | q :: qs' =>
      if is_exit q then ([OLine q; OLog Stdout goodbye; OClose; OExit 0], Exited 0)
      else
        let '(evs, r) := run o (processWeatherQuery key q) in
        match r with
        | Ok result =>
            let '(outs, fin) := console_loop o key qs' in
            ((OLine q :: OLog Stdout waiting_line :: map OEv evs ++
              [OLog Stdout (answer_line result); OPrompt question] ++ outs)%list, fin)
        | Err e =>
            ((OLine q :: OLog Stdout waiting_line :: map OEv evs ++ [OUnhandled e; OExit 1])%list,
             Exited 1)
        end
  end.

(** [startConsoleMode()], line 213: the greeting and the first question. *)
Definition startConsoleMode (o : oracle) (key : string) (qs : list string) : list out * console_end :=
  let '(outs, fin) := console_loop o key qs in
  (([OLog Stdout welcome; OLog Stdout example_line; OLog Stdout exit_hint; OPrompt question] ++ outs)%list,
   fin).

(** One answered line: what the console shows for a line that is not
    ["exit"], when its run returns [result]. *)
Definition console_block (q : string) (evs : list event) (result : string) : list out :=
  (OLine q :: OLog Stdout waiting_line :: map OEv evs ++
   [OLog Stdout (answer_line result); OPrompt question])%list.

(** ** The Telegram bot (lines 185-209) *)

(** [msg.text || ''], line 198. *)
Definition query_of (m : tmsg) : string :=
  match text m with
  | Some s => if truthy (JStr s) then s else ""
  | None => ""
  end.

(** [!msg.text?.startsWith('/')], line 196: true for a message without
    text. *)
Definition handles (m : tmsg) : bool :=
  match text m with
  | Some s => negb (starts_with s "/")
  | None => true
  end.

(** [bot.onText(/\/start/, ...)], line 185: the regular expression is
    tested on the text of text messages and matches ["/start"] anywhere
    in it. *)
Definition greets (m : tmsg) : bool :=
  match text m with
  | Some s => includes s "/start"
  | None => false
  end.

Definition start_reply : string :=
  "👋 Weather assistant welcomes you!" ++ nl ++ nl ++ example_line.

(** [`🌤️ ${response}`], line 207. *)
Definition reply_text (response : string) : string := "🌤️ " ++ response.

(** What receiving a message shows at once: the library emits
    ['message'] before it tests the [onText] expressions, and the
    message handler runs up to its first [await] (the typing action and
    the start of its run) before the emitter returns. *)
Definition on_message (m : tmsg) : list out :=
  (OIn m :: (if handles m then [OTyping (chat_id m)] else []) ++
   (if greets m then [OSend (chat_id m) start_reply] else []))%list.

(** What the handler does when its run settles: send the answer; a
    rejection (which the runner never produces) is left unhandled. *)
Definition on_settled (m : tmsg) (r : res string) : list out :=
  match r with
  | Ok response => [OSend (chat_id m) (reply_text response)]
  | Err e => [OUnhandled e]
  end.

Section Bot.
Context `{WS : WeatherSource}.
Variable w : world.
Variable key : string.

(** The run a handled message starts: [processWeatherQuery(userQuery)],
    line 204. *)
Definition bot_run (m : tmsg) : prog string := processWeatherQuery key (query_of m).

(** The bot's traces: messages arrive, runs advance in any order, and a
    run that settles sends its reply.  Beside what the bot shows, the
    trace of its run table is kept. *)
Inductive bot_reach : list out -> list (@label string tmsg) -> @table string tmsg -> Prop :=
| bot_init : bot_reach [] [] []
| bot_message_run outs tr P m :
    bot_reach outs tr P -> handles m = true ->
    bot_reach (outs ++ on_message m)%list (tr ++ [LStart (List.length P) m])%list
              (P ++ [(m, Running (bot_run m))])%list
| bot_message_skip outs tr P m :
    bot_reach outs tr P -> handles m = false ->
    bot_reach (outs ++ on_message m)%list tr P
| bot_advance outs tr P i ev P' :
    bot_reach outs tr P -> pool_step w bot_run P (LStep i ev) P' ->
    bot_reach (outs ++ [OEv ev])%list (tr ++ [LStep i ev])%list P'
| bot_settle outs tr P i m r P' :
    bot_reach outs tr P -> pool_step w bot_run P (LDone i m r) P' ->
    bot_reach (outs ++ on_settled m r)%list (tr ++ [LDone i m r])%list P'.
End Bot.

(** ** What the console shows *)

(** The executable run of [processWeatherQuery] returns a string, by a
    complete execution of the pipeline. *)
Lemma run_processWeatherQuery o key q :
  exists evs s, run o (processWeatherQuery key q) = (evs, Ok s) /\
                exec (world_of o) (processWeatherQuery key q) evs (Ok s).
Proof.
  pose proof (run_exec o (processWeatherQuery key q)) as H.
  destruct (run o _) as [evs out]; simpl in H.
  destruct (safe_exec _ _ _ _ (processWeatherQuery_safe key q) H) as [s ->]; eauto.
Qed.

Definition answered (o : oracle) (key q : string) (b : list out) : Prop :=
  exists evs s, exec (world_of o) (processWeatherQuery key q) evs (Ok s) /\ b = console_block q evs s.

(** Lines that are not ["exit"] each give one block, in order, and the
    loop goes on with the lines after them. *)
Lemma console_loop_app o key qs1 rest :
  Forall (fun q => is_exit q = false) qs1 ->
  exists blocks, Forall2 (answered o key) qs1 blocks /\
    console_loop o key (qs1 ++ rest) =
      ((concat blocks ++ fst (console_loop o key rest))%list, snd (console_loop o key rest)).
Proof.
  induction 1 as [|q qs1 Hq _ (blocks & Hb & IH)].
  - exists []; split; [constructor |].
    simpl; destruct (console_loop o key rest); reflexivity.
  - destruct (run_processWeatherQuery o key q) as (evs & s & E & Hx).
    exists (console_block q evs s :: blocks); split; [constructor; [exists evs, s |]; auto |].
    cbn [app console_loop]; rewrite Hq, E, IH; simpl; rewrite <- !app_assoc; reflexivity.
Qed.

Definition console_greeting : list out :=
  [OLog Stdout welcome; OLog Stdout example_line; OLog Stdout exit_hint; OPrompt question].

Definition console_bye (q : string) : list out := [OLine q; OLog Stdout goodbye; OClose; OExit 0].

Lemma console_loop_exit o key q qs :
  is_exit q = true -> console_loop o key (q :: qs) = (console_bye q, Exited 0).
Proof. intros Hq; cbn [console_loop]; rewrite Hq; reflexivity. Qed.

(** C5: the console answers the lines typed before the first ["exit"]
    (in any letter case) one at a time and in order, each block being
    the waiting line, a complete run of [processWeatherQuery] on that
    line, its answer and the next question; the ["exit"] line ends the
    process with code 0, and the lines typed after it are never read. *)
Theorem console_exit_session o key qs1 q qs2 :
  Forall (fun q' => is_exit q' = false) qs1 -> is_exit q = true ->
  exists blocks, Forall2 (answered o key) qs1 blocks /\
    startConsoleMode o key (qs1 ++ q :: qs2)%list =
      ((console_greeting ++ concat blocks ++ console_bye q)%list, Exited 0).
Proof.
  intros H1 Hq; destruct (console_loop_app o key qs1 (q :: qs2) H1) as (blocks & Hb & E).
  exists blocks; split; [exact Hb |].
  unfold startConsoleMode; rewrite E, (console_loop_exit _ _ _ _ Hq); reflexivity.
Qed.

(** ** What the bot sends *)

Lemma on_message_send m c t :
  In (OSend c t) (on_message m) -> chat_id m = c /\ greets m = true /\ t = start_reply.
Proof.
  unfold on_message; simpl; rewrite in_app_iff.
  destruct (handles m), (greets m); simpl; intuition congruence.
Qed.

Lemma in_app_l {X : Type} (x : X) l l' : In x l -> In x (l ++ l')%list.
Proof. intros; apply in_or_app; left; assumption. Qed.

Section BotRuns.
Context `{WS : WeatherSource}.
Variable w : world.
Variable key : string.

(** The bot's run table is a run table of [Concurrency]. *)
Lemma bot_pool outs tr P : bot_reach w key outs tr P -> reach w (bot_run key) tr P.
Proof.
  induction 1; try (econstructor; eauto); try constructor; assumption.
Qed.

(** A run is started only for a received message that the handler
    takes. *)
Lemma bot_starts outs tr P : bot_reach w key outs tr P ->
  forall i m, In (LStart i m) tr -> In (OIn m) outs /\ handles m = true.
Proof.
  induction 1 as [|outs tr P m' _ IH Hh|outs tr P m' _ IH|outs tr P i' ev P' _ IH _|outs tr P i' m' r P' _ IH _];
    intros i m Hin.
  - destruct Hin.
  - apply in_snoc in Hin as [Hin|Hl].
    + destruct (IH _ _ Hin); split; [apply in_app_l |]; assumption.
    + injection Hl as -> ->; split; [apply in_or_app; right; left |]; auto.
  - destruct (IH _ _ Hin); split; [apply in_app_l |]; assumption.
  - apply in_snoc in Hin as [Hin|[=]].
    destruct (IH _ _ Hin); split; [apply in_app_l |]; assumption.
  - apply in_snoc in Hin as [Hin|[=]].
    destruct (IH _ _ Hin); split; [apply in_app_l |]; assumption.
Qed.

(** A run settles with the answer of a complete execution of the
    pipeline on the text of the message it was started for. *)
Lemma bot_settle_ok outs tr P i m r P' :
  bot_reach w key outs tr P -> pool_step w (bot_run key) P (LDone i m r) P' ->
  In (LStart i m) tr /\ exists evs s, r = Ok s /\ exec w (bot_run key m) evs (Ok s).
Proof.
  intros Hb Hs; destruct (reach_inv _ _ _ _ (bot_pool _ _ _ Hb)) as (H1 & _).
  inversion Hs as [| |P1 P2 m' p r' Hf]; subst.
  destruct (H1 _ _ _ (nth_error_mid _ _ _)) as [Hin Hp]; split; [exact Hin |].
  pose proof (psteps_exec _ _ _ _ _ _ Hp (final_exec _ _ _ Hf)) as Hx.
  destruct (safe_exec _ _ _ _ (processWeatherQuery_safe key (query_of m)) Hx) as [s ->]; eauto.
Qed.
(** C4: everything the bot sends answers a message it received, in
    that message's chat: the greeting, to a text containing ["/start"],
    or ["🌤️ "] followed by the answer of a complete run of
    [processWeatherQuery] on that message's text, however the runs of
    the messages in flight interleave. *)
Theorem bot_sends outs tr P c t :
  bot_reach w key outs tr P -> In (OSend c t) outs ->
  exists m, In (OIn m) outs /\ chat_id m = c /\
    ((greets m = true /\ t = start_reply) \/
     (handles m = true /\ exists evs s, t = reply_text s /\
        exec w (processWeatherQuery key (query_of m)) evs (Ok s))).
Proof.
  induction 1 as [|outs tr P m' Hb IH Hh|outs tr P m' Hb IH|outs tr P i ev P' Hb IH _|outs tr P i m' r P' Hb IH Hs];
    [intros [] | ..]; intros [Hin|Hin]%in_app_or;
    try (destruct (IH Hin) as (m & ? & ?); exists m; split; [apply in_app_l |]; assumption).
  - apply on_message_send in Hin as (<- & Hg & ->); exists m'.
    split; [apply in_or_app; right; left; reflexivity | auto].
  - apply on_message_send in Hin as (<- & Hg & ->); exists m'.
    split; [apply in_or_app; right; left; reflexivity | auto].
  - destruct Hin as [[=]|[]].
  - destruct (bot_settle_ok _ _ _ _ _ _ _ Hb Hs) as (Hst & evs & s & -> & Hx).
    destruct (bot_starts _ _ _ Hb _ _ Hst) as [Hm Hh].
    destruct Hin as [[= <- <-]|[]]; exists m'; split; [apply in_app_l; exact Hm |].
    split; [reflexivity | right; split; [exact Hh | exists evs, s; auto]].
Qed.

(** A message that starts a run has had its chat shown "typing". *)
Lemma bot_typing outs tr P : bot_reach w key outs tr P ->
  forall i m, In (LStart i m) tr -> In (OTyping (chat_id m)) outs.
Proof.
  induction 1 as [|outs tr P m' _ IH Hh|outs tr P m' _ IH|outs tr P i' ev P' _ IH _|outs tr P i' m' r P' _ IH _];
    intros i m Hin.
  - destruct Hin.
  - apply in_snoc in Hin as [Hin|[= _ ->]]; [apply in_app_l; eapply IH; exact Hin |].
    apply in_or_app; right; unfold on_message; rewrite Hh; right; left; reflexivity.
  - apply in_app_l; eapply IH; exact Hin.
  - apply in_snoc in Hin as [Hin|[=]]; apply in_app_l; eapply IH; exact Hin.
  - apply in_snoc in Hin as [Hin|[=]]; apply in_app_l; eapply IH; exact Hin.
Qed.

Lemma nth_error_app_l {X : Type} (l l' : list X) n x :
  nth_error l n = Some x -> nth_error (l ++ l')%list n = Some x.
Proof. intros H; rewrite nth_error_app1; [exact H | apply nth_error_Some; congruence]. Qed.

(** C17: the bot shows "typing" before it answers.  Every message the
    bot sends in a chat is the /start greeting or comes after a
    [sendChatAction(chat, 'typing')] in that chat (lines 201-207). *)
Theorem bot_typing_first outs tr P n c t :
  bot_reach w key outs tr P -> nth_error outs n = Some (OSend c t) ->
  t = start_reply \/ exists k, k < n /\ nth_error outs k = Some (OTyping c).
Proof.
  intros Hb; revert n; induction Hb as [|outs tr P m Hb IH _|outs tr P m Hb IH|outs tr P i ev P' Hb IH _|outs tr P i m r P' Hb IH Hs];
    intros n Hn; [destruct n; discriminate |..];
    (destruct (Nat.lt_ge_cases n (List.length outs)) as [Hl|Hl];
     [rewrite nth_error_app1 in Hn by exact Hl; destruct (IH n Hn) as [|(k & Hk & Hkn)];
      [left; assumption | right; exists k; split; [exact Hk | apply nth_error_app_l, Hkn]] |
      rewrite nth_error_app2 in Hn by exact Hl; apply nth_error_In in Hn]).
  - apply on_message_send in Hn as (_ & _ & ->); left; reflexivity.
  - apply on_message_send in Hn as (_ & _ & ->); left; reflexivity.
  - destruct Hn as [[=]|[]].
  - destruct (bot_settle_ok _ _ _ _ _ _ _ Hb Hs) as (Hst & evs & s & -> & _).
    destruct Hn as [[= <- _]|[]]; right.
    destruct (In_nth_error _ _ (bot_typing _ _ _ Hb _ _ Hst)) as [k Hk].
    assert (Hk' : k < List.length outs) by (apply nth_error_Some; congruence).
    exists k; split; [lia |].
    apply nth_error_app_l, Hk.
Qed.

(** The messages the bot sends, and the received messages it greets. *)
Definition sends (outs : list out) : nat :=
  List.length (filter (fun o => match o with OSend _ _ => true | _ => false end) outs).
Definition greeted (outs : list out) : nat :=
  List.length (filter (fun o => match o with OIn m => greets m | _ => false end) outs).

Lemma sends_app a b : sends (a ++ b) = sends a + sends b.
Proof. unfold sends; rewrite filter_app, length_app; reflexivity. Qed.

Lemma greeted_app a b : greeted (a ++ b) = greeted a + greeted b.
Proof. unfold greeted; rewrite filter_app, length_app; reflexivity. Qed.

Lemma on_message_counts m : sends (on_message m) = greeted (on_message m).
Proof. unfold on_message, sends, greeted; destruct (handles m), (greets m) eqn:G; simpl; rewrite ?G; reflexivity. Qed.

(** C16: one reply per query.  Along any run of the bot, every handled
    message gets its own run, every run settles at most once, and the
    bot sends exactly one message per greeted text plus one per settled
    run: together with C15, each handled message is answered exactly
    once (spec 7: a single answer string per query). *)
Theorem bot_one_reply outs tr P :
  bot_reach w key outs tr P ->
  NoDup (started tr) /\ NoDup (settled tr) /\ sends outs = greeted outs + List.length (settled tr).
Proof.
  intros Hb; destruct (reach_once _ _ _ _ (bot_pool _ _ _ Hb)) as [Hs Hd]; split; [exact Hs | split; [exact Hd |]].
  clear Hs Hd; induction Hb as [|outs tr P m Hb IH _|outs tr P m Hb IH|outs tr P i ev P' Hb IH _|outs tr P i m r P' Hb IH Hs];
    rewrite ?sends_app, ?greeted_app, ?on_message_counts; unfold settled in *;
    rewrite ?flat_map_app, ?length_app; cbn [flat_map app List.length];
    [reflexivity | lia | lia | unfold sends, greeted in *; simpl; lia |].
  destruct (bot_settle_ok _ _ _ _ _ _ _ Hb Hs) as (_ & evs & s & -> & _).
  unfold sends, greeted in *; simpl; lia.
Qed.
End BotRuns.

(** ** Every message in flight gets its reply *)

Section BotLive.
Variable w : world.
Variable key : string.
Local Open Scope list_scope.

Lemma bot_run_bounded (m : tmsg) : bounded 7 (bot_run key m).
Proof. apply processWeatherQuery_bounded; exact FetchWeather_bounded. Qed.

(** One run in flight, bounded by [n], can be taken to its end, and the
    bot then sends its answer in the message's chat. *)
Lemma bot_finish_slot (n : nat) (outs : list out) tr (P1 P2 : @table string tmsg) (m : tmsg) p :
  total w -> bot_reach w key outs tr (P1 ++ (m, Running p) :: P2) -> bounded n p ->
  exists outs' tr' s, bot_reach w key (outs ++ outs') (tr ++ tr') (P1 ++ (m, Finished (Ok s)) :: P2) /\
                      In (OSend (chat_id m) (reply_text s)) outs'.
Proof.
  revert outs tr p; induction n as [|n IH]; intros outs tr p Ht Hb Hn;
    (destruct (final p) as [out|] eqn:Hf;
     [assert (Hs : pool_step w (bot_run key) (P1 ++ (m, Running p) :: P2) (LDone (List.length P1) m out)
                             (P1 ++ (m, Finished out) :: P2)) by (constructor; exact Hf);
      destruct (bot_settle_ok w key _ _ _ _ _ _ _ Hb Hs) as (_ & evs & s & -> & _);
      exists (on_settled m (Ok s)), [LDone (List.length P1) m (Ok s)], s;
      split; [exact (bot_settle w key _ _ _ _ _ _ _ Hb Hs) | left; reflexivity] |]).
  - destruct p; simpl in Hf, Hn; try discriminate; contradiction.
  - destruct (pstep_progress w p Ht Hf) as (ev & p' & Hs).
    assert (Hb' : bot_reach w key (outs ++ [OEv ev]) (tr ++ [LStep (List.length P1) ev])
                            (P1 ++ (m, Running p') :: P2))
      by (eapply bot_advance; [exact Hb | constructor; exact Hs]).
    destruct (IH _ _ _ Ht Hb' (pstep_bounded _ _ _ _ _ Hn Hs)) as (outs2 & tr2 & s & H & Hin).
    exists ([OEv ev] ++ outs2), ([LStep (List.length P1) ev] ++ tr2), s; rewrite !app_assoc.
    split; [exact H | apply in_or_app; right; exact Hin].
Qed.

(** C15: no message is left unanswered.  In a world that answers every
    call, from any state the bot can reach, the runs in flight can all
    be taken to their end; then every message whose run was in flight
    has been sent ["🌤️ "] and an answer in its own chat, and no run is
    left running. *)
Theorem bot_answers_all outs tr P :
  total w -> bot_reach w key outs tr P ->
  exists outs' tr' P', bot_reach w key (outs ++ outs') (tr ++ tr') P' /\
    (forall i m st, nth_error P' i = Some (m, st) -> exists out, st = Finished out) /\
    (forall i m p, nth_error P i = Some (m, Running p) ->
                   exists s, In (OSend (chat_id m) (reply_text s)) outs').
Proof.
  intros Ht; remember (busy P) as c eqn:Ec; revert outs tr P Ec.
  induction c as [|c IH]; intros outs tr P Ec Hb.
  - exists [], [], P; rewrite !app_nil_r; split; [exact Hb | split].
    + intros i m st; exact (busy_zero _ i m st (eq_sym Ec)).
    + intros i m p Hn; destruct (busy_zero _ i m _ (eq_sym Ec) Hn) as [? [=]].
  - destruct (busy_split P ltac:(lia)) as (P1 & m & p & P2 & ->).
    assert (Hn : bounded 7 p)
      by exact (running_bounded _ _ 7 _ _ _ _ _ bot_run_bounded (bot_pool _ _ _ _ _ Hb) (nth_error_mid _ _ _)).
    destruct (bot_finish_slot 7 outs tr P1 P2 m p Ht Hb Hn) as (outs1 & tr1 & s & Hb1 & Hin1).
    destruct (IH (outs ++ outs1) (tr ++ tr1) (P1 ++ (m, Finished (Ok s)) :: P2)
                ltac:(rewrite busy_mid in *; simpl in *; lia) Hb1)
      as (outs2 & tr2 & P' & Hb2 & Hfin & Hrep).
    exists (outs1 ++ outs2), (tr1 ++ tr2), P'; rewrite !app_assoc; split; [exact Hb2 | split; [exact Hfin |]].
    intros i m' p' Hi; destruct (Nat.eq_dec i (List.length P1)) as [->|Hne].
    + rewrite nth_error_mid in Hi; injection Hi as -> _; exists s; apply in_or_app; left; exact Hin1.
    + rewrite (nth_error_other _ _ _ (m, Finished (Ok s))) in Hi by exact Hne.
      destruct (Hrep _ _ _ Hi) as [s' Hs']; exists s'; apply in_or_app; right; exact Hs'.
Qed.
(** A run in flight whose remaining steps [evs] lead it to a result [r]
    can take them all, one after the other, and settle: the bot shows
    the steps and then what the handler does with [r]. *)
Lemma bot_run_slot (outs : list out) tr (P1 P2 : @table string tmsg) (m : tmsg) p evs p' r :
  psteps w p evs p' -> final p' = Some r ->
  bot_reach w key outs tr (P1 ++ (m, Running p) :: P2) ->
  bot_reach w key (outs ++ map OEv evs ++ on_settled m r)
                  (tr ++ map (LStep (List.length P1)) evs ++ [LDone (List.length P1) m r])
                  (P1 ++ (m, Finished r) :: P2).
Proof.
  intros Hs Hf; revert outs tr; induction Hs as [p|p ev p1 evs p2 Hs _ IH]; intros outs tr Hb.
  - eapply bot_settle; [exact Hb | constructor; exact Hf].
  - assert (Hb1 : bot_reach w key (outs ++ [OEv ev]) (tr ++ [LStep (List.length P1) ev])
                            (P1 ++ (m, Running p1) :: P2))
      by (eapply bot_advance; [exact Hb | constructor; exact Hs]).
    specialize (IH Hf _ _ Hb1); rewrite <- !app_assoc in IH; exact IH.
Qed.

(** C20: the bot does not answer the questions of a chat in the order
    they were asked.  Each handled message starts its own run (lines
    195-208) and nothing orders the replies: for any two messages [m1]
    then [m2] (of the same chat or not) and any complete executions of
    their runs, the interleaving in which the run of [m2] goes to its
    end and sends its reply before the run of [m1] makes a step is a
    behaviour of the bot, so the answer to the later question is sent
    first.  The spec (section 5) makes runs independent and says
    nothing of the order of answers within a chat. *)
Theorem bot_replies_overtake m1 m2 evs1 s1 evs2 s2 :
  handles m1 = true -> handles m2 = true ->
  exec w (bot_run key m1) evs1 (Ok s1) -> exec w (bot_run key m2) evs2 (Ok s2) ->
  exists tr P, bot_reach w key
    (on_message m1 ++ on_message m2 ++ map OEv evs2 ++ on_settled m2 (Ok s2) ++
     map OEv evs1 ++ on_settled m1 (Ok s1)) tr P.
Proof.
  intros H1 H2 (p1 & Hs1 & Hf1)%exec_iff_psteps (p2 & Hs2 & Hf2)%exec_iff_psteps.
  pose proof (bot_message_run w key _ _ _ m1 (bot_init w key) H1) as Hb1.
  pose proof (bot_message_run w key _ _ _ m2 Hb1 H2) as Hb2.
  pose proof (bot_run_slot _ _ [(m1, Running (bot_run key m1))] [] m2 _ _ _ _ Hs2 Hf2 Hb2) as Hb3.
  pose proof (bot_run_slot _ _ [] [(m2, Finished (Ok s2))] m1 _ _ _ _ Hs1 Hf1 Hb3) as Hb4.
  rewrite <- !app_assoc in Hb4; eexists _, _; exact Hb4.
Qed.
End BotLive.

(** ** An executable bot *)

Inductive bot_action : Type :=
| BMsg (m : tmsg)
| BAdv (i : nat)
| BSettle (i : nat).

Section BotSched.
Context `{WS : WeatherSource}.
Variable o : oracle.
Variable key : string.

Fixpoint bot_sched (outs : list out) (tr : list (@label string tmsg)) (P : @table string tmsg)
    (acts : list bot_action) : option (list out * list (@label string tmsg) * @table string tmsg) :=
  match acts with
  | [] => Some (outs, tr, P)
  | BMsg m :: acts' =>
      if handles m then
        bot_sched (outs ++ on_message m) (tr ++ [LStart (List.length P) m])
                  (P ++ [(m, Running (bot_run key m))]) acts'
      else bot_sched (outs ++ on_message m) tr P acts'
  | BAdv i :: acts' =>
      match sched_step o (bot_run key) P (AAdvance i) with
      | Some (LStep j ev, P') => bot_sched (outs ++ [OEv ev]) (tr ++ [LStep j ev]) P' acts'
      | _ => None
      end
  | BSettle i :: acts' =>
      match sched_step o (bot_run key) P (AFinish i) with
      | Some (LDone j m r, P') => bot_sched (outs ++ on_settled m r) (tr ++ [LDone j m r]) P' acts'
      | _ => None
      end
  end%list.

Lemma bot_sched_reach outs tr P acts outs' tr' P' :
  bot_reach (world_of o) key outs tr P -> bot_sched outs tr P acts = Some (outs', tr', P') ->
  bot_reach (world_of o) key outs' tr' P'.
Proof.
  revert outs tr P; induction acts as [|[m|i|i] acts IH]; intros outs tr P Hb; cbn [bot_sched].
  - intros [= <- <- <-]; exact Hb.
  - destruct (handles m) eqn:Hh; apply IH; constructor; assumption.
  - destruct (sched_step o (bot_run key) P (AAdvance i)) as [[[| j ev |] P1]|] eqn:E; try discriminate.
    apply IH; econstructor; [exact Hb | exact (sched_step_sound _ _ _ _ _ _ E)].
  - destruct (sched_step o (bot_run key) P (AFinish i)) as [[[| | j m r] P1]|] eqn:E; try discriminate.
    apply IH; econstructor; [exact Hb | exact (sched_step_sound _ _ _ _ _ _ E)].
Qed.
End BotSched.

(** ** What the handlers do with unusual messages *)

Section BotFindings.
Context `{WS : WeatherSource}.
Variable w : world.
Variable key : string.

(** C22: the [/\/start/] handler is not anchored: a text that only
    mentions ["/start"] after other words gets the greeting, and, since
    it does not start with ["/"], the message handler also starts a
    pipeline run on it. *)
Theorem bot_start_anywhere outs tr P c s :
  bot_reach w key outs tr P -> includes s "/start" = true -> starts_with s "/" = false ->
  bot_reach w key (outs ++ [OIn (mkMsg c (Some s)); OTyping c; OSend c start_reply])%list
    (tr ++ [LStart (List.length P) (mkMsg c (Some s))])%list
    (P ++ [(mkMsg c (Some s), Running (processWeatherQuery key s))])%list.
Proof.
  intros Hb Hi Hs.
  assert (Hq : query_of (mkMsg c (Some s)) = s)
    by (unfold query_of; simpl; destruct s; [discriminate | reflexivity]).
  assert (Hh : handles (mkMsg c (Some s)) = true) by (unfold handles; simpl; rewrite Hs; reflexivity).
  pose proof (bot_message_run w key outs tr P _ Hb Hh) as H.
  unfold on_message, bot_run in H; rewrite Hh, Hq in H; unfold greets in H; simpl in H.
  rewrite Hi in H; exact H.
Qed.

(** C23: a message without text (a photo, a sticker, a location) is not
    a command, so the handler runs the pipeline on [msg.text || ''],
    the empty query, whose first call asks the model to extract a
    location from an empty user message. *)
Theorem bot_nontext_query outs tr P c :
  bot_reach w key outs tr P ->
  bot_reach w key (outs ++ [OIn (mkMsg c None); OTyping c])%list
    (tr ++ [LStart (List.length P) (mkMsg c None)])%list
    (P ++ [(mkMsg c None, Running (processWeatherQuery key ""))])%list /\
  forall evs out, exec w (processWeatherQuery key "") evs out ->
    exists r rest, evs = EvChat key gpt_model (extract_msgs "") r :: rest.
Proof.
  intros Hb; split; [exact (bot_message_run w key outs tr P (mkMsg c None) Hb eq_refl) |].
  intros evs out Hx; unfold processWeatherQuery, workflow_run, WeatherAgentComponent,
    OpenAIProvider, WeatherAgent, ExtractLocation, ChatCompletion in Hx; simpl in Hx.
  inversion Hx; eauto.
Qed.
End BotFindings.

(** ** Start-up *)

Lemma truthy_str (s : string) : truthy (JStr s) = negb (String.eqb s "").
Proof. reflexivity. Qed.

(** [MODE || 'console'] is ["telegram"] exactly when [MODE] is. *)
Lemma mode_telegram md :
  String.eqb (if truthy (env_val md) then to_js_string (env_val md) else "console") "telegram" = true <->
  md = Some "telegram".
Proof.
  destruct md as [m|]; cbn; [destruct (String.eqb_spec m "") as [->|]; cbn |];
    [split; discriminate | rewrite String.eqb_eq; split; congruence | split; discriminate].
Qed.

(** C25: start-up goes on exactly when [OPENAI_API_KEY] is a non-empty
    string; it starts the bot exactly when [MODE] is ["telegram"] and
    [TELEGRAM_BOT_TOKEN] is a non-empty string, and the console for any
    other [MODE], unset or empty included; otherwise it prints the
    matching error and exits with code 1.  The token check inside
    [startTelegramBot] (lines 173-177) is never the one that fails. *)
Theorem startup_mode e :
  match startup e with
  | (_, Some (ConsoleMode k)) =>
      OPENAI_API_KEY e = Some k /\ k <> "" /\ MODE e <> Some "telegram"
  | (_, Some (TelegramMode k t)) =>
      OPENAI_API_KEY e = Some k /\ k <> "" /\ MODE e = Some "telegram" /\
      TELEGRAM_BOT_TOKEN e = Some t /\ t <> ""
  | (outs, None) =>
      (outs = key_missing /\ forall k, OPENAI_API_KEY e = Some k -> k = "") \/
      (outs = token_missing_mode /\ MODE e = Some "telegram" /\
       forall t, TELEGRAM_BOT_TOKEN e = Some t -> t = "")
  end.
Proof.
  destruct e as [tok [k|] md]; unfold startup; cbn [OPENAI_API_KEY MODE TELEGRAM_BOT_TOKEN env_val];
    [| left; split; [reflexivity | discriminate]].
  rewrite truthy_str; destruct (String.eqb_spec k "") as [->|Hk]; cbn [negb];
    [left; split; [reflexivity | congruence] |].
  destruct (String.eqb _ "telegram") eqn:Em; [apply mode_telegram in Em | ]; cbn.
  - destruct tok as [t|]; unfold startTelegramBot; cbn;
      [destruct (String.eqb_spec t "") as [->|Ht]; cbn |].
    + right; repeat split; congruence.
    + repeat split; congruence.
    + right; repeat split; congruence.
  - repeat split; [congruence | intros ->; cbn in Em; discriminate Em].
Qed.

(** ** Witnesses on concrete sessions *)

Definition paris_msg : tmsg := mkMsg 7 (Some paris_q).
Definition start_msg : tmsg := mkMsg 9 (Some "/start").
Definition bot_session : list bot_action :=
  [BMsg paris_msg; BMsg start_msg; BAdv 0; BAdv 0; BAdv 0; BAdv 0; BAdv 0; BSettle 0].

Lemma console_exit_session_witness :
  Forall (fun q' => is_exit q' = false) [paris_q] /\ is_exit "EXIT" = true /\
  exists blocks, Forall2 (answered paris_world test_key) [paris_q] blocks /\
    startConsoleMode paris_world test_key ([paris_q] ++ "EXIT" :: ["more"])%list =
      ((console_greeting ++ concat blocks ++ console_bye "EXIT")%list, Exited 0).
Proof.
  assert (H1 : Forall (fun q' => is_exit q' = false) [paris_q]) by (constructor; [reflexivity | constructor]).
  assert (H2 : is_exit "EXIT" = true) by reflexivity.
  split; [exact H1 | split; [exact H2 | exact (console_exit_session _ _ _ _ _ H1 H2)]].
Defined.

Lemma bot_sends_witness :
  exists outs tr P, bot_reach (world_of paris_world) test_key outs tr P /\
    In (OSend 7 (reply_text "It is sunny in Paris, 15 degrees.")) outs /\
    exists m, In (OIn m) outs /\ chat_id m = 7%Z /\
      ((greets m = true /\ reply_text "It is sunny in Paris, 15 degrees." = start_reply) \/
       (handles m = true /\ exists evs s, reply_text "It is sunny in Paris, 15 degrees." = reply_text s /\
          exec (world_of paris_world) (processWeatherQuery test_key (query_of m)) evs (Ok s))).
Proof.
  destruct (bot_sched paris_world test_key [] [] [] bot_session) as [[[outs tr] P]|] eqn:E;
    [| vm_compute in E; discriminate].
  pose proof (bot_sched_reach _ _ _ _ _ _ _ _ _ (bot_init _ _) E) as Hb.
  assert (Hin : In (OSend 7 (reply_text "It is sunny in Paris, 15 degrees.")) outs)
    by (vm_compute in E; injection E as <- _ _; do 9 right; left; reflexivity).
  exists outs, tr, P; split; [exact Hb | split; [exact Hin |]].
  exact (bot_sends _ _ _ _ _ _ _ Hb Hin).
Defined.

Lemma bot_start_anywhere_witness :
  includes "weather in Paris /start" "/start" = true /\ starts_with "weather in Paris /start" "/" = false /\
  bot_reach (world_of paris_world) test_key
    [OIn (mkMsg 7 (Some "weather in Paris /start")); OTyping 7; OSend 7 start_reply]
    [LStart 0 (mkMsg 7 (Some "weather in Paris /start"))]
    [(mkMsg 7 (Some "weather in Paris /start"),
      Running (processWeatherQuery test_key "weather in Paris /start"))].
Proof.
  assert (Hi : includes "weather in Paris /start" "/start" = true) by reflexivity.
  assert (Hs : starts_with "weather in Paris /start" "/" = false) by reflexivity.
  split; [exact Hi | split; [exact Hs |]].
  exact (bot_start_anywhere _ _ [] [] [] 7 _ (bot_init _ _) Hi Hs).
Defined.

Lemma bot_nontext_query_witness :
  bot_reach (world_of paris_world) test_key [] [] [] /\
  bot_reach (world_of paris_world) test_key [OIn (mkMsg 9 None); OTyping 9]
    [LStart 0 (mkMsg 9 None)] [(mkMsg 9 None, Running (processWeatherQuery test_key ""))] /\
  forall evs out, exec (world_of paris_world) (processWeatherQuery test_key "") evs out ->
    exists r rest, evs = EvChat test_key gpt_model (extract_msgs "") r :: rest.
Proof.
  split; [constructor | exact (bot_nontext_query _ _ [] [] [] 9 (bot_init _ _))].
Defined.

(** ** The tests that route an input *)

(** C27: the [/\/start/] handler fires for a message exactly when it
    has a text in which ["/start"] occurs, at any position. *)
Theorem greets_spec (m : tmsg) :
  greets m = true <-> exists s a b, text m = Some s /\ s = (a ++ "/start" ++ b)%string.
Proof.
  unfold greets; destruct (text m) as [s|].
  - rewrite includes_spec; split; [intros (a & b & H); eauto | intros (s' & a & b & [= <-] & H); eauto].
  - split; [discriminate | intros (s' & a & b & [=] & _)].
Qed.

(** C28: the console's exit test accepts exactly the sixteen spellings
    of ["exit"] in any letter case, and no other line: no white space
    around it, no other word. *)
Theorem is_exit_spec (q : string) : is_exit q = true <-> In q (case_variants "exit").
Proof. unfold is_exit; rewrite String.eqb_eq; apply to_lower_variants; reflexivity. Qed.

Lemma bot_answers_all_witness :
  exists outs tr P, total (world_of paris_world) /\ bot_reach (world_of paris_world) test_key outs tr P /\
    exists outs' tr' P', bot_reach (world_of paris_world) test_key (outs ++ outs') (tr ++ tr') P' /\
      (forall i m st, nth_error P' i = Some (m, st) -> exists out, st = Finished out) /\
      (forall i m p, nth_error P i = Some (m, Running p) ->
                     exists s, In (OSend (chat_id m) (reply_text s)) outs').
Proof.
  destruct (bot_sched paris_world test_key [] [] [] [BMsg paris_msg; BMsg start_msg; BAdv 0])
    as [[[outs tr] P]|] eqn:E.
  2: { assert (H : match bot_sched paris_world test_key [] [] [] [BMsg paris_msg; BMsg start_msg; BAdv 0] with
                   | Some _ => true | None => false end = true) by (vm_compute; reflexivity).
       rewrite E in H; discriminate H. }
  pose proof (bot_sched_reach _ _ _ _ _ _ _ _ _ (bot_init _ _) E) as Hb.
  pose proof (world_of_total paris_world) as Ht.
  exists outs, tr, P; split; [exact Ht | split; [exact Hb | exact (bot_answers_all _ _ _ _ _ Ht Hb)]].
Defined.

Lemma bot_one_reply_witness :
  exists outs tr P, bot_reach (world_of paris_world) test_key outs tr P /\
    NoDup (started tr) /\ NoDup (settled tr) /\ sends outs = greeted outs + List.length (settled tr).
Proof.
  destruct (bot_sched paris_world test_key [] [] [] bot_session) as [[[outs tr] P]|] eqn:E;
    [| vm_compute in E; discriminate].
  pose proof (bot_sched_reach _ _ _ _ _ _ _ _ _ (bot_init _ _) E) as Hb.
  exists outs, tr, P; split; [exact Hb | exact (bot_one_reply _ _ _ _ _ Hb)].
Defined.

Lemma bot_typing_first_witness :
  exists outs tr P, bot_reach (world_of paris_world) test_key outs tr P /\
    nth_error outs 9 = Some (OSend 7 (reply_text "It is sunny in Paris, 15 degrees.")) /\
    (reply_text "It is sunny in Paris, 15 degrees." = start_reply \/
     exists k, k < 9 /\ nth_error outs k = Some (OTyping 7)).
Proof.
  destruct (bot_sched paris_world test_key [] [] [] bot_session) as [[[outs tr] P]|] eqn:E;
    [| vm_compute in E; discriminate].
  pose proof (bot_sched_reach _ _ _ _ _ _ _ _ _ (bot_init _ _) E) as Hb.
  assert (Hn : nth_error outs 9 = Some (OSend 7 (reply_text "It is sunny in Paris, 15 degrees.")))
    by (vm_compute in E; injection E as <- _ _; reflexivity).
  exists outs, tr, P; split; [exact Hb | split; [exact Hn | exact (bot_typing_first _ _ _ _ _ _ _ _ Hb Hn)]].
Defined.

(** ** Replies are not kept in order *)

(** A world whose model finds Paris in every question and answers a
    generation request with the user's question, so each reply shows
    which question it answers. *)
Definition echo_world : oracle :=
  mkOracle (fun _ _ msgs => match msgs with
                            | [_; _] => Ok "Paris"
                            | [_; u; _] => Ok (content u)
                            | _ => Ok "" end)
           (fun _ => Ok paris_doc).

Definition early_msg : tmsg := mkMsg 7 (Some "Weather in Paris?").
Definition late_msg : tmsg := mkMsg 7 (Some "And tomorrow?").

(** Both questions arrive, then the second run goes to its end and
    settles before the first one makes its first step. *)
Lemma bot_replies_overtake_witness :
  handles early_msg = true /\ handles late_msg = true /\
  exists evs1 evs2 tr P, bot_reach (world_of echo_world) test_key
    (on_message early_msg ++ on_message late_msg ++ map OEv evs2 ++
     on_settled late_msg (Ok "And tomorrow?") ++ map OEv evs1 ++
     on_settled early_msg (Ok "Weather in Paris?"))%list tr P.
Proof.
  split; [reflexivity | split; [reflexivity |]].
  exists (fst (run echo_world (bot_run test_key early_msg))), (fst (run echo_world (bot_run test_key late_msg))).
  exact (bot_replies_overtake (world_of echo_world) test_key early_msg late_msg _ "Weather in Paris?"
           _ "And tomorrow?" eq_refl eq_refl (run_exec _ _) (run_exec _ _)).
Defined.
