(* ===== verification/Console.v ===== *)
(** * Console: the console loop on readline's input stream
      (index.tsx lines 213-244)

    [Frontend.console_loop] reads the console's input as the list of the
    lines answered at the prompts.  Here the input is what the terminal
    or a pipe really delivers: lines and, at some point, the end of the
    input, arriving whenever the user types them, also while a run is in
    flight.  The state of the process is [cstate]: a question is pending,
    or [processQuery] awaits its run (readline having closed meanwhile or
    not), or the process has exited.  Node's readline answers a line with
    the pending question's callback, and drops it when no question is
    pending (it emits ['line'], which nobody listens to); it closes at
    the end of the input, and [rl.question] on a closed interface throws
    [ERR_USE_AFTER_CLOSE].

    The theorems: [console_loop] is the behaviour of this model when every
    line is typed at a prompt (the refinement that justifies the reading
    of [Frontend]); the only unhandled rejection of the console is that
    [ERR_USE_AFTER_CLOSE], after the end of the input; and when the input
    ends while a run is in flight, the process prints the answer and then
    dies of it with exit code 1. *)

From Stdlib Require Import String List ZArith Lia.
From S2P Require Import Prelude JsValue Json Effects Weather Agent Concurrency Frontend.
Import ListNotations.
Open Scope string_scope.
Open Scope js_scope.
Local Open Scope list_scope.

(** ** The model *)

Inductive cstate : Type :=
| Asking                                  (* rl.question has armed its callback *)
| Busy (closed : bool) (p : prog string)  (* processQuery awaits the run [p] *)
| Stopped (code : Z).                     (* the process has exited *)

(** [new ERR_USE_AFTER_CLOSE('readline')]. *)
Definition use_after_close : exn := Error "readline was closed".

(** [rl.question("Your question: ", processQuery)] (lines 239, 243):
    Node's [Interface.question] throws on a closed interface; otherwise
    it writes the prompt and arms the callback. *)
Definition rl_question (closed : bool) : res (list out) :=
  if closed then Err use_after_close else Ok [OPrompt question].

(** [processQuery(query)] up to its [await] (lines 226-234). *)
Definition processQuery_start (key q : string) : list out * cstate :=
  if is_exit q then ([OLog Stdout goodbye; OClose; OExit 0], Stopped 0)
  else ([OLog Stdout waiting_line], Busy false (processWeatherQuery key q)).

(** [processQuery] after its [await] (lines 235-240), the run having
    settled with [r].  What throws here rejects the promise of
    [processQuery], which readline, its caller, drops: the rejection is
    unhandled and Node ends the process with code 1. *)
Definition processQuery_resume (closed : bool) (r : res string) : list out * cstate :=
  match r with
  | Ok result =>
      match rl_question closed with
      | Ok prompt => (OLog Stdout (answer_line result) :: prompt, Asking)
      | Err e => ([OLog Stdout (answer_line result); OUnhandled e; OExit 1], Stopped 1)
      end
  | Err e => ([OUnhandled e; OExit 1], Stopped 1)
  end.

Section Readline.
Variable w : world.
Variable key : string.

(** One event of the console process and what it shows. *)
Inductive console_step : cstate -> list out -> cstate -> Prop :=
| cs_line q outs st :
    processQuery_start key q = (outs, st) -> console_step Asking (OLine q :: outs) st
| cs_eof_asking :
    console_step Asking [OEof; OExit 0] (Stopped 0)
| cs_drop q p :
    console_step (Busy false p) [OLine q] (Busy false p)
| cs_eof_busy p :
    console_step (Busy false p) [OEof] (Busy true p)
| cs_run c p ev p' :
    pstep w p ev p' -> console_step (Busy c p) [OEv ev] (Busy c p')
| cs_settle c p r outs st :
    final p = Some r -> processQuery_resume c r = (outs, st) ->
    console_step (Busy c p) outs st.

(** Several events, from any state. *)
Inductive console_steps : cstate -> list out -> cstate -> Prop :=
| css_refl st : console_steps st [] st
| css_step st o1 st1 o2 st2 :
    console_step st o1 st1 -> console_steps st1 o2 st2 -> console_steps st (o1 ++ o2) st2.

(** The traces of [startConsoleMode()]: the greeting and the first
    question, then any events. *)
Inductive console_reach : list out -> cstate -> Prop :=
| cr_start : console_reach console_greeting Asking
| cr_step outs st o st' :
    console_reach outs st -> console_step st o st' -> console_reach (outs ++ o) st'.

(** A run in flight is what is left of a run of the pipeline. *)
Definition in_flight (p : prog string) : Prop :=
  exists q evs, psteps w (processWeatherQuery key q) evs p.

End Readline.


(** ** Facts of the model *)

Section ReadlineFacts.
Variable w : world.
Variable key : string.

Lemma console_step1 st o st' : console_step w key st o st' -> console_steps w key st o st'.
Proof. intros H; rewrite <- (app_nil_r o); econstructor; [exact H | constructor]. Qed.

Lemma console_steps_app st o1 st1 o2 st2 :
  console_steps w key st o1 st1 -> console_steps w key st1 o2 st2 ->
  console_steps w key st (o1 ++ o2) st2.
Proof.
  induction 1 as [|st o st1' o' st2' Hs _ IH]; intros H; [exact H |].
  rewrite <- app_assoc; econstructor; [exact Hs | exact (IH H)].
Qed.

Lemma console_reach_steps outs st o st' :
  console_reach w key outs st -> console_steps w key st o st' -> console_reach w key (outs ++ o) st'.
Proof.
  intros Hr Hs; revert outs Hr; induction Hs as [st|st o1 st1 o2 st2 Hs _ IH]; intros outs Hr;
    [rewrite app_nil_r; exact Hr | rewrite app_assoc; apply IH; econstructor; eassumption].
Qed.

(** A run in flight makes its steps, and the console shows them. *)
Lemma busy_psteps c p evs p' :
  psteps w p evs p' -> console_steps w key (Busy c p) (map OEv evs) (Busy c p').
Proof.
  induction 1 as [p|p ev p1 evs p2 Hs _ IH]; [constructor |].
  change (map OEv (ev :: evs)) with ([OEv ev] ++ map OEv evs).
  econstructor; [constructor; exact Hs | exact IH].
Qed.

(** Nothing happens after the process has exited. *)
Lemma stopped_steps c o st : console_steps w key (Stopped c) o st -> o = [] /\ st = Stopped c.
Proof. intros H; inversion H as [|? ? ? ? ? Hs]; subst; [auto | inversion Hs]. Qed.

(** A run in flight settles with a string: the pipeline never throws. *)
Lemma in_flight_ok p evs p' r :
  in_flight w key p -> psteps w p evs p' -> final p' = Some r -> exists s, r = Ok s.
Proof.
  intros (q & evs0 & H0) Hs Hf.
  pose proof (psteps_exec w _ _ _ _ _ H0 (psteps_exec w _ _ _ _ _ Hs (final_exec w _ _ Hf))) as Hx.
  destruct (safe_exec _ _ _ _ (processWeatherQuery_safe key q) Hx) as [s ->]; eauto.
Qed.

Lemma in_flight_pstep p ev p' : in_flight w key p -> pstep w p ev p' -> in_flight w key p'.
Proof. intros (q & evs & H) Hs; exists q, (evs ++ [ev]); eapply psteps_snoc; eassumption. Qed.

(** In a world that answers every call, a run in flight goes to its end. *)
Lemma in_flight_completes p :
  total w -> in_flight w key p -> exists evs p' s, psteps w p evs p' /\ final p' = Some (Ok s).
Proof.
  intros Ht Hp; pose proof Hp as (q & evs0 & H0).
  pose proof (processWeatherQuery_bounded key q FetchWeather_bounded) as Hb.
  destruct (psteps_bounded w 7 _ _ _ Hb H0) as [_ Hb']; clear Hb H0; revert Hb'.
  generalize (7 - List.length evs0) as n; intros n; revert p Hp.
  induction n as [|n IH]; intros p Hp Hb; destruct (final p) as [r|] eqn:Hf;
    try (destruct (in_flight_ok p [] p r Hp (psteps_refl w p) Hf) as [s ->];
         exists [], p, s; split; [constructor | exact Hf]).
  - exfalso; exact (bounded_zero_final p Hb Hf).
  - destruct (pstep_progress w p Ht Hf) as (ev & p1 & Hs).
    destruct (IH p1 (in_flight_pstep _ _ _ Hp Hs) (pstep_bounded w _ _ _ _ Hb Hs))
      as (evs & p' & s & Hs' & Hf').
    exists (ev :: evs), p', s; split; [econstructor; eassumption | exact Hf'].
Qed.

(** What the console knows in each state: the run in flight is one of
    the pipeline, and readline is closed only after the end of the
    input. *)
Definition console_inv (outs : list out) (st : cstate) : Prop :=
  match st with
  | Busy c p => in_flight w key p /\ (c = true -> In OEof outs)
  | _ => True
  end.

Lemma console_reach_inv outs st : console_reach w key outs st -> console_inv outs st.
Proof.
  induction 1 as [|outs st o st' _ IH Hs]; [exact I |].
  revert IH; destruct Hs as [q o' st1 E| |q p|p|c p ev p' Hp|c p r o' st1 Hf E]; cbn; intros IH.
  - unfold processQuery_start in E; destruct (is_exit q); injection E as <- <-; [exact I |].
    split; [exists q, []; constructor | discriminate].
  - exact I.
  - destruct IH as [H1 _]; split; [exact H1 | discriminate].
  - destruct IH as [H1 _]; split; [exact H1 | intros _; apply in_or_app; right; left; reflexivity].
  - destruct IH as [H1 H2]; split; [exact (in_flight_pstep _ _ _ H1 Hp) |].
    intros Hc; apply in_or_app; left; exact (H2 Hc).
  - unfold processQuery_resume in E; destruct r as [s|e]; [destruct (rl_question c)|];
      injection E as <- <-; exact I.
Qed.

(** After the end of the input, the run in flight can only go on and
    settle, and then [rl.question] throws. *)
Lemma closed_stops st o st' :
  console_steps w key st o st' -> forall p, st = Busy true p -> in_flight w key p ->
  forall c, st' = Stopped c -> c = 1%Z /\ In (OUnhandled use_after_close) o.
Proof.
  induction 1 as [st|st o1 st1 o2 st2 Hs Hss IH]; intros p E1 Hp c E2; subst st; [discriminate |].
  inversion Hs as [| | | |c' p0 ev p' Hp'|c' p0 r o' st1' Hf E]; subst.
  - destruct (IH p' eq_refl (in_flight_pstep _ _ _ Hp Hp') c eq_refl) as [Hc Hin].
    split; [exact Hc | apply in_or_app; right; exact Hin].
  - destruct (in_flight_ok p [] p r Hp (psteps_refl w p) Hf) as [s ->].
    injection E as <- <-; apply stopped_steps in Hss as [-> [= <-]].
    split; [reflexivity | simpl; auto].
Qed.

(** From a run in flight with readline open, the end of the input is
    the event that closes readline and leaves the run in flight. *)
Lemma busy_eof_first p o1 st1 o2 outs' :
  console_step w key (Busy false p) o1 st1 -> (o1 ++ o2)%list = OEof :: outs' ->
  st1 = Busy true p /\ o2 = outs'.
Proof.
  intros Hs; inversion Hs as [| | | |c p0 ev p' _|c p0 r o' st1' _ E]; subst; try discriminate.
  - intros [= ->]; auto.
  - unfold processQuery_resume in E; destruct r; injection E as <- <-; discriminate.
Qed.

(** A line typed at a prompt when the run of a line answers [s]: the
    console runs it, then the input ends while the answer is prepared. *)
Lemma eof_crash_trace q evs s :
  is_exit q = false -> exec w (processWeatherQuery key q) evs (Ok s) ->
  console_reach w key (console_greeting ++ [OLine q; OLog Stdout waiting_line; OEof] ++ map OEv evs ++
                       [OLog Stdout (answer_line s); OUnhandled use_after_close; OExit 1]) (Stopped 1).
Proof.
  intros Hq (p' & Hs & Hf)%exec_iff_psteps.
  apply console_reach_steps with (st := Asking); [constructor |].
  change ([OLine q; OLog Stdout waiting_line; OEof] ++ ?r) with ([OLine q; OLog Stdout waiting_line] ++ [OEof] ++ r).
  econstructor; [constructor; unfold processQuery_start; rewrite Hq; reflexivity |].
  econstructor; [constructor |].
  eapply console_steps_app; [apply busy_psteps; exact Hs |].
  apply console_step1; econstructor; [exact Hf | reflexivity].
Qed.

End ReadlineFacts.


(** ** What the console does at the end of its input *)

Section ConsoleEof.
Variable w : world.
Variable key : string.

(** C13: the console's only unhandled rejection is readline's
    [ERR_USE_AFTER_CLOSE], and it happens only after the input has
    ended: the pipeline runs never reject (C1), the exit test and the
    log lines never throw, and [rl.question] throws only on a closed
    interface. *)
Theorem console_crash_cause outs st e :
  console_reach w key outs st -> In (OUnhandled e) outs -> e = use_after_close /\ In OEof outs.
Proof.
  intros Hr; induction Hr as [|outs st o st' Hr IH Hs]; [unfold console_greeting; cbn; intuition discriminate |].
  intros [Hin|Hin]%in_app_or; [destruct (IH Hin) as [He Hx]; split; [exact He | apply in_or_app; left; exact Hx] |].
  pose proof (console_reach_inv w key _ _ Hr) as Hi; revert Hi Hin.
  destruct Hs as [q o' st1 E| |q p|p|c p ev p' Hp|c p r o' st1 Hf E]; cbn; intros Hi Hin;
    try (intuition discriminate).
  - unfold processQuery_start in E; destruct (is_exit q); injection E as <- <-; cbn in Hin; intuition discriminate.
  - destruct Hi as [Hp Hc]; destruct (in_flight_ok w key p [] p r Hp (psteps_refl w p) Hf) as [s ->].
    unfold processQuery_resume, rl_question in E; destruct c; injection E as <- <-; cbn in Hin;
      [| intuition discriminate].
    destruct Hin as [[=]|[[= <-]|[[=]|[]]]]; split; [reflexivity | apply in_or_app; left; exact (Hc eq_refl)].
Qed.

(** C12: when the input ends while a run is in flight (Ctrl-D after a
    question, or a pipe that ends), the console crashes.  From any state
    of the console with a run in flight, every way the process goes on
    after the end of the input and exits, it exits with code 1 after an
    unhandled [ERR_USE_AFTER_CLOSE]: the run goes on, its answer is
    printed, and [rl.question] of line 239 throws on the closed
    interface inside the async [processQuery], whose promise nobody
    handles.  In a world that answers every call the process does get
    there, after printing the answer. *)
Theorem console_eof_crash outs p :
  console_reach w key outs (Busy false p) ->
  (total w -> exists evs s, console_steps w key (Busy false p)
     (OEof :: map OEv evs ++ [OLog Stdout (answer_line s); OUnhandled use_after_close; OExit 1]) (Stopped 1)) /\
  (forall outs' c, console_steps w key (Busy false p) (OEof :: outs') (Stopped c) ->
     c = 1%Z /\ In (OUnhandled use_after_close) outs').
Proof.
  intros Hr; destruct (console_reach_inv w key _ _ Hr) as [Hp _]; split.
  - intros Ht; destruct (in_flight_completes w key p Ht Hp) as (evs & p' & s & Hs & Hf).
    exists evs, s; change (OEof :: ?r) with ([OEof] ++ r).
    econstructor; [constructor |].
    eapply console_steps_app; [apply busy_psteps; exact Hs |].
    apply console_step1; econstructor; [exact Hf | reflexivity].
  - intros outs' c H.
    remember (Busy false p) as st0 eqn:E0; remember (OEof :: outs') as l eqn:El.
    remember (Stopped c) as st3 eqn:E3.
    destruct H as [st|st o1 st1 o2 st2 Hs Hss]; [subst; discriminate | subst st].
    destruct (busy_eof_first w key p o1 st1 o2 outs' Hs El) as [-> ->].
    exact (closed_stops w key _ _ _ Hss p eq_refl Hp c E3).
Qed.
End ConsoleEof.


(** ** Witnesses *)

(** The Paris question answered at the prompt, then the end of the
    input while its answer is prepared. *)
Definition crash_trace : list out :=
  console_greeting ++ [OLine paris_q; OLog Stdout waiting_line; OEof] ++
  map OEv (fst (run paris_world (processWeatherQuery test_key paris_q))) ++
  [OLog Stdout (answer_line "It is sunny in Paris, 15 degrees."); OUnhandled use_after_close; OExit 1].

Lemma console_crash_cause_witness :
  console_reach (world_of paris_world) test_key crash_trace (Stopped 1) /\
  In (OUnhandled use_after_close) crash_trace /\ use_after_close = use_after_close /\ In OEof crash_trace.
Proof.
  assert (Hr : console_reach (world_of paris_world) test_key crash_trace (Stopped 1))
    by exact (eof_crash_trace (world_of paris_world) test_key paris_q _ _ eq_refl (run_exec paris_world _)).
  assert (Hin : In (OUnhandled use_after_close) crash_trace)
    by (unfold crash_trace; rewrite !in_app_iff; right; right; right; simpl; auto).
  split; [exact Hr | split; [exact Hin | exact (console_crash_cause _ _ _ _ _ Hr Hin)]].
Defined.

Lemma console_eof_crash_witness :
  let p := processWeatherQuery test_key paris_q in
  console_reach (world_of paris_world) test_key (console_greeting ++ [OLine paris_q; OLog Stdout waiting_line]) (Busy false p) /\
  (total (world_of paris_world) -> exists evs s, console_steps (world_of paris_world) test_key (Busy false p)
     (OEof :: map OEv evs ++ [OLog Stdout (answer_line s); OUnhandled use_after_close; OExit 1]) (Stopped 1)) /\
  (forall outs' c, console_steps (world_of paris_world) test_key (Busy false p) (OEof :: outs') (Stopped c) ->
     c = 1%Z /\ In (OUnhandled use_after_close) outs').
Proof.
  intros p.
  assert (Hr : console_reach (world_of paris_world) test_key (console_greeting ++ [OLine paris_q; OLog Stdout waiting_line]) (Busy false p))
    by (econstructor; [constructor | constructor; reflexivity]).
  split; [exact Hr | exact (console_eof_crash _ _ _ _ Hr)].
Defined.
